(** * cykuza-web: wallet core, checked against its specification

    A shallow embedding of the wallet core of the cykuza-web explorer:
    - [Engine]  : src/lib/wallet/transaction.ts  (estimateFee, buildAndSignTx)
    - [Codec]   : src/lib/utils.ts               (block header, varint, tx walk)
    - [Rpc]     : src/lib/wallet/transaction.ts  (class ElectrumClient)
    - [Lockout] : src/context/WalletContext.tsx  (unlockWallet and restore effect)
    - [Vault]   : src/lib/wallet/password.ts     (encrypt/decryptWithPassword)
    - [BlockParser] : src/lib/blockParser.ts     (countTransactionsInBlock)
    - [RateLimit]   : rate-limit.ts of the API routes (rateLimit)
    - [Wizard]  : src/context/WalletContext.tsx  (goBack, confirmPassword)
    - [Units]   : src/lib/wallet/transaction.ts  (cybToSats, satsToCyb,
                  btcPerKbToSatsPerVbyte)

    JavaScript numbers that hold satoshi amounts, counters, offsets and
    timestamps are integers well below 2^53 and are modelled as [Z];
    a fee rate may be fractional (it is parsed with parseFloat) and is
    modelled as an exact rational [Q].  The unit conversions of [Units],
    which multiply and divide such fractions, are modelled on binary64
    floating-point numbers, and the limits of [RateLimit], which come out
    of [parseInt], on integers with [NaN].

    Code that is not part of the repository is a parameter: the calls of
    [buildAndSignTx] into bitcoinjs-lib ([Engine.Library]), the Web Crypto
    primitives of [Vault], and what an Electrum server answers. *)

From Stdlib Require Import ZArith QArith Qround List String Ascii Bool Lia.
From Stdlib Require Uint63 Floats.
From stdpp Require Import base gmap strings.
Import ListNotations.

Local Open Scope Z_scope.

(** Outcome of a function that may [throw]. *)
Inductive result (E A : Type) : Type :=
| Ok (a : A)
| Throw (e : E).
Arguments Ok {E A} a.
Arguments Throw {E A} e.

(* ================================================================== *)
(** * Transaction engine (src/lib/wallet/transaction.ts)               *)
(* ================================================================== *)
Module Engine.

Record Utxo := mkUtxo { txid : string; vout : Z; value : Z }.

(** [estimateVBytes]: every operand is an integer, so [Math.ceil] is the
    identity on the sum. *)
Definition estimateVBytes (inputCount outputCount : Z) : Z :=
  10 + inputCount * 68 + outputCount * 31.

(** [Math.ceil(estimatedVSize * feeRate)].  For an integer rate this is
    the product; for a fractional rate the double product is rounded before
    [Math.ceil], which the exact rational does not show.  Nothing below
    depends on more than both functions computing the fee in this one way. *)
Definition feeFor (estimatedVSize : Z) (feeRate : Q) : Z :=
  Qceiling (inject_Z estimatedVSize * feeRate).

Definition outputCountOf (includeFee : bool) : Z := if includeFee then 1 else 2.

Record FeeEstimate := mkFeeEstimate
  { estimatedFee : Z; actualAmountSats : Z; totalNeeded : Z }.

(** The [for (const utxo of utxos)] loop of [estimateFee]; the state is
    [(totalIn, inputCount, estimatedFee)]. *)
Fixpoint estimateLoop (amountSats : Z) (feeRate : Q) (includeFee : bool)
    (utxos : list Utxo) (totalIn inputCount estimatedFee : Z) : Z * Z * Z :=
  match utxos with
  | [] => (totalIn, inputCount, estimatedFee)
  | utxo :: rest =>
      let totalIn := totalIn + value utxo in
      let inputCount := inputCount + 1 in
      let estimatedVSize := estimateVBytes inputCount (outputCountOf includeFee) in
      let estimatedFee := feeFor estimatedVSize feeRate in
      let totalNeeded := if includeFee then amountSats else amountSats + estimatedFee in
      if totalNeeded <=? totalIn then (totalIn, inputCount, estimatedFee)
      else estimateLoop amountSats feeRate includeFee rest totalIn inputCount estimatedFee
  end.

Definition estimateFee (amountSats : Z) (feeRate : Q) (utxos : list Utxo)
    (includeFee : bool) : FeeEstimate :=
  if (match utxos with [] => true | _ => false end) || (amountSats <=? 0)
  then mkFeeEstimate 0 0 0
  else
    let '(_, _, estimatedFee) :=
      estimateLoop amountSats feeRate includeFee utxos 0 0 0 in
    let actualAmountSats :=
      if includeFee then Z.max 0 (amountSats - estimatedFee) else amountSats in
    let totalNeeded := if includeFee then amountSats else amountSats + estimatedFee in
    mkFeeEstimate estimatedFee actualAmountSats totalNeeded.

Record SpendTarget := mkSpendTarget
  { toAddress : string;
    amountSats : Z;
    feeRate : Q;
    fromAddress : string;
    utxos : list Utxo;
    includeFee : bool }.

(** What the PSBT holds when it is finalised: the inputs in the order they
    were added and the outputs in the order they were added.  Signing, the
    address-to-script conversion and the hex serialisation are library
    calls (bitcoinjs-lib) and are not part of the engine's arithmetic; the
    model covers the runs in which those calls succeed. *)
Record TxOut := mkTxOut { address : string; outValue : Z }.
Record Psbt := mkPsbt { txIns : list Utxo; txOuts : list TxOut }.
Record Built := mkBuilt { tx : Psbt; fee : Z }.

(** The messages of the four [throw new Error(...)] of [buildAndSignTx],
    under the names the specification gives them. *)
Definition InvalidAmount : string := "Amount must be positive".
Definition NoFunds : string := "No funds available".
Definition AmountBelowFee : string := "Amount is too small to cover the transaction fee".
Definition InsufficientBalance : string := "Insufficient balance for amount + fee".

(** The selection loop of [buildAndSignTx]; the state is
    [(selectedUtxos, totalIn)], [selectedUtxos] in push order. *)
Fixpoint selectLoop (targetAmount : Z) (feeRate : Q) (includeFee : bool)
    (utxos : list Utxo) (selectedUtxos : list Utxo) (totalIn : Z)
    : list Utxo * Z :=
  match utxos with
  | [] => (selectedUtxos, totalIn)
  | utxo :: rest =>
      let selectedUtxos := selectedUtxos ++ [utxo] in
      let totalIn := totalIn + value utxo in
      let estimatedVSize :=
        estimateVBytes (Z.of_nat (length selectedUtxos)) (outputCountOf includeFee) in
      let estimatedFee := feeFor estimatedVSize feeRate in
      let recalculatedNeeded :=
        if includeFee then targetAmount else targetAmount + estimatedFee in
      if recalculatedNeeded <=? totalIn then (selectedUtxos, totalIn)
      else selectLoop targetAmount feeRate includeFee rest selectedUtxos totalIn
  end.

(** The values [buildAndSignTx] holds after its selection loop:
    [selectedUtxos], [totalIn], the final [estimatedFee] and
    [actualAmountSats]. *)
Definition selection (params : SpendTarget) : list Utxo * Z :=
  selectLoop (amountSats params) (feeRate params) (includeFee params) (utxos params) [] 0.

Definition finalFee (params : SpendTarget) : Z :=
  feeFor (estimateVBytes (Z.of_nat (length (fst (selection params))))
            (outputCountOf (includeFee params))) (feeRate params).

Definition finalAmount (params : SpendTarget) : Z :=
  if includeFee params then Z.max 0 (amountSats params - finalFee params)
  else amountSats params.

Definition sumOuts (outs : list TxOut) : Z :=
  fold_left (fun sum o => sum + outValue o) outs 0.

(** [buildAndSignTx] on the runs in which the script is derived and no
    library call throws; [buildAndSignTxWith] below has the other runs too.
    The estimate for one input that the source makes before the loop is
    overwritten after it and is left out. *)
Definition buildAndSignTx (params : SpendTarget) : result string Built :=
  if amountSats params <=? 0 then Throw InvalidAmount
  else if (match utxos params with [] => true | _ => false end) then Throw NoFunds
  else
    let targetAmount := amountSats params in
    let '(selectedUtxos, totalIn) :=
      selectLoop targetAmount (feeRate params) (includeFee params) (utxos params) [] 0 in
    let estimatedVSize :=
      estimateVBytes (Z.of_nat (length selectedUtxos)) (outputCountOf (includeFee params)) in
    let estimatedFee := feeFor estimatedVSize (feeRate params) in
    let actualAmountSats :=
      if includeFee params then Z.max 0 (amountSats params - estimatedFee)
      else amountSats params in
    if (actualAmountSats <=? 0) && includeFee params then Throw AmountBelowFee
    else
      let change := totalIn - actualAmountSats - estimatedFee in
      if change <? 0 then Throw InsufficientBalance
      else
        let outs :=
          mkTxOut (toAddress params) actualAmountSats
          :: (if 546 <? change then [mkTxOut (fromAddress params) change] else []) in
        let fee := totalIn - sumOuts outs in
        Ok (mkBuilt (mkPsbt selectedUtxos outs) fee).

(** Total value of a list of UTXOs. *)
Definition sumValues (l : list Utxo) : Z := fold_right (fun u acc => value u + acc) 0 l.

(** Sample calls, used to exercise the statements below. *)
Definition utxoA : Utxo := mkUtxo "9f2c" 0 100010000.
Definition utxoB : Utxo := mkUtxo "41d7" 1 1641.

(** 1.0 unit with the fee taken from the amount, 200 sat/vB, one UTXO. *)
Definition spendInclusive : SpendTarget :=
  mkSpendTarget "cy1qrecipient" 100000000 (200 # 1) "cy1qsender" [utxoA] true.
(** 1000 sat at 1 sat/vB from a UTXO of 1641 sat: the change is dust. *)
Definition spendDust : SpendTarget :=
  mkSpendTarget "cy1qrecipient" 1000 (1 # 1) "cy1qsender" [utxoB] false.

Definition builtInclusive : Built :=
  mkBuilt (mkPsbt [utxoA] [mkTxOut "cy1qrecipient" 99978200; mkTxOut "cy1qsender" 10000]) 21800.
Definition builtDust : Built :=
  mkBuilt (mkPsbt [utxoB] [mkTxOut "cy1qrecipient" 1000]) 641.


(** ** The calls into bitcoinjs-lib *)

(** [buildAndSignTx] derives the script, adds the inputs and the outputs,
    signs and extracts the transaction through bitcoinjs-lib, and each of
    these calls can throw.  The library is not part of this repository, so
    whether a call throws, and with which message, is a parameter here
    ([None]: the call returns).  A call that returns does to the PSBT what
    [buildAndSignTx] above takes it to do.  The key pair and the network of
    the call are fixed inside the parameter.
    - [p2wpkhOutput]: lines 94 to 96, [new bitcoin.Psbt] and
      [bitcoin.payments.p2wpkh(...).output]; [Ok false] when the output
      script is undefined;
    - [addInput added u]: [psbt.addInput] of [u] into a PSBT that holds the
      inputs [added];
    - [addOutput psbt o]: [psbt.addOutput] of [o];
    - [signInput psbt idx], [validateSignaturesOfInput psbt idx],
      [finalizeAllInputs psbt]: the calls of lines 167 to 170;
    - [extractTransaction psbt]: [psbt.extractTransaction()], which also
      checks the fee rate of the finished transaction. *)
Record Library := mkLibrary
  { p2wpkhOutput : result string bool;
    addInput : list Utxo -> Utxo -> option string;
    addOutput : Psbt -> TxOut -> option string;
    signInput : Psbt -> nat -> option string;
    validateSignaturesOfInput : Psbt -> nat -> option string;
    finalizeAllInputs : Psbt -> option string;
    extractTransaction : Psbt -> option string }.

(** How [buildAndSignTx] fails: by one of its own [throw new Error(message)],
    or by an exception that leaves a library call. *)
Inductive Failure :=
| Raised (message : string)
| LibraryError (message : string).

(** The message of the fifth [throw] of [buildAndSignTx], line 97. *)
Definition UnableToDeriveScript : string := "Unable to derive script for signing".

(** [selectedUtxos.forEach((u) => psbt.addInput(...))]; [added] are the
    inputs that the PSBT holds already. *)
Fixpoint addInputs (lib : Library) (selectedUtxos added : list Utxo)
    : result Failure (list Utxo) :=
  match selectedUtxos with
  | [] => Ok added
  | u :: rest =>
      match addInput lib added u with
      | Some message => Throw (LibraryError message)
      | None => addInputs lib rest (added ++ [u])
      end
  end.

(** The calls of [psbt.addOutput], one per output, in order. *)
Fixpoint addOutputs (lib : Library) (outs : list TxOut) (psbt : Psbt) : result Failure Psbt :=
  match outs with
  | [] => Ok psbt
  | o :: rest =>
      match addOutput lib psbt o with
      | Some message => Throw (LibraryError message)
      | None => addOutputs lib rest (mkPsbt (txIns psbt) (txOuts psbt ++ [o]))
      end
  end.

(** [selectedUtxos.forEach((_, idx) => { psbt.signInput(idx, keyPair);
    psbt.validateSignaturesOfInput(idx, validator); })] from index [idx]
    on, for [count] more inputs. *)
Fixpoint signInputs (lib : Library) (psbt : Psbt) (idx count : nat) : option string :=
  match count with
  | O => None
  | S count' =>
      match signInput lib psbt idx with
      | Some message => Some message
      | None =>
          match validateSignaturesOfInput lib psbt idx with
          | Some message => Some message
          | None => signInputs lib psbt (S idx) count'
          end
      end
  end.

(** [buildAndSignTx] with every statement that can throw.  The value
    returned is the one of [buildAndSignTx] above. *)
Definition buildAndSignTxWith (lib : Library) (params : SpendTarget) : result Failure Built :=
  if amountSats params <=? 0 then Throw (Raised InvalidAmount)
  else if (match utxos params with [] => true | _ => false end) then Throw (Raised NoFunds)
  else
    match p2wpkhOutput lib with
    | Throw message => Throw (LibraryError message)
    | Ok false => Throw (Raised UnableToDeriveScript)
    | Ok true =>
        let targetAmount := amountSats params in
        let '(selectedUtxos, totalIn) :=
          selectLoop targetAmount (feeRate params) (includeFee params) (utxos params) [] 0 in
        let estimatedVSize :=
          estimateVBytes (Z.of_nat (length selectedUtxos)) (outputCountOf (includeFee params)) in
        let estimatedFee := feeFor estimatedVSize (feeRate params) in
        let actualAmountSats :=
          if includeFee params then Z.max 0 (amountSats params - estimatedFee)
          else amountSats params in
        if (actualAmountSats <=? 0) && includeFee params then Throw (Raised AmountBelowFee)
        else
          match addInputs lib selectedUtxos [] with
          | Throw e => Throw e
          | Ok ins =>
              let change := totalIn - actualAmountSats - estimatedFee in
              if change <? 0 then Throw (Raised InsufficientBalance)
              else
                let outs :=
                  mkTxOut (toAddress params) actualAmountSats
                  :: (if 546 <? change then [mkTxOut (fromAddress params) change] else []) in
                match addOutputs lib outs (mkPsbt ins []) with
                | Throw e => Throw e
                | Ok psbt =>
                    match signInputs lib psbt 0 (length selectedUtxos) with
                    | Some message => Throw (LibraryError message)
                    | None =>
                        match finalizeAllInputs lib psbt with
                        | Some message => Throw (LibraryError message)
                        | None =>
                            match extractTransaction lib psbt with
                            | Some message => Throw (LibraryError message)
                            | None =>
                                let fee := totalIn - sumOuts (txOuts psbt) in
                                Ok (mkBuilt psbt fee)
                            end
                        end
                    end
                end
          end
    end.

(** A library that throws nowhere. *)
Definition accepting : Library :=
  mkLibrary (Ok true) (fun _ _ => None) (fun _ _ => None) (fun _ _ => None)
    (fun _ _ => None) (fun _ => None) (fun _ => None).



End Engine.

(* ================================================================== *)
(** * Codec (src/lib/utils.ts)                                         *)
(* ================================================================== *)
Module Codec.

(** ** SHA-256 (Node's [crypto.createHash('sha256')]), FIPS 180-4.
    Words are 32-bit integers kept in [0, 2^32). *)
Module Sha256.

Definition w32 (x : Z) : Z := x mod 4294967296.
Definition add32 (x y : Z) : Z := w32 (x + y).
Definition rotr (n x : Z) : Z :=
  Z.lor (Z.shiftr x n) (w32 (Z.shiftl x (32 - n))).
Definition not32 (x : Z) : Z := Z.lxor x 4294967295.

Definition Ch (x y z : Z) : Z := Z.lxor (Z.land x y) (Z.land (not32 x) z).
Definition Maj (x y z : Z) : Z :=
  Z.lxor (Z.land x y) (Z.lxor (Z.land x z) (Z.land y z)).
Definition Sigma0 (x : Z) : Z := Z.lxor (rotr 2 x) (Z.lxor (rotr 13 x) (rotr 22 x)).
Definition Sigma1 (x : Z) : Z := Z.lxor (rotr 6 x) (Z.lxor (rotr 11 x) (rotr 25 x)).
Definition sigma0 (x : Z) : Z := Z.lxor (rotr 7 x) (Z.lxor (rotr 18 x) (Z.shiftr x 3)).
Definition sigma1 (x : Z) : Z := Z.lxor (rotr 17 x) (Z.lxor (rotr 19 x) (Z.shiftr x 10)).

(** The round constants are the first 32 bits of the fractional parts of
    the cube roots of the first 64 primes, the initial hash value those of
    the square roots of the first 8 primes. *)
Definition isPrime (n : Z) : bool :=
  (1 <? n) && forallb (fun d => negb (n mod Z.of_nat d =? 0)) (seq 2 (Z.to_nat n - 2)).

Definition primes64 : list Z := List.filter isPrime (map Z.of_nat (seq 2 310)).

(** Integer cube root, one bit at a time from bit 35 down. *)
Definition icbrt (n : Z) : Z :=
  fold_left (fun r i => let r' := r + 2 ^ Z.of_nat i in if r' ^ 3 <=? n then r' else r)
            (rev (seq 0 36)) 0.

Definition K : list Z := map (fun p => w32 (icbrt (p * 2 ^ 96))) primes64.

Definition H0 : list Z := map (fun p => w32 (Z.sqrt (p * 2 ^ 64))) (firstn 8 primes64).

(** Big-endian encoding of [x] on [n] bytes. *)
Fixpoint be_bytes (n : nat) (x : Z) : list Z :=
  match n with
  | O => []
  | S n' => (x / 256 ^ Z.of_nat n') mod 256 :: be_bytes n' x
  end.

Definition be_word (bs : list Z) : Z :=
  fold_left (fun acc b => acc * 256 + b) bs 0.

(** Message padding: a 1 bit, zeros up to 56 mod 64, the bit length on 8 bytes. *)
Definition pad (msg : list Z) : list Z :=
  let len := Z.of_nat (length msg) in
  let zeros := Z.to_nat ((55 - len) mod 64) in
  msg ++ [128] ++ repeat 0 zeros ++ be_bytes 8 (8 * len).

(** The 16 words of a 64-byte block. *)
Fixpoint words (n : nat) (block : list Z) : list Z :=
  match n with
  | O => []
  | S n' => be_word (firstn 4 block) :: words n' (skipn 4 block)
  end.

(** Message schedule, most recent word first: [rev_w] holds W[t-1], W[t-2], ... *)
Fixpoint extend (n : nat) (rev_w : list Z) : list Z :=
  match n with
  | O => rev_w
  | S n' =>
      let w := add32 (add32 (sigma1 (nth 1 rev_w 0)) (nth 6 rev_w 0))
                     (add32 (sigma0 (nth 14 rev_w 0)) (nth 15 rev_w 0)) in
      extend n' (w :: rev_w)
  end.

Definition schedule (block : list Z) : list Z :=
  rev (extend 48 (rev (words 16 block))).

Record regs := mkRegs { ra : Z; rb : Z; rc : Z; rd : Z; re : Z; rf : Z; rg : Z; rh : Z }.

Definition round (s : regs) (kw : Z * Z) : regs :=
  let '(k, w) := kw in
  let t1 := add32 (add32 (add32 (rh s) (Sigma1 (re s))) (add32 (Ch (re s) (rf s) (rg s)) k)) w in
  let t2 := add32 (Sigma0 (ra s)) (Maj (ra s) (rb s) (rc s)) in
  mkRegs (add32 t1 t2) (ra s) (rb s) (rc s) (add32 (rd s) t1) (re s) (rf s) (rg s).

Definition compress (h : regs) (block : list Z) : regs :=
  let s := fold_left round (combine K (schedule block)) h in
  mkRegs (add32 (ra h) (ra s)) (add32 (rb h) (rb s)) (add32 (rc h) (rc s))
         (add32 (rd h) (rd s)) (add32 (re h) (re s)) (add32 (rf h) (rf s))
         (add32 (rg h) (rg s)) (add32 (rh h) (rh s)).

Fixpoint blocks (n : nat) (h : regs) (data : list Z) : regs :=
  match n with
  | O => h
  | S n' => blocks n' (compress h (firstn 64 data)) (skipn 64 data)
  end.

Definition init : regs :=
  mkRegs (nth 0 H0 0) (nth 1 H0 0) (nth 2 H0 0) (nth 3 H0 0)
         (nth 4 H0 0) (nth 5 H0 0) (nth 6 H0 0) (nth 7 H0 0).

(** The 32-byte digest of a byte string. *)
Definition digest (msg : list Z) : list Z :=
  let data := pad msg in
  let h := blocks (length data / 64) init data in
  flat_map (be_bytes 4) [ra h; rb h; rc h; rd h; re h; rf h; rg h; rh h].

End Sha256.

(** ** Hex strings and buffers *)

(** Value of a hex digit, either case. *)
Definition hexval (c : ascii) : option Z :=
  let n := Z.of_nat (nat_of_ascii c) in
  if (48 <=? n) && (n <=? 57) then Some (n - 48)
  else if (97 <=? n) && (n <=? 102) then Some (n - 87)
  else if (65 <=? n) && (n <=? 70) then Some (n - 55)
  else None.

(** [Buffer.from(s, 'hex')]: decodes pairs of hex digits and stops at the
    first pair that is not hex; a trailing single character is dropped. *)
Fixpoint Buffer_from_hex (s : string) : list Z :=
  match s with
  | String a (String b rest) =>
      match hexval a, hexval b with
      | Some x, Some y => (16 * x + y) :: Buffer_from_hex rest
      | _, _ => []
      end
  | _ => []
  end.

Definition hexdigit (n : Z) : ascii :=
  ascii_of_nat (Z.to_nat (if n <? 10 then 48 + n else 87 + n)).

(** [buf.toString('hex')]: two lower-case digits per byte. *)
Fixpoint toString_hex (buf : list Z) : string :=
  match buf with
  | [] => EmptyString
  | b :: rest => String (hexdigit (b / 16)) (String (hexdigit (b mod 16)) (toString_hex rest))
  end.

(** [buf.slice(a, b)] for [0 <= a <= b]. *)
Definition slice (buf : list Z) (a b : nat) : list Z := firstn (b - a) (skipn a buf).

(** [s.substring(a, b)] for [0 <= a <= b]; both ends are clamped to the length. *)
Definition substring (s : string) (a b : nat) : string :=
  string_of_list_ascii (firstn (b - a) (skipn a (list_ascii_of_string s))).

(** Little-endian unsigned reads; the callers below check the bounds
    before every read, as the source does. *)
Definition readUInt16LE (buf : list Z) (offset : nat) : Z :=
  nth offset buf 0 + 256 * nth (offset + 1) buf 0.

Definition readUInt32LE (buf : list Z) (offset : nat) : Z :=
  nth offset buf 0 + 256 * nth (offset + 1) buf 0
  + 65536 * nth (offset + 2) buf 0 + 16777216 * nth (offset + 3) buf 0.

(** reverse(SHA256(SHA256(bytes))) as lower-case hex *)
Definition doubleHashHex (bytes : list Z) : string :=
  toString_hex (rev (Sha256.digest (Sha256.digest bytes))).

(** [isHex]: the regular expression [^[a-fA-F0-9]+$]. *)
Definition isHexDigit (c : ascii) : bool :=
  match hexval c with Some _ => true | None => false end.

Definition isHex (str : string) : bool :=
  match str with
  | EmptyString => false
  | _ => forallb isHexDigit (list_ascii_of_string str)
  end.

(** ** Block header *)

Record BlockHeader := mkBlockHeader
  { hash : string;
    version : Z;
    prevHash : string;
    merkleRoot : string;
    timestamp : Z;
    bits : Z;
    nonce : Z }.

(** The two [throw]s of [parseBlockHeader]:
    'Invalid block header hex string' and
    'Invalid header length: expected 80 bytes, got <n>'. *)
Inductive HeaderError :=
| InvalidHeaderHex
| InvalidHeaderLength (got : nat).

Definition parseBlockHeader (headerHex : string) : result HeaderError BlockHeader :=
  if (String.length headerHex <? 160)%nat then Throw InvalidHeaderHex
  else
    let header := Buffer_from_hex headerHex in
    if negb (length header =? 80)%nat then Throw (InvalidHeaderLength (length header))
    else
      let version := readUInt32LE header 0 in
      let prevHash := toString_hex (rev (slice header 4 36)) in
      let merkleRoot := toString_hex (rev (slice header 36 68)) in
      let timestamp := readUInt32LE header 68 in
      let bits := readUInt32LE header 72 in
      let nonce := readUInt32LE header 76 in
      let hash1 := Sha256.digest header in
      let hash2 := Sha256.digest hash1 in
      let hash := toString_hex (rev hash2) in
      Ok (mkBlockHeader hash version prevHash merkleRoot timestamp bits nonce).

(** ** Difficulty

    The value is a JavaScript double; the model computes the exact
    quotient as a rational.  [>>>] and [&] act on the 32-bit image of
    their operand.  Where the double product overflows (possible from an
    exponent of 0x81 on) the source divides by Infinity, and a quotient
    that is no double is rounded; the rational shows neither. *)
Definition calculateDifficultyFromBits (bits : Z) : Q :=
  let bits32 := bits mod 4294967296 in
  let exponent := Z.shiftr bits32 24 in
  let mantissa := Z.land bits32 0x007fffff in
  let maxTarget := 0xffff0000 * 256 ^ (0x1d - 3) in
  let target :=
    if exponent <=? 3 then Z.shiftr mantissa (8 * (3 - exponent))
    else mantissa * 256 ^ (exponent - 3) in
  if target =? 0 then 0%Q else (inject_Z maxTarget / inject_Z target)%Q.

(** ** Varint and the transaction walk *)

(** The exception raised inside the [try] block of
    [parseTransactionHashesFromBlock]: 'Buffer overflow reading varint'. *)
Inductive WalkError := BufferOverflow.

Record Varint := mkVarint { vvalue : Z; vsize : nat }.

Definition readVarint (buffer : list Z) (offset : nat) : result WalkError Varint :=
  if (length buffer <=? offset)%nat then Throw BufferOverflow
  else
    let firstByte := nth offset buffer 0 in
    if firstByte <? 0xfd then Ok (mkVarint firstByte 1)
    else if firstByte =? 0xfd then
      if (length buffer <? offset + 3)%nat then Throw BufferOverflow
      else Ok (mkVarint (readUInt16LE buffer (offset + 1)) 3)
    else if firstByte =? 0xfe then
      if (length buffer <? offset + 5)%nat then Throw BufferOverflow
      else Ok (mkVarint (readUInt32LE buffer (offset + 1)) 5)
    else
      if (length buffer <? offset + 9)%nat then Throw BufferOverflow
      else Ok (mkVarint (readUInt32LE buffer (offset + 1)) 9).

(** [offset + n > buffer.length], with [n] a decoded length. *)
Definition past (buffer : list Z) (offset : nat) (n : Z) : bool :=
  Z.of_nat (length buffer) <? Z.of_nat offset + n.

(** The loop that skips the inputs of one transaction,
    [for (j = 0; j < count && offset < buffer.length; j++)].  It yields the
    offset at which the loop is left, by its condition or by a [break].
    Every iteration that recurses has moved [offset] forward, so [fuel]
    equal to the buffer length is never used up ([skipInputs_fuel]). *)
Fixpoint skipInputs (fuel : nat) (buffer : list Z) (count j : Z) (offset : nat)
    : result WalkError nat :=
  match fuel with
  | O => Ok offset
  | S fuel' =>
      if (j <? count) && (offset <? length buffer)%nat then
        if past buffer offset 36 then Ok offset
        else
          let offset := (offset + 36)%nat in
          match readVarint buffer offset with
          | Throw e => Throw e
          | Ok scriptLenResult =>
              let offset := (offset + vsize scriptLenResult)%nat in
              if past buffer offset (vvalue scriptLenResult) then Ok offset
              else
                let offset := (offset + Z.to_nat (vvalue scriptLenResult))%nat in
                if past buffer offset 4 then Ok offset
                else skipInputs fuel' buffer count (j + 1) (offset + 4)%nat
          end
      else Ok offset
  end.

(** The loop that skips the outputs of one transaction. *)
Fixpoint skipOutputs (fuel : nat) (buffer : list Z) (count j : Z) (offset : nat)
    : result WalkError nat :=
  match fuel with
  | O => Ok offset
  | S fuel' =>
      if (j <? count) && (offset <? length buffer)%nat then
        if past buffer offset 8 then Ok offset
        else
          let offset := (offset + 8)%nat in
          match readVarint buffer offset with
          | Throw e => Throw e
          | Ok scriptLenResult =>
              let offset := (offset + vsize scriptLenResult)%nat in
              if past buffer offset (vvalue scriptLenResult) then Ok offset
              else skipOutputs fuel' buffer count (j + 1)
                     (offset + Z.to_nat (vvalue scriptLenResult))%nat
          end
      else Ok offset
  end.

(** One pass of the body of the transaction loop, from [txStartOffset]:
    [Ok None] is a [break], [Ok (Some (offset, txid))] a completed pass. *)
Definition walkTransaction (blockHex : string) (buffer : list Z) (txStartOffset : nat)
    : result WalkError (option (nat * string)) :=
  let offset := txStartOffset in
  if past buffer offset 4 then Ok None
  else
    let offset := (offset + 4)%nat in
    match readVarint buffer offset with
    | Throw e => Throw e
    | Ok inputCountResult =>
        let offset := (offset + vsize inputCountResult)%nat in
        match skipInputs (length buffer) buffer (vvalue inputCountResult) 0 offset with
        | Throw e => Throw e
        | Ok offset =>
            if (length buffer <=? offset)%nat then Ok None
            else
              match readVarint buffer offset with
              | Throw e => Throw e
              | Ok outputCountResult =>
                  let offset := (offset + vsize outputCountResult)%nat in
                  match skipOutputs (length buffer) buffer (vvalue outputCountResult) 0 offset with
                  | Throw e => Throw e
                  | Ok offset =>
                      if past buffer offset 4 then Ok None
                      else
                        let offset := (offset + 4)%nat in
                        let txHex := substring blockHex (txStartOffset * 2) (offset * 2) in
                        let txBuffer := Buffer_from_hex txHex in
                        Ok (Some (offset, doubleHashHex txBuffer))
                  end
              end
        end
    end.

(** The transaction loop,
    [for (i = 0; i < txCount && offset < buffer.length; i++)], with
    [txHashes] in push order. *)
Fixpoint walkTransactions (fuel : nat) (blockHex : string) (buffer : list Z)
    (txCount i : Z) (offset : nat) (txHashes : list string)
    : result WalkError (list string) :=
  match fuel with
  | O => Ok txHashes
  | S fuel' =>
      if (i <? txCount) && (offset <? length buffer)%nat then
        match walkTransaction blockHex buffer offset with
        | Throw e => Throw e
        | Ok None => Ok txHashes
        | Ok (Some (offset, txid)) =>
            walkTransactions fuel' blockHex buffer txCount (i + 1) offset (txHashes ++ [txid])
        end
      else Ok txHashes
  end.

(** The [try] block of [parseTransactionHashesFromBlock]. *)
Definition tryParseTransactionHashes (blockHex : string) : result WalkError (list string) :=
  let blockBuffer := Buffer_from_hex blockHex in
  let offset := 80%nat in
  match readVarint blockBuffer offset with
  | Throw e => Throw e
  | Ok txCountResult =>
      let txCount := vvalue txCountResult in
      let offset := (offset + vsize txCountResult)%nat in
      walkTransactions (length blockBuffer) blockHex blockBuffer txCount 0 offset []
  end.

(** [parseTransactionHashesFromBlock]: the [catch] logs and returns []. *)
Definition parseTransactionHashesFromBlock (blockHex : string) : list string :=
  if (String.length blockHex <=? 160)%nat then []
  else
    match tryParseTransactionHashes blockHex with
    | Ok txHashes => txHashes
    | Throw _ => []
    end.

(** Sample data: the 80-byte header of Bitcoin's genesis block, and two
    transactions with one input and one output whose scripts are empty. *)
Definition genesisHeader : string :=
  "0100000000000000000000000000000000000000000000000000000000000000000000003ba3edfd7a7b12b27ac72c3e67768f617fc81bc3888a51323a9fb8aa4b1e5e4a29ab5f49ffff001d1dac2b7c".
Definition sampleTx1 : string :=
  "01000000010000000000000000000000000000000000000000000000000000000000000000ffffffff00ffffffff0100f2052a010000000000000000".
Definition sampleTx2 : string :=
  "0100000001aa000000000000000000000000000000000000000000000000000000000000000000000000ffffffff01e8030000000000000011000000".

(** ** Transaction count and hashed ranges *)

(** [parseTxCountFromBlockHex]: nothing in its [try] block can throw, the
    reads are guarded by the length tests. *)
Definition parseTxCountFromBlockHex (blockHex : string) : Z :=
  if (String.length blockHex <=? 160)%nat then 0
  else
    let blockBuffer := Buffer_from_hex blockHex in
    let offset := 80%nat in
    if (length blockBuffer <=? offset)%nat then 0
    else
      let firstByte := nth offset blockBuffer 0 in
      if firstByte <? 0xfd then firstByte
      else if firstByte =? 0xfd then
        if (offset + 3 <=? length blockBuffer)%nat
        then readUInt16LE blockBuffer (offset + 1) else 0
      else if firstByte =? 0xfe then
        if (offset + 5 <=? length blockBuffer)%nat
        then readUInt32LE blockBuffer (offset + 1) else 0
      else
        if (offset + 9 <=? length blockBuffer)%nat
        then readUInt32LE blockBuffer (offset + 1) else 0.

(** Hashes of consecutive byte ranges of [buffer], the first one starting
    at [start]. *)
Inductive hashedRanges (buffer : list Z) : nat -> list string -> Prop :=
| hashedRanges_nil start : hashedRanges buffer start []
| hashedRanges_cons start stop hashes :
    (start < stop)%nat -> (stop <= length buffer)%nat ->
    hashedRanges buffer stop hashes ->
    hashedRanges buffer start (doubleHashHex (slice buffer start stop) :: hashes).

End Codec.

(* ================================================================== *)
(** * RPC client (class ElectrumClient)                                *)
(* ================================================================== *)
Module Rpc.

#[local] Set Warnings "-register-all".

(** A value produced by [JSON.parse].  An object is its list of fields;
    a field that is absent reads as [undefined], which is [None] below.
    Numbers are integers here: request ids are, and a number that is not
    an integer is the id of no pending call. *)
Inductive jsval :=
| JNull
| JBool (b : bool)
| JNum (n : Z)
| JStr (s : string)
| JArr (items : list jsval)
| JObj (fields : list (string * jsval)).

Fixpoint assoc (name : string) (fields : list (string * jsval)) : option jsval :=
  match fields with
  | [] => None
  | (k, v) :: rest => if String.eqb k name then Some v else assoc name rest
  end.

(** [payload.name] for a payload that is not [null]. *)
Definition field (payload : jsval) (name : string) : option jsval :=
  match payload with
  | JObj fields => assoc name fields
  | _ => None
  end.

(** JavaScript truthiness. *)
Definition truthy (v : option jsval) : bool :=
  match v with
  | None | Some JNull => false
  | Some (JBool b) => b
  | Some (JNum n) => negb (n =? 0)
  | Some (JStr s) => negb (String.eqb s "")
  | Some (JArr _) | Some (JObj _) => true
  end.

(** State of a promise returned by [send]. *)
Inductive settlement :=
| Pending
| Resolved (value : option jsval)
| Rejected (reason : jsval).

(** The client.  [pending] maps a request id to the promise whose
    [resolve]/[reject] pair it stores; [subscriptions] maps a method name to
    the registered handler (handlers are named by a number); [promises]
    holds every promise created by [send]; [sent] is what went out on the
    socket; [delivered] lists the handler invocations in order;
    [parseErrors] counts the executions of the [catch] of [onMessage]. *)
Record client := mkClient
  { connected : bool;
    id : Z;
    pending : gmap Z nat;
    subscriptions : gmap string nat;
    promises : gmap nat settlement;
    nextPromise : nat;
    sent : list (Z * string * jsval);
    delivered : list (nat * jsval);
    parseErrors : nat }.

(** [resolve]/[reject] of a promise: the first settlement wins. *)
Definition settle (h : nat) (o : settlement) (ps : gmap nat settlement)
    : gmap nat settlement :=
  match ps !! h with
  | Some Pending => <[h := o]> ps
  | _ => ps
  end.

(** A client object before any [connect]. *)
Definition newClient : client :=
  mkClient false 0 ∅ ∅ ∅ 0 [] [] 0.

Definition startsWith (s prefix : string) : bool :=
  String.eqb (Codec.substring s 0 (String.length prefix)) prefix.

(** [connect(url)] up to the socket's [open] event. *)
Definition connect (c : client) (url : string) : result string client :=
  if negb (startsWith url "wss://") then Throw "Use wss:// Electrum endpoints to avoid MITM."%string
  else Ok (mkClient true 0 ∅ ∅ (promises c) (nextPromise c) (sent c) (delivered c)
             (parseErrors c)).

(** [reset()]: every pending call is rejected, both maps are cleared. *)
Definition reset (c : client) : client :=
  mkClient (connected c) (id c) ∅ ∅
    (map_fold (fun _ h ps => settle h (Rejected (JStr "Disconnected")) ps)
       (promises c) (pending c))
    (nextPromise c) (sent c) (delivered c) (parseErrors c).

(** The request id of [payload] when it is defined and in the pending map,
    with the promise stored there:
    [payload.id !== undefined && this.pending.has(payload.id)]. *)
Definition pendingFor (c : client) (payload : jsval) : option (Z * nat) :=
  match field payload "id" with
  | Some (JNum n) =>
      match pending c !! n with
      | Some h => Some (n, h)
      | None => None
      end
  | _ => None
  end.

(** [payload.error.message || 'Electrum error'] *)
Definition errorMessage (error : option jsval) : jsval :=
  match error with
  | Some e =>
      if truthy (field e "message")
      then match field e "message" with Some m => m | None => JStr "Electrum error" end
      else JStr "Electrum error"
  | None => JStr "Electrum error"
  end.

Definition logParseError (c : client) : client :=
  mkClient (connected c) (id c) (pending c) (subscriptions c) (promises c)
    (nextPromise c) (sent c) (delivered c) (S (parseErrors c)).

(** [onMessage]; [data] is [None] when [JSON.parse] throws. *)
Definition onMessage (c : client) (data : option jsval) : client :=
  match data with
  | None => logParseError c
  | Some JNull => logParseError c
  | Some payload =>
      match pendingFor c payload with
      | Some (n, h) =>
          let outcome :=
            if truthy (field payload "error")
            then Rejected (errorMessage (field payload "error"))
            else Resolved (field payload "result") in
          mkClient (connected c) (id c) (delete n (pending c)) (subscriptions c)
            (settle h outcome (promises c))
            (nextPromise c) (sent c) (delivered c) (parseErrors c)
      | None =>
          if truthy (field payload "method") && truthy (field payload "params") then
            match field payload "method", field payload "params" with
            | Some (JStr method), Some params =>
                match subscriptions c !! method with
                | Some handler =>
                    mkClient (connected c) (id c) (pending c) (subscriptions c)
                      (promises c) (nextPromise c) (sent c)
                      (delivered c ++ [(handler, params)]) (parseErrors c)
                | None => c
                end
            | _, _ => c
            end
          else c
      end
  end.

(** [send(method, params)]: the new state and the promise returned. *)
Definition send (c : client) (method : string) (params : jsval) : client * nat :=
  let h := nextPromise c in
  if negb (connected c) then
    (mkClient (connected c) (id c) (pending c) (subscriptions c)
       (<[h := Rejected (JStr "Not connected to Electrum server")]> (promises c))
       (S h) (sent c) (delivered c) (parseErrors c), h)
  else
    let id := id c + 1 in
    (mkClient (connected c) id (<[id := h]> (pending c)) (subscriptions c)
       (<[h := Pending]> (promises c))
       (S h) (sent c ++ [(id, method, params)]) (delivered c) (parseErrors c), h).

(** The 12 s timer armed by [send] for request [n] and promise [h]. *)
Definition onTimeout (c : client) (n : Z) (h : nat) : client :=
  match pending c !! n with
  | Some _ =>
      mkClient (connected c) (id c) (delete n (pending c)) (subscriptions c)
        (settle h (Rejected (JStr "Electrum request timed out")) (promises c))
        (nextPromise c) (sent c) (delivered c) (parseErrors c)
  | None => c
  end.

(** [subscribeScripthash(scripthash, handler)] *)
Definition subscribeScripthash (c : client) (scripthash : string) (handler : nat)
    : client * nat :=
  let c := mkClient (connected c) (id c) (pending c)
             (<["blockchain.scripthash.subscribe"%string := handler]> (subscriptions c))
             (promises c) (nextPromise c) (sent c) (delivered c) (parseErrors c) in
  send c "blockchain.scripthash.subscribe" (JArr [JStr scripthash]).

(** The client once [connect] has seen the socket open. *)
Definition connectedClient : client := mkClient true 0 ∅ ∅ ∅ 0 [] [] 0.

(** Sample traffic. *)
Definition response (n : Z) (result : jsval) : jsval :=
  JObj [("id"%string, JNum n); ("result"%string, result)].

(** A server message that carries an id and names a method. *)
Definition taggedNotification : jsval :=
  JObj [("id"%string, JNum 7); ("method"%string, JStr "blockchain.scripthash.subscribe");
        ("params"%string, JArr [JStr "5a1f"; JStr "c0de"])].

(** A notification under a method that [oneCallClient] has no handler for. *)
Definition headersNotification : jsval :=
  JObj [("method"%string, JStr "blockchain.headers.subscribe");
        ("params"%string, JArr [JStr "00e0ff3f"])].

(** A client with call 1 in flight (promise 0). *)
Definition oneCallClient : client :=
  mkClient true 1 {[1 := 0%nat]} {["blockchain.scripthash.subscribe"%string := 9%nat]}
    {[0%nat := Pending]} 1 [(1, "server.ping"%string, JArr [])] [] 0.

(** ** The client over time *)

(** The socket leaves the OPEN state ([disconnect()], or a 'close' event):
    [connected] turns false and [reset()] runs. *)
Definition onClose (c : client) : client :=
  reset (mkClient false (id c) (pending c) (subscriptions c) (promises c)
           (nextPromise c) (sent c) (delivered c) (parseErrors c)).

(** A client together with the 12 s timers that [send] has armed and that
    have not fired yet, each with the request id and the promise of its
    closure. *)
Record world := mkWorld { cl : client; timers : list (Z * nat) }.

(** What can happen to a client after [connect]: a call of [send] (through
    [call] or one of the named methods), a call of [subscribeScripthash], a
    'message' event, the firing of the armed timer at position [k], and the
    closing of the socket. *)
Inductive event :=
| Call (method : string) (params : jsval)
| Subscribe (scripthash : string) (handler : nat)
| Message (data : option jsval)
| Timer (k : nat)
| Closed.

(** [send] arms a timer only on its connected path. *)
Definition afterSend (w : world) (r : client * nat) : world :=
  if connected (cl w) then mkWorld (fst r) (timers w ++ [(id (fst r), snd r)])
  else mkWorld (fst r) (timers w).

Definition step (w : world) (e : event) : world :=
  match e with
  | Call method params => afterSend w (send (cl w) method params)
  | Subscribe scripthash handler => afterSend w (subscribeScripthash (cl w) scripthash handler)
  | Message data => mkWorld (onMessage (cl w) data) (timers w)
  | Timer k =>
      match nth_error (timers w) k with
      | Some (n, h) =>
          mkWorld (onTimeout (cl w) n h) (firstn k (timers w) ++ skipn (S k) (timers w))
      | None => w
      end
  | Closed => mkWorld (onClose (cl w)) (timers w)
  end.

Definition run (events : list event) (w : world) : world := fold_left step events w.

(** A notification of the server for a subscribed script hash. *)
Definition statusNotification (scripthash status : string) : jsval :=
  JObj [("jsonrpc"%string, JStr "2.0");
        ("method"%string, JStr "blockchain.scripthash.subscribe");
        ("params"%string, JArr [JStr scripthash; JStr status])].

Definition sampleEvents : list event :=
  [Call "server.version" (JArr [JStr "cykuza"; JStr "1.4"]);
   Subscribe "5a1f" 9;
   Message (Some (response 1 (JArr [JStr "ElectrumX"; JStr "1.4"])));
   Call "server.ping" (JArr []);
   Timer 1].

(** What every reachable state satisfies. *)
Definition consistent (w : world) : Prop :=
  0 <= id (cl w)
  /\ (forall n h, pending (cl w) !! n = Some h ->
        promises (cl w) !! h = Some Pending /\ In (n, h) (timers w))
  /\ (forall n h, In (n, h) (timers w) -> 0 < n <= id (cl w) /\ (h < nextPromise (cl w))%nat)
  /\ List.NoDup (map fst (timers w))
  /\ List.NoDup (map snd (timers w)).

End Rpc.

(* ================================================================== *)
(** * Unlock lockout (src/context/WalletContext.tsx)                   *)
(* ================================================================== *)
Module Lockout.

Definition MAX_UNLOCK_ATTEMPTS : Z := 5.
Definition LOCKOUT_DURATION : Z := 15 * 60 * 1000.

(** The part of the provider's state the lockout reads and writes: the
    React state [unlockAttempts], [lockoutUntil] and [isLocked], the two
    sessionStorage entries, and a log of the passwords handed to
    [verifyPassword]. *)
Record session := mkSession
  { unlockAttempts : Z;
    lockoutUntil : option Z;
    isLocked : bool;
    storedAttempts : option Z;
    storedLockout : option Z;
    verified : list string }.

(** What one call of [unlockWallet] finds around it: the clock at the
    lockout check, the clock when a failure is recorded, whether both
    sessionStorage blobs exist, whether the stored hash parses, and whether
    decryption and key restoration succeed once the password is accepted. *)
Record env := mkEnv
  { now : Z;
    nowAtFailure : Z;
    hasWalletData : bool;
    hashParses : bool;
    restoreSucceeds : bool }.

(** How a call of [unlockWallet] ends: it returns, or it throws
    'Too many failed attempts. Please wait <n> minutes before trying again.',
    'No encrypted wallet data found', 'Corrupted wallet data',
    'Too many failed attempts. Please wait 15 minutes before trying again.',
    'Invalid password. <n> attempts remaining.', or an error of the
    decryption and key restoration that follow an accepted password. *)
Inductive outcome :=
| Unlocked
| TooManyAttemptsWait (remainingMinutes : Z)
| NoEncryptedData
| CorruptedWalletData
| TooManyAttempts
| InvalidPassword (remaining : Z)
| RestoreFailed.

(** [lockoutUntil && Date.now() < lockoutUntil] *)
Definition lockedOut (s : session) (t : Z) : bool :=
  match lockoutUntil s with
  | Some until => negb (until =? 0) && (t <? until)
  | None => false
  end.

(** [Math.ceil(ms / (60 * 1000))] *)
Definition ceilMinutes (ms : Z) : Z := (ms + 59999) / 60000.

Definition unlockWallet (verifyPassword : string -> bool) (e : env)
    (password : string) (s : session) : session * outcome :=
  if lockedOut s (now e) then
    (s, TooManyAttemptsWait
          (ceilMinutes (match lockoutUntil s with Some u => u - now e | None => 0 end)))
  else if negb (hasWalletData e) then (s, NoEncryptedData)
  else if negb (hashParses e) then (s, CorruptedWalletData)
  else
    let s := mkSession (unlockAttempts s) (lockoutUntil s) (isLocked s)
               (storedAttempts s) (storedLockout s) (verified s ++ [password]) in
    if negb (verifyPassword password) then
      let newAttempts := unlockAttempts s + 1 in
      if MAX_UNLOCK_ATTEMPTS <=? newAttempts then
        let lockoutTime := nowAtFailure e + LOCKOUT_DURATION in
        (mkSession newAttempts (Some lockoutTime) (isLocked s)
           (Some newAttempts) (Some lockoutTime) (verified s), TooManyAttempts)
      else
        (mkSession newAttempts (lockoutUntil s) (isLocked s)
           (Some newAttempts) (storedLockout s) (verified s),
         InvalidPassword (MAX_UNLOCK_ATTEMPTS - newAttempts))
    else
      let s := mkSession 0 None (isLocked s) None None (verified s) in
      if restoreSucceeds e then
        (mkSession 0 None false None None (verified s), Unlocked)
      else (s, RestoreFailed).

(** The mount effect that restores the counters from sessionStorage
    (the provider's state is the initial one when it runs). *)
Definition restoreLockout (t : Z) (storedAttempts storedLockout : option Z)
    (locked : bool) : session :=
  let attempts := match storedAttempts with Some a => a | None => 0 end in
  match storedLockout with
  | Some lockoutTime =>
      if t <? lockoutTime
      then mkSession attempts (Some lockoutTime) locked storedAttempts storedLockout []
      else mkSession 0 None locked None None []
  | None => mkSession attempts None locked storedAttempts None []
  end.

(** Calls made one after the other, each in its own environment. *)
Fixpoint unlockAll (verifyPassword : string -> bool) (calls : list (env * string))
    (s : session) : session * list outcome :=
  match calls with
  | [] => (s, [])
  | (e, password) :: rest =>
      let '(s1, o) := unlockWallet verifyPassword e password s in
      let '(s2, os) := unlockAll verifyPassword rest s1 in
      (s2, o :: os)
  end.

(** Sample run: the stored password is "correct horse"; every call finds
    the wallet data in place.  Five wrong passwords, one per second, and the
    session they leave behind. *)
Definition sampleVerify (password : string) : bool := String.eqb password "correct horse".
Definition freshSession : session := mkSession 0 None true None None [].
Definition callAt (t : Z) : env := mkEnv t t true true true.
Definition fiveWrong : list (env * string) :=
  [(callAt 1000, "a"); (callAt 2000, "b"); (callAt 3000, "c"); (callAt 4000, "d");
   (callAt 5000, "e")]%string.
Definition lockedSession : session :=
  mkSession 5 (Some 905000) true (Some 5) (Some 905000) ["a"; "b"; "c"; "d"; "e"]%string.

(** ** Runs of calls in clock order *)



(** ** Calls that overlap *)

(** [unlockWallet] is an async function that React creates anew when
    [unlockAttempts] or [lockoutUntil] has changed (its dependency list,
    line 971).  A call reads these two as they were in the render that
    created the function it was made on.  It runs up to
    [await verifyPassword] when it is made and the rest when the
    verification has settled; other calls can be made in between. *)
Record render := mkRender { seenAttempts : Z; seenLockout : option Z }.

Definition rendered (s : session) : render := mkRender (unlockAttempts s) (lockoutUntil s).

(** A call that waits for [verifyPassword]. *)
Record waiting := mkWaiting { caller : render; guess : string }.

(** The call up to the [await], lines 829 to 862. *)
Definition begin (r : render) (e : env) (password : string) (s : session)
    : session * (outcome + waiting) :=
  let locked :=
    match seenLockout r with
    | Some until => negb (until =? 0) && (now e <? until)
    | None => false
    end in
  if locked then
    (s, inl (TooManyAttemptsWait
               (ceilMinutes (match seenLockout r with Some u => u - now e | None => 0 end))))
  else if negb (hasWalletData e) then (s, inl NoEncryptedData)
  else if negb (hashParses e) then (s, inl CorruptedWalletData)
  else
    (mkSession (unlockAttempts s) (lockoutUntil s) (isLocked s)
       (storedAttempts s) (storedLockout s) (verified s ++ [password]),
     inr (mkWaiting r password)).

(** The call after the [await], lines 864 to 970. *)
Definition resume (verifyPassword : string -> bool) (e : env) (w : waiting) (s : session)
    : session * outcome :=
  if negb (verifyPassword (guess w)) then
    let newAttempts := seenAttempts (caller w) + 1 in
    if MAX_UNLOCK_ATTEMPTS <=? newAttempts then
      let lockoutTime := nowAtFailure e + LOCKOUT_DURATION in
      (mkSession newAttempts (Some lockoutTime) (isLocked s)
         (Some newAttempts) (Some lockoutTime) (verified s), TooManyAttempts)
    else
      (mkSession newAttempts (lockoutUntil s) (isLocked s)
         (Some newAttempts) (storedLockout s) (verified s),
       InvalidPassword (MAX_UNLOCK_ATTEMPTS - newAttempts))
  else
    let s := mkSession 0 None (isLocked s) None None (verified s) in
    if restoreSucceeds e then
      (mkSession 0 None false None None (verified s), Unlocked)
    else (s, RestoreFailed).




End Lockout.

(* ================================================================== *)
(** * Crypto vault (src/lib/wallet/password.ts)                        *)
(* ================================================================== *)
Module Vault.

(** A JavaScript string is a sequence of UTF-16 code units. *)
Definition jsstring := list Z.

Definition isHigh (u : Z) : bool := (0xD800 <=? u) && (u <=? 0xDBFF).
Definition isLow (u : Z) : bool := (0xDC00 <=? u) && (u <=? 0xDFFF).

(** ** [TextEncoder.encode]: code units to scalar values (an unpaired
    surrogate becomes U+FFFD), then UTF-8. *)
Fixpoint scalars (s : jsstring) : list Z :=
  match s with
  | [] => []
  | u :: rest =>
      if isHigh u then
        match rest with
        | l :: rest' =>
            if isLow l
            then (0x10000 + (u - 0xD800) * 0x400 + (l - 0xDC00)) :: scalars rest'
            else 0xFFFD :: scalars rest
        | [] => [0xFFFD]
        end
      else if isLow u then 0xFFFD :: scalars rest
      else u :: scalars rest
  end.

Definition utf8_encode (cp : Z) : list Z :=
  if cp <? 0x80 then [cp]
  else if cp <? 0x800 then [0xC0 + cp / 64; 0x80 + cp mod 64]
  else if cp <? 0x10000 then
    [0xE0 + cp / 4096; 0x80 + (cp / 64) mod 64; 0x80 + cp mod 64]
  else
    [0xF0 + cp / 262144; 0x80 + (cp / 4096) mod 64; 0x80 + (cp / 64) mod 64;
     0x80 + cp mod 64].

Definition TextEncoder_encode (s : jsstring) : list Z :=
  flat_map utf8_encode (scalars s).

(** ** [TextDecoder.decode] (utf-8, not fatal, BOM not ignored): the
    decoder of the Encoding standard.  [lead b k] handles byte [b] when no
    sequence is open; [k] decodes what follows [b]. *)
Definition lead (b : Z) (k : Z -> Z -> Z -> Z -> Z -> list Z) : list Z :=
  if b <=? 0x7F then b :: k 0 0 0 0x80 0xBF
  else if (0xC2 <=? b) && (b <=? 0xDF) then k (b - 0xC0) 1 0 0x80 0xBF
  else if (0xE0 <=? b) && (b <=? 0xEF) then
    k (b - 0xE0) 2 0 (if b =? 0xE0 then 0xA0 else 0x80) (if b =? 0xED then 0x9F else 0xBF)
  else if (0xF0 <=? b) && (b <=? 0xF4) then
    k (b - 0xF0) 3 0 (if b =? 0xF0 then 0x90 else 0x80) (if b =? 0xF4 then 0x8F else 0xBF)
  else 0xFFFD :: k 0 0 0 0x80 0xBF.

Fixpoint utf8_decode (bytes : list Z) (cp needed seen lower upper : Z) : list Z :=
  match bytes with
  | [] => if needed =? 0 then [] else [0xFFFD]
  | b :: rest =>
      if needed =? 0 then lead b (utf8_decode rest)
      else if (b <? lower) || (upper <? b) then 0xFFFD :: lead b (utf8_decode rest)
      else
        let cp := cp * 64 + (b - 0x80) in
        if seen + 1 =? needed then cp :: utf8_decode rest 0 0 0 0x80 0xBF
        else utf8_decode rest cp needed (seen + 1) 0x80 0xBF
  end.

(** A leading byte order mark is dropped. *)
Definition stripBOM (bytes : list Z) : list Z :=
  match bytes with
  | b1 :: b2 :: b3 :: rest =>
      if (b1 =? 0xEF) && (b2 =? 0xBB) && (b3 =? 0xBF) then rest else bytes
  | _ => bytes
  end.

Definition code_units (cp : Z) : list Z :=
  if cp <? 0x10000 then [cp]
  else [0xD800 + (cp - 0x10000) / 0x400; 0xDC00 + (cp - 0x10000) mod 0x400].

Definition TextDecoder_decode (bytes : list Z) : jsstring :=
  flat_map code_units (utf8_decode (stripBOM bytes) 0 0 0 0x80 0xBF).

(** ** [btoa] and [atob] *)

Definition b64char (n : Z) : ascii :=
  ascii_of_nat (Z.to_nat
    (if n <? 26 then 65 + n
     else if n <? 52 then 71 + n
     else if n <? 62 then n - 4
     else if n =? 62 then 43 else 47)).

Definition b64val (c : ascii) : option Z :=
  let n := Z.of_nat (nat_of_ascii c) in
  if (65 <=? n) && (n <=? 90) then Some (n - 65)
  else if (97 <=? n) && (n <=? 122) then Some (n - 71)
  else if (48 <=? n) && (n <=? 57) then Some (n + 4)
  else if n =? 43 then Some 62
  else if n =? 47 then Some 63
  else None.

Definition pad64 : ascii := "="%char.

(** [btoa(String.fromCharCode(...bytes))] *)
Fixpoint btoa (bytes : list Z) : list ascii :=
  match bytes with
  | [] => []
  | [a] => [b64char (a / 4); b64char (a mod 4 * 16); pad64; pad64]
  | [a; b] =>
      [b64char (a / 4); b64char (a mod 4 * 16 + b / 16); b64char (b mod 16 * 4); pad64]
  | a :: b :: c :: rest =>
      b64char (a / 4) :: b64char (a mod 4 * 16 + b / 16)
      :: b64char (b mod 16 * 4 + c / 64) :: b64char (c mod 64) :: btoa rest
  end.

Definition isSpace (c : ascii) : bool :=
  let n := nat_of_ascii c in
  ((n =? 9) || (n =? 10) || (n =? 12) || (n =? 13) || (n =? 32))%nat.

(** Removal of one or two trailing '=' when the length is a multiple of 4. *)
Definition stripPadding (cs : list ascii) : list ascii :=
  if (length cs mod 4 =? 0)%nat then
    match rev cs with
    | c1 :: c2 :: r =>
        if Ascii.eqb c1 pad64 then
          if Ascii.eqb c2 pad64 then rev r else rev (c2 :: r)
        else cs
    | [c1] => if Ascii.eqb c1 pad64 then [] else cs
    | [] => cs
    end
  else cs.

Fixpoint sextets (cs : list ascii) : option (list Z) :=
  match cs with
  | [] => Some []
  | c :: rest =>
      match b64val c, sextets rest with
      | Some v, Some vs => Some (v :: vs)
      | _, _ => None
      end
  end.

Fixpoint octets (vs : list Z) : list Z :=
  match vs with
  | a :: b :: c :: d :: rest =>
      (a * 4 + b / 16) :: (b mod 16 * 16 + c / 4) :: (c mod 4 * 64 + d) :: octets rest
  | [a; b; c] => [a * 4 + b / 16; b mod 16 * 16 + c / 4]
  | [a; b] => [a * 4 + b / 16]
  | _ => []
  end.

(** [Uint8Array.from(atob(s), c => c.charCodeAt(0))]; [None] is the
    InvalidCharacterError of [atob]. *)
Definition atob (s : list ascii) : option (list Z) :=
  let cs := stripPadding (List.filter (fun c => negb (isSpace c)) s) in
  if (length cs mod 4 =? 1)%nat then None
  else match sextets cs with
       | Some vs => Some (octets vs)
       | None => None
       end.

(** ** The Web Crypto primitives the vault calls. *)
Class WebCrypto := mkWebCrypto
  { CryptoKey : Type;
    (** [importKey('raw', password)] then [deriveKey] with PBKDF2/SHA-256 *)
    pbkdf2 : list Z -> list Z -> Z -> Z -> CryptoKey;
    (** [encrypt({name: 'AES-GCM', iv}, key, data)]: ciphertext then tag *)
    aesGcmEncrypt : CryptoKey -> list Z -> list Z -> list Z;
    (** [decrypt({name: 'AES-GCM', iv}, key, data)]; [None] is an OperationError *)
    aesGcmDecrypt : CryptoKey -> list Z -> list Z -> option (list Z);
    (** [exportKey('raw', key)] *)
    exportKey : CryptoKey -> list Z }.

Definition PBKDF2_ITERATIONS : Z := 100000.
Definition KEY_LENGTH : Z := 256.
Definition SALT_LENGTH : nat := 16.
Definition IV_LENGTH : nat := 12.

Record EncryptedData := mkEncryptedData
  { encrypted : list ascii;
    salt : list ascii;
    iv : list ascii;
    tag : list ascii }.

(** Character codes of a text ([charCodeAt] at every index). *)
Definition codes (text : list ascii) : jsstring :=
  map (fun c => Z.of_nat (nat_of_ascii c)) text.

(** The loop of [constantTimeEquals]:
    [result |= a.charCodeAt(i) ^ b.charCodeAt(i)]. *)
Fixpoint xorAll (a b : jsstring) (result : Z) : Z :=
  match a, b with
  | x :: a', y :: b' => xorAll a' b' (Z.lor result (Z.lxor x y))
  | _, _ => result
  end.

Definition constantTimeEquals (a b : jsstring) : bool :=
  if negb (length a =? length b)%nat then false
  else xorAll a b 0 =? 0.

Section WithCrypto.
Context {W : WebCrypto}.

Definition deriveKey (password : jsstring) (salt : list Z) : CryptoKey :=
  pbkdf2 (TextEncoder_encode password) salt PBKDF2_ITERATIONS KEY_LENGTH.

(** [encryptWithPassword]; [salt] and [iv] are the values drawn by
    [crypto.getRandomValues]. *)
Definition encryptWithPassword (data password : jsstring) (salt iv : list Z)
    : EncryptedData :=
  let key := deriveKey password salt in
  let encryptedArray := aesGcmEncrypt key iv (TextEncoder_encode data) in
  let tag := skipn (length encryptedArray - 16) encryptedArray in
  let ciphertext := firstn (length encryptedArray - 16) encryptedArray in
  mkEncryptedData (btoa ciphertext) (btoa salt) (btoa iv) (btoa tag).

Definition InvalidPasswordOrCorruptData : string := "Invalid password or corrupted data".

Definition decryptWithPassword (encryptedData : EncryptedData) (password : jsstring)
    : result string jsstring :=
  match atob (salt encryptedData), atob (iv encryptedData),
        atob (encrypted encryptedData), atob (tag encryptedData) with
  | Some salt, Some iv, Some ciphertext, Some tag =>
      let encrypted := ciphertext ++ tag in
      let key := deriveKey password salt in
      match aesGcmDecrypt key iv encrypted with
      | Some decrypted => Ok (TextDecoder_decode decrypted)
      | None => Throw InvalidPasswordOrCorruptData
      end
  | _, _, _, _ => Throw InvalidPasswordOrCorruptData
  end.

(** [hashPassword(password, salt)] with the salt given: the pair
    [(hash, salt)], both base64. *)
Definition hashPassword (password : jsstring) (usedSalt : list Z) : list ascii * list ascii :=
  (btoa (exportKey (deriveKey password usedSalt)), btoa usedSalt).

(** [verifyPassword]; the [catch] (a failing [atob]) waits and returns false. *)
Definition verifyPassword (password : jsstring) (storedHash storedSalt : list ascii) : bool :=
  match atob storedSalt with
  | Some salt => constantTimeEquals (codes (fst (hashPassword password salt))) (codes storedHash)
  | None => false
  end.

End WithCrypto.

(** ** Vocabulary of the statements *)

Definition isByte (b : Z) : Prop := 0 <= b < 256.
Definition isSextet (v : Z) : Prop := 0 <= v < 64.

(** A Unicode scalar value. *)
Definition isScalar (cp : Z) : Prop := 0 <= cp < 0xD800 \/ 0xE000 <= cp < 0x110000.

(** A string of 16-bit code units in which every surrogate is paired. *)
Fixpoint wellFormed (s : jsstring) : bool :=
  match s with
  | [] => true
  | u :: rest =>
      if isHigh u then
        match rest with
        | l :: rest' => isLow l && wellFormed rest'
        | [] => false
        end
      else negb (isLow u) && (0 <=? u) && (u <? 0x10000) && wellFormed rest
  end.

(** Whether the string begins with U+FEFF. *)
Definition startsWithBOM (s : jsstring) : bool :=
  match s with
  | u :: _ => u =? 0xFEFF
  | [] => false
  end.

(** Characters of a [string] as code units. *)
Definition ofString (s : string) : jsstring :=
  map (fun c => Z.of_nat (nat_of_ascii c)) (list_ascii_of_string s).

(** What the vault relies on from AES-GCM with a 12-byte IV: decryption
    under the same key and IV returns the plaintext, and the output of
    encryption is a byte array. *)
Class AeadLaws (W : WebCrypto) : Prop := mkAeadLaws
  { decrypt_encrypt : forall key iv data,
      length iv = IV_LENGTH -> Forall isByte iv -> Forall isByte data ->
      aesGcmDecrypt key iv (aesGcmEncrypt key iv data) = Some data;
    encrypt_bytes : forall key iv data,
      Forall isByte iv -> Forall isByte data -> Forall isByte (aesGcmEncrypt key iv data) }.

(** A stand-in cipher that meets [AeadLaws], to run the vault on sample
    data: the key is the password and salt, the ciphertext is the
    complement of the data, the tag is 16 times the data length modulo 256. *)
Definition standIn : WebCrypto :=
  {| CryptoKey := list Z;
     pbkdf2 := fun password salt _ _ => password ++ salt;
     aesGcmEncrypt := fun _ _ data =>
       map (Z.sub 255) data ++ repeat (Z.of_nat (length data) mod 256) 16;
     aesGcmDecrypt := fun _ _ data =>
       let n := (length data - 16)%nat in
       if (16 <=? length data)%nat
          && forallb (Z.eqb (Z.of_nat n mod 256)) (skipn n data)
       then Some (map (Z.sub 255) (firstn n data))
       else None;
     exportKey := fun key => key |}.

Definition sampleSalt : list Z := [1; 2; 3; 4; 5; 6; 7; 8; 9; 10; 11; 12; 13; 14; 15; 16].
Definition sampleIV : list Z := [21; 22; 23; 24; 25; 26; 27; 28; 29; 30; 31; 32].
Definition samplePassword : jsstring := ofString "correct horse battery staple".
Definition sampleMnemonic : jsstring :=
  ofString "legal winner thank year wave sausage worth useful legal winner thank yellow".

End Vault.

(* ================================================================== *)
(** * Block parser (src/lib/blockParser.ts)                            *)
(* ================================================================== *)
Module BlockParser.
Import Rpc.

(** The test applied to what 'blockchain.transaction.id_from_pos' resolves
    with: [typeof txHash === 'string' && txHash.length === 64 &&
    /^[a-fA-F0-9]{64}$/.test(txHash)]. *)
Definition isTxHash (txHash : jsval) : bool :=
  match txHash with
  | JStr s =>
      (String.length s =? 64)%nat && forallb Codec.isHexDigit (list_ascii_of_string s)
  | _ => false
  end.

(** One entry of [batchResults]: the call for position [txPos] resolved
    with a transaction hash; a rejected call gives [false].  [idFromPos] is
    the outcome of [callElectrumX] for each position of the block. *)
Definition found (idFromPos : Z -> result string jsval) (txPos : Z) : bool :=
  match idFromPos txPos with
  | Ok txHash => isTxHash txHash
  | Throw _ => false
  end.

Definition maxAttempts : Z := 10000.
Definition batchSize : Z := 50.

(** [batchResults.filter(Boolean).length] for the batch that starts at [startPos]. *)
Definition foundCount (idFromPos : Z -> result string jsval) (startPos : Z) : Z :=
  Z.of_nat (length (List.filter (fun b : bool => b)
    (map (fun i => found idFromPos (startPos + Z.of_nat i)) (seq 0 (Z.to_nat batchSize))))).

(** The loop [for (startPos = 0; startPos < maxAttempts; startPos += batchSize)];
    it runs at most [maxAttempts / batchSize] times. *)
Fixpoint countLoop (fuel : nat) (idFromPos : Z -> result string jsval)
    (startPos count : Z) : Z :=
  match fuel with
  | O => count
  | S fuel' =>
      if startPos <? maxAttempts then
        let foundCount := foundCount idFromPos startPos in
        if foundCount =? 0 then count
        else
          let count := count + foundCount in
          if foundCount <? batchSize then count
          else countLoop fuel' idFromPos (startPos + batchSize) count
      else count
  end.

Definition countTransactionsInBlock (idFromPos : Z -> result string jsval) : Z :=
  countLoop (Z.to_nat (maxAttempts / batchSize)) idFromPos 0 0.

(** A server that knows the transactions at positions 0 to [n - 1]. *)
Definition blockOf (n : Z) (txPos : Z) : result string jsval :=
  if (0 <=? txPos) && (txPos <? n)
  then Ok (JStr "12d9670a57d494ef1c68731357868862b4ed5871b71942e5b607d8e62e2412eb")
  else Throw "no tx at position"%string.

End BlockParser.

(* ================================================================== *)
(** * Rate limiter of the API routes (rate-limit.ts)                   *)
(* ================================================================== *)
Module RateLimit.

(** The two headers [rateLimit] reads from the request:
    'x-forwarded-for' and 'x-real-ip' ([None] when the header is absent).
    A header value is a byte string. *)
Record request := mkRequest { forwardedFor : option string; realIp : option string }.

(** The characters that [trim] removes, among the 256 a header can hold. *)
Definition isWhiteSpace (c : ascii) : bool :=
  let n := nat_of_ascii c in
  ((n =? 9) || (n =? 10) || (n =? 11) || (n =? 12) || (n =? 13) || (n =? 32) || (n =? 160))%nat.

Fixpoint trimStart (cs : list ascii) : list ascii :=
  match cs with
  | c :: rest => if isWhiteSpace c then trimStart rest else cs
  | [] => []
  end.

Definition trim (s : string) : string :=
  string_of_list_ascii (rev (trimStart (rev (trimStart (list_ascii_of_string s))))).

(** [s.split(',')[0]] *)
Fixpoint firstPiece (s : string) : string :=
  match s with
  | EmptyString => EmptyString
  | String c rest => if Ascii.eqb c ","%char then EmptyString else String c (firstPiece rest)
  end.

(** The address the request is counted under. *)
Definition clientIp (req : request) : string :=
  let other :=
    match realIp req with
    | Some r => if String.eqb r "" then "unknown"%string else r
    | None => "unknown"%string
    end in
  match forwardedFor req with
  | Some f => if String.eqb f "" then other else trim (firstPiece f)
  | None => other
  end.

(** A number of the limiter: an integer, or the [NaN] that [parseInt]
    returns where it finds no digit.  Integers are kept exact; JavaScript
    rounds those of 2^53 and more. *)
Inductive number :=
| NaN
| Num (z : Z).

(** [a > b], [a >= b], [a + b], [a - b], [Math.max(a, b)] and
    [Math.min(a, b)]: a comparison with [NaN] is false, an operation on
    [NaN] gives [NaN]. *)
Definition gt (a b : number) : bool :=
  match a, b with Num x, Num y => y <? x | _, _ => false end.
Definition ge (a b : number) : bool :=
  match a, b with Num x, Num y => y <=? x | _, _ => false end.
Definition plus (a b : number) : number :=
  match a, b with Num x, Num y => Num (x + y) | _, _ => NaN end.
Definition minus (a b : number) : number :=
  match a, b with Num x, Num y => Num (x - y) | _, _ => NaN end.
Definition Math_max (a b : number) : number :=
  match a, b with Num x, Num y => Num (Z.max x y) | _, _ => NaN end.
Definition Math_min (a b : number) : number :=
  match a, b with Num x, Num y => Num (Z.min x y) | _, _ => NaN end.

(** The value of a decimal digit. *)
Definition digit (c : ascii) : option Z :=
  let n := nat_of_ascii c in
  if ((48 <=? n) && (n <=? 57))%nat then Some (Z.of_nat n - 48) else None.

(** The integer written by the longest prefix of decimal digits of [cs],
    after the digits whose value is [acc]; [None] when there is no digit. *)
Fixpoint digits (cs : list ascii) (acc : option Z) : option Z :=
  match cs with
  | c :: rest =>
      match digit c with
      | Some d => digits rest (Some (match acc with Some n => 10 * n + d | None => d end))
      | None => acc
      end
  | [] => acc
  end.

(** [parseInt(s, 10)]: leading white space is skipped, a sign is read,
    then the digits up to the first character that is none. *)
Definition parseInt (s : string) : number :=
  let cs := trimStart (list_ascii_of_string s) in
  let '(negative, cs) :=
    match cs with
    | c :: rest =>
        if Ascii.eqb c "-"%char then (true, rest)
        else if Ascii.eqb c "+"%char then (false, rest)
        else (false, cs)
    | [] => (false, cs)
    end in
  match digits cs None with
  | Some n => Num (if negative then - n else n)
  | None => NaN
  end.

(** The value stored for an address: [{ count, resetTime }]. *)
Record record := mkRecord { count : Z; resetTime : number }.

(** What [rateLimit] returns: [{ success, remaining }]. *)
Record verdict := mkVerdict { success : bool; remaining : number }.

(** What the function reads from [process.env]: whether NODE_ENV is
    'development', and the variables RATE_LIMIT_WINDOW and
    RATE_LIMIT_REQUESTS ([None] when a variable is not set). *)
Record environment := mkEnvironment
  { development : bool;
    RATE_LIMIT_WINDOW : option string;
    RATE_LIMIT_REQUESTS : option string }.

(** [value || fallback] *)
Definition orElse (value : option string) (fallback : string) : string :=
  match value with
  | Some s => if String.eqb s "" then fallback else s
  | None => fallback
  end.

Definition windowMs (env : environment) : number :=
  Math_max (Num 1000) (parseInt (orElse (RATE_LIMIT_WINDOW env) "60000")).

Definition maxRequests (env : environment) : number :=
  Math_max (Num 1) (Math_min (Num 1000) (parseInt (orElse (RATE_LIMIT_REQUESTS env) "60"))).

(** [rateLimit(req)] at time [now] ([Date.now()]), on the module's map
    [requestCounts]; it returns the map as it leaves it and its result. *)
Definition rateLimit (env : environment) (req : request) (now : Z)
    (requestCounts : gmap string record) : gmap string record * verdict :=
  if development env then (requestCounts, mkVerdict true (Num 999))
  else
    let ip := clientIp req in
    let opened :=
      (<[ip := mkRecord 1 (plus (Num now) (windowMs env))]> requestCounts,
       mkVerdict true (minus (maxRequests env) (Num 1))) in
    match requestCounts !! ip with
    | None => opened
    | Some record =>
        if gt (Num now) (resetTime record) then opened
        else if ge (Num (count record)) (maxRequests env)
        then (requestCounts, mkVerdict false (Num 0))
        else
          (<[ip := mkRecord (count record + 1) (resetTime record)]> requestCounts,
           mkVerdict true (minus (maxRequests env) (Num (count record + 1))))
    end.

(** The cleanup that [setInterval] runs every minute. *)
Definition cleanup (now : Z) (requestCounts : gmap string record) : gmap string record :=
  filter (fun entry => negb (gt (Num now) (resetTime (snd entry)))) requestCounts.

(** Requests served one after the other, each at its time.  The result
    lists, for every request, whether it passed. *)
Fixpoint serve (env : environment) (requests : list (request * Z))
    (requestCounts : gmap string record) : gmap string record * list bool :=
  match requests with
  | [] => (requestCounts, [])
  | (req, now) :: rest =>
      let '(requestCounts, v) := rateLimit env req now requestCounts in
      let '(requestCounts, vs) := serve env rest requestCounts in
      (requestCounts, success v :: vs)
  end.

(** Number of requests of address [ip] among [requests] that passed. *)
Fixpoint passed (ip : string) (requests : list (request * Z)) (verdicts : list bool) : Z :=
  match requests, verdicts with
  | (req, _) :: requests', v :: verdicts' =>
      (if String.eqb (clientIp req) ip && v then 1 else 0) + passed ip requests' verdicts'
  | _, _ => 0
  end.

(** Number of requests of address [ip] among [requests]. *)
Definition sentBy (ip : string) (requests : list (request * Z)) : Z :=
  Z.of_nat (length (List.filter (fun r => String.eqb (clientIp (fst r)) ip) requests)).

(** Sample traffic: at most 3 requests in a window of one minute; a
    client behind a proxy and another one. *)
Definition production : environment := mkEnvironment false None (Some "3"%string).
Definition viaProxy : request := mkRequest (Some "10.0.0.7, 172.16.0.1") None.
Definition direct : request := mkRequest None (Some "10.0.0.9").
Definition sampleTraffic : list (request * Z) :=
  [(viaProxy, 2000); (direct, 2500); (viaProxy, 3000); (viaProxy, 4000); (viaProxy, 61000)].

(** A deployment whose RATE_LIMIT_REQUESTS is a word. *)
Definition misconfigured : environment := mkEnvironment false None (Some "sixty"%string).

End RateLimit.

(* ================================================================== *)
(** * Creation and import wizard (src/context/WalletContext.tsx)       *)
(* ================================================================== *)
Module Wizard.

(** [WalletStage] *)
Inductive WalletStage :=
| Idle | ImportMethod | PasswordCreation | MnemonicDisplay | MnemonicInput
| PrivateKeyImport | Created | Ready | Receive | Send | Error | ServerConfig
| PrivateKeyView | MnemonicView.

Inductive ImportType := Mnemonic | PrivateKey.

(** The React state the wizard callbacks read and set.  A callback sees
    the state of the render that created it and its [set...] calls take
    effect together, so it is a function from state to state. *)
Record wizard := mkWizard
  { stage : WalletStage;
    importType : option ImportType;
    pendingMnemonic : option string;
    pendingPassword : option string;
    error : option string }.

(** Truthiness of a [string | null]. *)
Definition given (s : option string) : bool :=
  match s with
  | Some text => negb (String.eqb text "")
  | None => false
  end.

Definition goBack (w : wizard) : wizard :=
  match stage w with
  | MnemonicDisplay | MnemonicInput | PrivateKeyImport =>
      mkWizard PasswordCreation (importType w) (pendingMnemonic w) (pendingPassword w) (error w)
  | PasswordCreation =>
      match importType w with
      | Some _ =>
          mkWizard ImportMethod (importType w) (pendingMnemonic w) (pendingPassword w) (error w)
      | None =>
          if given (pendingMnemonic w)
          then mkWizard Idle (importType w) None None None
          else mkWizard Idle None None None None
      end
  | ImportMethod => mkWizard Idle None (pendingMnemonic w) (pendingPassword w) None
  | _ => w
  end.

(** [confirmPassword(password)]; [generated] is what [generateMnemonic()]
    returns when it is called. *)
Definition confirmPassword (generated : string) (password : string) (w : wizard) : wizard :=
  match importType w with
  | Some Mnemonic =>
      mkWizard MnemonicInput (importType w) (pendingMnemonic w) (Some password) (error w)
  | Some PrivateKey =>
      mkWizard PrivateKeyImport (importType w) (pendingMnemonic w) (Some password) (error w)
  | None =>
      if given (pendingMnemonic w)
      then mkWizard MnemonicDisplay (importType w) (pendingMnemonic w) (Some password) (error w)
      else mkWizard MnemonicDisplay (importType w) (Some generated) (Some password) (error w)
  end.

Definition createNewWallet (w : wizard) : wizard :=
  mkWizard PasswordCreation (importType w) (pendingMnemonic w) (pendingPassword w) (error w).

Definition importWallet (w : wizard) : wizard :=
  mkWizard ImportMethod (importType w) (pendingMnemonic w) (pendingPassword w) None.

Definition importFromMnemonic (w : wizard) : wizard :=
  mkWizard PasswordCreation (Some Mnemonic) (pendingMnemonic w) (pendingPassword w) None.

(** The stages from which the back button calls [goBack] and [goBack] acts. *)
Definition inWizard (s : WalletStage) : bool :=
  match s with
  | ImportMethod | PasswordCreation | MnemonicDisplay | MnemonicInput | PrivateKeyImport => true
  | _ => false
  end.

(** The provider's initial state. *)
Definition initial : wizard := mkWizard Idle None None None None.

End Wizard.

(* ================================================================== *)
(** * Unit conversions (src/lib/wallet/transaction.ts)                 *)
(* ================================================================== *)
Module Units.

(** The three conversions multiply and divide amounts that are not
    integers, so here a JavaScript number is what it is: a binary64
    floating-point value, with the operations of IEEE 754 rounded to
    nearest-even (Rocq's primitive floats). *)
Definition number : Set := PrimFloat.float.

(** The number that holds the integer [n] (exact for [0 <= n < 2^53]). *)
Definition ofZ (n : Z) : number := PrimFloat.of_uint63 (Uint63.of_Z n).

(** The literal [1e8]. *)
Definition e8 : number := ofZ 100000000.

(** The integer and the power of two of a finite number: it is
    [n * 2^e]; [None] for NaN and the infinities. *)
Definition finite (x : number) : option (Z * Z) :=
  match FloatOps.Prim2SF x with
  | SpecFloat.S754_zero _ => Some (0, 0)
  | SpecFloat.S754_finite s m e => Some (if s then Z.neg m else Z.pos m, e)
  | _ => None
  end.

(** [Math.floor] and [Math.ceil] of a finite number, as integers. *)
Definition floor (x : number) : option Z :=
  match finite x with
  | Some (n, e) => Some (if 0 <=? e then n * 2 ^ e else n / 2 ^ (- e))
  | None => None
  end.

Definition ceil (x : number) : option Z :=
  match finite x with
  | Some (n, e) => Some (if 0 <=? e then n * 2 ^ e else - ((- n) / 2 ^ (- e)))
  | None => None
  end.

(** [Math.floor(amount * 1e8)] *)
Definition cybToSats (amount : number) : option Z :=
  floor (PrimFloat.mul amount e8).

(** [sats / 1e8] *)
Definition satsToCyb (sats : number) : number := PrimFloat.div sats e8.

(** [Math.max(Math.ceil((rate * 1e8) / 1000), 1)] *)
Definition btcPerKbToSatsPerVbyte (rate : number) : option Z :=
  match ceil (PrimFloat.div (PrimFloat.mul rate e8) (ofZ 1000)) with
  | Some perVbyte => Some (Z.max perVbyte 1)
  | None => None
  end.

(** The number that the decimal text of [p / q] parses to: the nearest
    binary64 value, which is also what the division of [p] by [q] gives. *)
Definition decimal (p q : Z) : number := PrimFloat.div (ofZ p) (ofZ q).

(** Whether [x] is [a] or [b]. *)
Definition oneOf (x : option Z) (a b : Z) : bool :=
  match x with
  | Some v => (v =? a) || (v =? b)
  | None => false
  end.

End Units.

(* ================================================================== *)
(** * Properties of the transaction engine                             *)
(* ================================================================== *)
Module EngineFacts.
Import Engine.

Lemma sumValues_app l1 l2 : sumValues (l1 ++ l2) = sumValues l1 + sumValues l2.
Proof. induction l1 as [|u l1 IH]; simpl; [reflexivity | rewrite IH; lia]. Qed.

(** The selection loop keeps [totalIn] equal to the value of what it has
    selected, and selects a prefix of the wallet's UTXO list. *)
Lemma selectLoop_total amt rate inc us : forall sel tot,
  tot = sumValues sel ->
  snd (selectLoop amt rate inc us sel tot) = sumValues (fst (selectLoop amt rate inc us sel tot)).
Proof.
  induction us as [|u us IH]; intros sel tot Htot; simpl; [exact Htot|].
  destruct (_ <=? _).
  - simpl. rewrite sumValues_app. simpl. lia.
  - apply IH. rewrite sumValues_app. simpl. lia.
Qed.

(** [estimateFee] and [buildAndSignTx] run the same selection: same
    accumulated value, same number of inputs, same fee. *)
Lemma estimateLoop_selectLoop amt rate inc us : forall sel tot ef,
  estimateLoop amt rate inc us tot (Z.of_nat (length sel)) ef =
  (snd (selectLoop amt rate inc us sel tot),
   Z.of_nat (length (fst (selectLoop amt rate inc us sel tot))),
   match us with
   | [] => ef
   | _ => feeFor (estimateVBytes
                    (Z.of_nat (length (fst (selectLoop amt rate inc us sel tot))))
                    (outputCountOf inc)) rate
   end).
Proof.
  induction us as [|u us IH]; intros sel tot ef; [reflexivity|].
  cbn [estimateLoop selectLoop].
  assert (L : Z.of_nat (length (sel ++ [u])) = Z.of_nat (length sel) + 1).
  { rewrite length_app. simpl. lia. }
  cbv zeta. rewrite <- L.
  destruct (_ <=? _) eqn:E.
  - reflexivity.
  - rewrite (IH (sel ++ [u])). destruct us; reflexivity.
Qed.

Lemma estimateFee_fee p :
  0 < amountSats p -> utxos p <> [] ->
  estimatedFee (estimateFee (amountSats p) (feeRate p) (utxos p) (includeFee p)) = finalFee p
  /\ actualAmountSats (estimateFee (amountSats p) (feeRate p) (utxos p) (includeFee p))
     = finalAmount p.
Proof.
  intros Ha Hu. unfold estimateFee, finalAmount, finalFee, selection.
  destruct (utxos p) as [|u us] eqn:EU; [congruence|].
  replace (amountSats p <=? 0) with false by (symmetry; apply Z.leb_gt; lia).
  cbn [orb].
  pose proof (estimateLoop_selectLoop (amountSats p) (feeRate p) (includeFee p) (u :: us) [] 0 0) as H.
  change (Z.of_nat (length (@nil Utxo))) with 0 in H. rewrite H.
  destruct (includeFee p); split; reflexivity.
Qed.

(** What a successful [buildAndSignTx] returns, in terms of the selection. *)
Lemma buildAndSignTx_ok p b :
  buildAndSignTx p = Ok b ->
  let change := snd (selection p) - finalAmount p - finalFee p in
  0 < amountSats p /\ utxos p <> [] /\ 0 <= change /\
  (includeFee p = true -> 0 < amountSats p - finalFee p) /\
  txIns (tx b) = fst (selection p) /\
  txOuts (tx b) =
    mkTxOut (toAddress p) (finalAmount p)
    :: (if 546 <? change then [mkTxOut (fromAddress p) change] else []) /\
  fee b = snd (selection p) - sumOuts (txOuts (tx b)).
Proof.
  unfold buildAndSignTx. fold (selection p).
  destruct (amountSats p <=? 0) eqn:Ea; [discriminate|].
  destruct (utxos p) as [|u us] eqn:EU; [discriminate|].
  destruct (selection p) as [sel tot] eqn:ES.
  assert (FF : feeFor (estimateVBytes (Z.of_nat (length sel)) (outputCountOf (includeFee p)))
                 (feeRate p) = finalFee p).
  { unfold finalFee. rewrite ES. reflexivity. }
  rewrite FF. fold (finalAmount p).
  destruct ((finalAmount p <=? 0) && includeFee p) eqn:Eb; [discriminate|].
  destruct (_ <? 0) eqn:Ec; [discriminate|].
  intros H. injection H as <-. cbn [tx txIns txOuts fee snd fst].
  apply Z.leb_gt in Ea. apply Z.ltb_ge in Ec.
  repeat split; try assumption; try reflexivity; try discriminate.
  intros Hi. rewrite Hi, andb_true_r in Eb. apply Z.leb_gt in Eb.
  unfold finalAmount in Eb. rewrite Hi in Eb. lia.
Qed.

Lemma selection_total p : snd (selection p) = sumValues (fst (selection p)).
Proof. unfold selection. apply selectLoop_total. reflexivity. Qed.

(** X8. On a positive amount and a non-empty UTXO list, [estimateFee] reports
    the fee and the amount that [buildAndSignTx] computes after its own
    selection, and as [totalNeeded] the amount plus that fee (or the amount
    alone when the fee is taken from it). *)
Theorem estimate_matches_build p :
  0 < amountSats p -> utxos p <> [] ->
  let e := estimateFee (amountSats p) (feeRate p) (utxos p) (includeFee p) in
  estimatedFee e = finalFee p
  /\ actualAmountSats e = finalAmount p
  /\ totalNeeded e = (if includeFee p then amountSats p else amountSats p + finalFee p).
Proof.
  intros Ha Hu. cbv zeta. destruct (estimateFee_fee p Ha Hu) as [Ef Ea].
  split; [exact Ef|]. split; [exact Ea|].
  rewrite <- Ef. unfold estimateFee.
  destruct (utxos p) as [|u us]; [congruence|].
  replace (amountSats p <=? 0) with false by (symmetry; apply Z.leb_gt; lia).
  cbn [orb].
  destruct (estimateLoop _ _ _ _ _ _ _) as [[t n] f].
  destruct (includeFee p); reflexivity.
Qed.

Lemma estimate_matches_build_witness :
  estimateFee (amountSats spendInclusive) (feeRate spendInclusive) (utxos spendInclusive)
    (includeFee spendInclusive)
  = mkFeeEstimate 21800 99978200 100000000.
Proof.
  pose proof (estimate_matches_build spendInclusive ltac:(vm_compute; reflexivity)
                ltac:(discriminate)) as H.
  cbv zeta in H. destruct H as (H1 & H2 & H3).
  destruct (estimateFee _ _ _ _) as [f a t]. cbn in H1, H2, H3.
  rewrite H1, H2, H3. vm_compute. reflexivity.
Defined.

(** C10. [estimateFee] raises nothing: on an empty UTXO list or an amount
    that is zero or negative it returns the all-zero estimate, where
    [buildAndSignTx] on the same input throws InvalidAmount or NoFunds. *)
Theorem estimateFee_zero_instead_of_error amt rate us inc :
  us = [] \/ amt <= 0 ->
  estimateFee amt rate us inc = mkFeeEstimate 0 0 0
  /\ forall to from,
       buildAndSignTx (mkSpendTarget to amt rate from us inc) = Throw InvalidAmount
       \/ buildAndSignTx (mkSpendTarget to amt rate from us inc) = Throw NoFunds.
Proof.
  intros H. split.
  - unfold estimateFee. destruct H as [-> | H]; [reflexivity|].
    apply Z.leb_le in H. rewrite H. rewrite orb_true_r. reflexivity.
  - intros to from. unfold buildAndSignTx. cbn [amountSats utxos].
    destruct (amt <=? 0) eqn:E; [left; reflexivity|].
    destruct H as [-> | H]; [right; reflexivity|].
    apply Z.leb_gt in E. lia.
Qed.

Lemma estimateFee_zero_instead_of_error_witness :
  estimateFee 0 (10 # 1) [mkUtxo "aa" 0 5000] true = mkFeeEstimate 0 0 0
  /\ estimateFee 1000 (10 # 1) [] false = mkFeeEstimate 0 0 0.
Proof.
  split.
  - apply (estimateFee_zero_instead_of_error 0 (10 # 1) [mkUtxo "aa" 0 5000] true).
    right. lia.
  - apply (estimateFee_zero_instead_of_error 1000 (10 # 1) [] false).
    left. reflexivity.
Defined.

(** C7. In the transaction of a successful [buildAndSignTx] the change
    output exists exactly when the change (selected input value minus the
    recipient output minus the estimated fee) is above 546 satoshis; no
    output after the recipient's is worth 546 satoshis or less. *)
Theorem change_output_iff_above_dust p b :
  buildAndSignTx p = Ok b ->
  exists recipient,
    let change := sumValues (txIns (tx b)) - outValue recipient - finalFee p in
    address recipient = toAddress p
    /\ (546 < change -> txOuts (tx b) = [recipient; mkTxOut (fromAddress p) change])
    /\ (change <= 546 -> txOuts (tx b) = [recipient])
    /\ Forall (fun o => 546 < outValue o) (tl (txOuts (tx b))).
Proof.
  intros H. apply buildAndSignTx_ok in H.
  destruct H as (_ & _ & _ & _ & Hins & Houts & _).
  exists (mkTxOut (toAddress p) (finalAmount p)). cbv zeta.
  rewrite Hins, <- selection_total, Houts. cbn [outValue address].
  split; [reflexivity|].
  destruct (546 <? _) eqn:E.
  - apply Z.ltb_lt in E. split; [reflexivity|]. split; [lia|].
    cbn [tl]. constructor; [exact E | constructor].
  - apply Z.ltb_ge in E. split; [lia|]. split; [reflexivity | constructor].
Qed.

Lemma change_output_iff_above_dust_witness :
  buildAndSignTx spendInclusive = Ok builtInclusive
  /\ exists recipient,
       let change := sumValues (txIns (tx builtInclusive)) - outValue recipient
                     - finalFee spendInclusive in
       address recipient = toAddress spendInclusive
       /\ (546 < change ->
           txOuts (tx builtInclusive) = [recipient; mkTxOut (fromAddress spendInclusive) change])
       /\ (change <= 546 -> txOuts (tx builtInclusive) = [recipient])
       /\ Forall (fun o => 546 < outValue o) (tl (txOuts (tx builtInclusive))).
Proof.
  split; [vm_compute; reflexivity|].
  apply (change_output_iff_above_dust spendInclusive builtInclusive).
  vm_compute. reflexivity.
Defined.




(** ** Coin selection and outputs *)



(** X18. Outputs of a built transaction: the first pays [toAddress] a
    positive value, the whole [amountSats] when the fee is paid on top;
    when the fee is taken from the amount, that value and the fee add up to
    [amountSats] plus the change that was too small to return (at most
    546).  Every output is worth more than zero and any output after the
    first pays [fromAddress]. *)
Theorem outputs_pay_recipient_then_sender p b :
  buildAndSignTx p = Ok b ->
  exists recipient rest,
    txOuts (tx b) = recipient :: rest
    /\ address recipient = toAddress p
    /\ 0 < outValue recipient
    /\ (includeFee p = false -> outValue recipient = amountSats p)
    /\ (includeFee p = true ->
        amountSats p <= outValue recipient + fee b <= amountSats p + 546)
    /\ Forall (fun o => address o = fromAddress p /\ 0 < outValue o) rest
    /\ (length rest <= 1)%nat.
Proof.
  intros H. apply buildAndSignTx_ok in H.
  destruct H as (Ha & Hu & Hc & Hi & _ & Houts & Hfee).
  cbv zeta in Hc, Houts. rewrite Hfee, Houts.
  eexists _, _. split; [reflexivity|]. cbn [address outValue].
  split; [reflexivity|].
  unfold finalAmount in *.
  split; [destruct (includeFee p); [specialize (Hi eq_refl); lia | lia]|].
  split; [intros ->; reflexivity|].
  split.
  - intros E. rewrite E in *. specialize (Hi eq_refl).
    unfold sumOuts. destruct (546 <? _) eqn:D; cbn [fold_left outValue].
    + lia.
    + apply Z.ltb_ge in D. lia.
  - destruct (546 <? _) eqn:D.
    + apply Z.ltb_lt in D. split; [|simpl; lia].
      constructor; [|constructor]. cbn [address outValue]. split; [reflexivity | lia].
    + split; [constructor | simpl; lia].
Qed.

(** [buildAndSignTx] as a chain of four tests. *)
Lemma buildAndSignTx_tests p :
  exists b,
    buildAndSignTx p =
    (if amountSats p <=? 0 then Throw InvalidAmount
     else if match utxos p with [] => true | _ => false end then Throw NoFunds
     else if (finalAmount p <=? 0) && includeFee p then Throw AmountBelowFee
     else if snd (selection p) - finalAmount p - finalFee p <? 0
          then Throw InsufficientBalance else Ok b).
Proof.
  unfold buildAndSignTx. fold (selection p).
  destruct (selection p) as [sel tot] eqn:ES.
  assert (FF : feeFor (estimateVBytes (Z.of_nat (length sel)) (outputCountOf (includeFee p)))
                 (feeRate p) = finalFee p).
  { unfold finalFee. rewrite ES. reflexivity. }
  rewrite FF. fold (finalAmount p). cbn [snd]. eexists. reflexivity.
Qed.



Lemma outputs_pay_recipient_then_sender_witness :
  exists recipient rest,
    txOuts (tx builtDust) = recipient :: rest
    /\ address recipient = toAddress spendDust
    /\ 0 < outValue recipient
    /\ (includeFee spendDust = false -> outValue recipient = amountSats spendDust)
    /\ (includeFee spendDust = true ->
        amountSats spendDust <= outValue recipient + fee builtDust <= amountSats spendDust + 546)
    /\ Forall (fun o => address o = fromAddress spendDust /\ 0 < outValue o) rest
    /\ (length rest <= 1)%nat.
Proof.
  apply (outputs_pay_recipient_then_sender spendDust builtDust).
  vm_compute. reflexivity.
Defined.

(** ** The build with its library calls *)

Lemma addInputs_ok lib : forall selectedUtxos added ins,
  addInputs lib selectedUtxos added = Ok ins -> ins = added ++ selectedUtxos.
Proof.
  induction selectedUtxos as [|u rest IH]; intros added ins; cbn [addInputs].
  - intros H. injection H as <-. rewrite app_nil_r. reflexivity.
  - destruct (addInput lib added u); [discriminate|].
    intros H. apply IH in H. rewrite H, <- app_assoc. reflexivity.
Qed.

Lemma addInputs_accepting : forall selectedUtxos added,
  addInputs accepting selectedUtxos added = Ok (added ++ selectedUtxos).
Proof.
  induction selectedUtxos as [|u rest IH]; intros added; cbn [addInputs accepting addInput].
  - rewrite app_nil_r. reflexivity.
  - rewrite IH, <- app_assoc. reflexivity.
Qed.

Lemma addOutputs_accepting : forall outs psbt,
  addOutputs accepting outs psbt = Ok (mkPsbt (txIns psbt) (txOuts psbt ++ outs)).
Proof.
  induction outs as [|o rest IH]; intros psbt; cbn [addOutputs accepting addOutput].
  - rewrite app_nil_r. destruct psbt; reflexivity.
  - rewrite IH. cbn [txIns txOuts]. rewrite <- app_assoc. reflexivity.
Qed.

Lemma signInputs_accepting psbt : forall count idx, signInputs accepting psbt idx count = None.
Proof. induction count as [|count IH]; intros idx; [reflexivity | apply IH]. Qed.

(** The tests of [buildAndSignTxWith], in the order in which they are made;
    [b] is what [buildAndSignTx] returns when all its tests pass. *)
Lemma buildAndSignTxWith_tests lib p :
  exists b,
    (forall b', buildAndSignTx p = Ok b' -> b' = b)
    /\ exists last : result Failure Built,
         (last = Ok b \/ exists message, last = Throw (LibraryError message))
         /\ (lib = accepting -> last = Ok b)
         /\ buildAndSignTxWith lib p =
            if amountSats p <=? 0 then Throw (Raised InvalidAmount)
            else if match utxos p with [] => true | _ => false end then Throw (Raised NoFunds)
            else match p2wpkhOutput lib with
                 | Throw message => Throw (LibraryError message)
                 | Ok false => Throw (Raised UnableToDeriveScript)
                 | Ok true =>
                     if (finalAmount p <=? 0) && includeFee p then Throw (Raised AmountBelowFee)
                     else match addInputs lib (fst (selection p)) [] with
                          | Throw e => Throw e
                          | Ok _ =>
                              if snd (selection p) - finalAmount p - finalFee p <? 0
                              then Throw (Raised InsufficientBalance)
                              else last
                          end
                 end.
Proof.
  unfold buildAndSignTxWith, buildAndSignTx. fold (selection p).
  destruct (selection p) as [sel tot] eqn:ES.
  assert (FF : feeFor (estimateVBytes (Z.of_nat (length sel)) (outputCountOf (includeFee p)))
                 (feeRate p) = finalFee p).
  { unfold finalFee. rewrite ES. reflexivity. }
  rewrite FF. fold (finalAmount p). cbn [fst snd].
  set (change := tot - finalAmount p - finalFee p).
  set (outs := mkTxOut (toAddress p) (finalAmount p)
               :: (if 546 <? change then [mkTxOut (fromAddress p) change] else [])).
  exists (mkBuilt (mkPsbt sel outs) (tot - sumOuts outs)).
  split.
  { destruct (amountSats p <=? 0); [discriminate|].
    destruct (match utxos p with [] => true | _ => false end); [discriminate|].
    destruct ((finalAmount p <=? 0) && includeFee p); [discriminate|].
    destruct (change <? 0); [discriminate|].
    intros b' H. injection H as <-. reflexivity. }
  exists (match addOutputs lib outs (mkPsbt sel []) with
          | Throw e => Throw e
          | Ok psbt =>
              match signInputs lib psbt 0 (length sel) with
              | Some message => Throw (LibraryError message)
              | None =>
                  match finalizeAllInputs lib psbt with
                  | Some message => Throw (LibraryError message)
                  | None =>
                      match extractTransaction lib psbt with
                      | Some message => Throw (LibraryError message)
                      | None => Ok (mkBuilt psbt (tot - sumOuts (txOuts psbt)))
                      end
                  end
              end
          end).
  split; [|split].
  - assert (HO : match addOutputs lib outs (mkPsbt sel []) with
                 | Ok psbt => psbt = mkPsbt sel outs
                 | Throw e => exists message, e = LibraryError message
                 end).
    { assert (G : forall os psbt,
                match addOutputs lib os psbt with
                | Ok psbt' => psbt' = mkPsbt (txIns psbt) (txOuts psbt ++ os)
                | Throw e => exists message, e = LibraryError message
                end).
      { induction os as [|o os IH]; intros psbt; cbn [addOutputs].
        - rewrite app_nil_r. destruct psbt; reflexivity.
        - destruct (addOutput lib psbt o) as [m|]; [eauto|].
          specialize (IH (mkPsbt (txIns psbt) (txOuts psbt ++ [o]))).
          destruct (addOutputs lib os _); [|exact IH].
          rewrite IH. cbn [txIns txOuts]. rewrite <- app_assoc. reflexivity. }
      exact (G outs (mkPsbt sel [])). }
    destruct (addOutputs lib outs (mkPsbt sel [])) as [psbt|e].
    + subst psbt.
      destruct (signInputs lib _ _ _); [right; eauto|].
      destruct (finalizeAllInputs lib _); [right; eauto|].
      destruct (extractTransaction lib _); [right; eauto|].
      left. reflexivity.
    + destruct HO as [m ->]. right. eauto.
  - intros ->. rewrite addOutputs_accepting, signInputs_accepting. reflexivity.
  - destruct (amountSats p <=? 0); [reflexivity|].
    destruct (match utxos p with [] => true | _ => false end); [reflexivity|].
    destruct (p2wpkhOutput lib) as [[|]|m]; try reflexivity.
    destruct ((finalAmount p <=? 0) && includeFee p); [reflexivity|].
    destruct (addInputs lib sel []) as [ins|e] eqn:EI; [|reflexivity].
    apply addInputs_ok in EI. cbn [app] in EI. subst ins.
    fold change. destruct (change <? 0); reflexivity.
Qed.






(** With a library that throws nowhere, [buildAndSignTxWith] is
    [buildAndSignTx]. *)
Lemma buildAndSignTxWith_accepting p :
  buildAndSignTxWith accepting p =
  match buildAndSignTx p with
  | Ok b => Ok b
  | Throw message => Throw (Raised message)
  end.
Proof.
  destruct (buildAndSignTxWith_tests accepting p) as (b & Hb & last & _ & Hlast & E).
  rewrite E, (Hlast eq_refl). clear E.
  destruct (buildAndSignTx_tests p) as [b0 E0]. rewrite E0 in *.
  rewrite addInputs_accepting. cbn [accepting p2wpkhOutput].
  destruct (amountSats p <=? 0); [reflexivity|].
  destruct (match utxos p with [] => true | _ => false end); [reflexivity|].
  destruct ((finalAmount p <=? 0) && includeFee p); [reflexivity|].
  destruct (_ <? 0); [reflexivity|].
  rewrite (Hb b0 eq_refl). reflexivity.
Qed.

(** Whatever the library does, a transaction that [buildAndSignTxWith]
    returns is the one of [buildAndSignTx]. *)
Lemma buildAndSignTxWith_ok lib p b :
  buildAndSignTxWith lib p = Ok b -> buildAndSignTx p = Ok b.
Proof.
  destruct (buildAndSignTxWith_tests lib p) as (b1 & Hb & last & Hlast & _ & E).
  rewrite E. clear E.
  destruct (buildAndSignTx_tests p) as [b0 E0]. rewrite E0 in *.
  destruct (amountSats p <=? 0); [discriminate|].
  destruct (match utxos p with [] => true | _ => false end); [discriminate|].
  destruct (p2wpkhOutput lib) as [[|]|m]; try discriminate.
  destruct ((finalAmount p <=? 0) && includeFee p); [discriminate|].
  destruct (addInputs lib _ _); [|discriminate].
  destruct (_ <? 0); [discriminate|].
  destruct Hlast as [->|[m ->]]; [|discriminate].
  intros H. injection H as <-. rewrite (Hb b0 eq_refl). reflexivity.
Qed.




End EngineFacts.

(* ================================================================== *)
(** * Properties of the codec                                          *)
(* ================================================================== *)
Module CodecFacts.
Import Codec.

(** ** Hex decoding *)

(** On a string of hex digits every pair of characters gives one byte. *)
Lemma Buffer_from_hex_length s :
  forallb isHexDigit (list_ascii_of_string s) = true ->
  length (Buffer_from_hex s) = (String.length s / 2)%nat.
Proof.
  assert (G : forall n s, (String.length s < n)%nat ->
            forallb isHexDigit (list_ascii_of_string s) = true ->
            length (Buffer_from_hex s) = (String.length s / 2)%nat).
  { clear s. induction n as [|n IH]; intros s Hn Hs; [lia|].
    destruct s as [|a [|b rest]]; [reflexivity | reflexivity |].
    cbn [list_ascii_of_string forallb] in Hs.
    apply andb_true_iff in Hs as [Ha Hs]. apply andb_true_iff in Hs as [Hb Hs].
    unfold isHexDigit in Ha, Hb. cbn [Buffer_from_hex].
    destruct (hexval a); [|discriminate]. destruct (hexval b); [|discriminate].
    cbn [length String.length].
    rewrite (IH rest); [| simpl in Hn; lia | exact Hs].
    change (S (S (String.length rest))) with (2 + String.length rest)%nat.
    replace (2 + String.length rest)%nat with (String.length rest + 1 * 2)%nat by lia.
    rewrite Nat.div_add by lia. lia. }
  apply (G (S (String.length s))). lia.
Qed.

(** The constants derived from the primes are those of FIPS 180-4. *)
Lemma sha256_constants :
  length Sha256.K = 64%nat
  /\ firstn 4 Sha256.K = [0x428a2f98; 0x71374491; 0xb5c0fbcf; 0xe9b5dba5]
  /\ nth 63 Sha256.K 0 = 0xc67178f2
  /\ nth 0 Sha256.H0 0 = 0x6a09e667 /\ nth 7 Sha256.H0 0 = 0x5be0cd19.
Proof. repeat split; vm_compute; reflexivity. Qed.

(** The digest on the test vectors of FIPS 180-4 (one and two blocks)
    and on the empty message. *)
Lemma sha256_test_vectors :
  toString_hex (Sha256.digest []) =
    "e3b0c44298fc1c149afbf4c8996fb92427ae41e4649b934ca495991b7852b855"
  /\ toString_hex (Sha256.digest [97; 98; 99]) =
       "ba7816bf8f01cfea414140de5dae2223b00361a396177a9cb410ff61f20015ad"
  /\ toString_hex (Sha256.digest
        (map (fun c => Z.of_nat (nat_of_ascii c))
           (list_ascii_of_string "abcdbcdecdefdefgefghfghighijhijkijkljklmklmnlmnomnopnopq")))
     = "248d6a61d20638b8e5c026930c3e6039a33ce45964ff2167f6ecedd419db06c1".
Proof. repeat split; vm_compute; reflexivity. Qed.

(** C1 (evaluation). On the compact bits [0x1d00ffff] the function
    returns exactly 65536, not a value near 1: [maxTarget] is
    [0xffff0000 * 256^26], the decoded target is [0xffff * 256^26].  Both
    products and their quotient 2^16 are exact in double precision, so the
    rational is the value the source returns. *)
Theorem difficulty_of_0x1d00ffff_is_65536 :
  (calculateDifficultyFromBits 0x1d00ffff == 65536)%Q
  /\ ~ (calculateDifficultyFromBits 0x1d00ffff <= 2)%Q.
Proof.
  split; [reflexivity|]. vm_compute. intros H. apply H. reflexivity.
Qed.

(** The decoding the function performs on these bits. *)
Lemma difficulty_decoding_of_0x1d00ffff :
  Z.shiftr 0x1d00ffff 24 = 0x1d /\ Z.land 0x1d00ffff 0x007fffff = 0xffff
  /\ (calculateDifficultyFromBits 0x1d00ffff
      == inject_Z (0xffff0000 * 256 ^ 26) / inject_Z (0xffff * 256 ^ 26))%Q.
Proof. repeat split. Qed.

(** ** Block header *)

(** C6, as stated, fails: a string of 162 hex digits is refused, with the
    invalid-length error, although it has at least 160 hex characters. *)
Lemma parseBlockHeader_rejects_162_digits :
  isHex (genesisHeader ++ "00") = true
  /\ String.length (genesisHeader ++ "00") = 162%nat
  /\ parseBlockHeader (genesisHeader ++ "00") = Throw (InvalidHeaderLength 81).
Proof. repeat split. Qed.

Lemma isHex_digits s : isHex s = true -> forallb isHexDigit (list_ascii_of_string s) = true.
Proof. destruct s; [discriminate | trivial]. Qed.

(** C6, amended. On a string of hex digits [parseBlockHeader] succeeds
    exactly when the string decodes to 80 bytes, that is when it has 160 or
    161 characters: it then returns version, timestamp, bits and nonce as
    the little-endian 32-bit integers at bytes 0, 68, 72 and 76, the previous
    hash (bytes 4..35) and the merkle root (bytes 36..67) byte-reversed, and
    hash = reverse(SHA256(SHA256(header))).  With fewer than 160 characters
    it fails with the invalid-hex error, with 162 or more with the
    invalid-length error.  Parsing the same string again gives the same hash. *)
Theorem parseBlockHeader_on_hex headerHex :
  isHex headerHex = true ->
  let header := Buffer_from_hex headerHex in
  let n := String.length headerHex in
  let u32 o := nth o header 0 + 256 * nth (o + 1) header 0
               + 65536 * nth (o + 2) header 0 + 16777216 * nth (o + 3) header 0 in
  ((n < 160)%nat -> parseBlockHeader headerHex = Throw InvalidHeaderHex)
  /\ ((160 <= n <= 161)%nat ->
      length header = 80%nat
      /\ parseBlockHeader headerHex =
         Ok {| hash := toString_hex (rev (Sha256.digest (Sha256.digest header)));
               version := u32 0%nat;
               prevHash := toString_hex (rev (firstn 32 (skipn 4 header)));
               merkleRoot := toString_hex (rev (firstn 32 (skipn 36 header)));
               timestamp := u32 68%nat;
               bits := u32 72%nat;
               nonce := u32 76%nat |})
  /\ ((162 <= n)%nat -> parseBlockHeader headerHex = Throw (InvalidHeaderLength (n / 2)))
  /\ (forall h1 h2, parseBlockHeader headerHex = Ok h1 -> parseBlockHeader headerHex = Ok h2 ->
      hash h1 = hash h2).
Proof.
  intros Hhex header n u32.
  pose proof (Buffer_from_hex_length headerHex (isHex_digits _ Hhex)) as Hlen.
  fold header n in Hlen.
  pose proof (Nat.div_mod_eq n 2) as Hdm.
  pose proof (Nat.mod_upper_bound n 2 ltac:(lia)) as Hmod.
  unfold parseBlockHeader. fold header n.
  split; [|split; [|split]].
  - intros H. apply Nat.ltb_lt in H. rewrite H. reflexivity.
  - intros H. assert (Hn : (n <? 160)%nat = false) by (apply Nat.ltb_ge; lia).
    assert (H80 : length header = 80%nat) by lia.
    split; [exact H80|]. rewrite Hn, H80. reflexivity.
  - intros H. assert (Hn : (n <? 160)%nat = false) by (apply Nat.ltb_ge; lia).
    rewrite Hn, Hlen.
    assert (Hne : (n / 2 =? 80)%nat = false) by (apply Nat.eqb_neq; lia).
    rewrite Hne. reflexivity.
  - intros h1 h2 H1 H2. rewrite H1 in H2. injection H2 as <-. reflexivity.
Qed.

Lemma parseBlockHeader_on_hex_witness :
  parseBlockHeader genesisHeader =
  Ok {| hash := "000000000019d6689c085ae165831e934ff763ae46a2a6c172b3f1b60a8ce26f";
        version := 1;
        prevHash := "0000000000000000000000000000000000000000000000000000000000000000";
        merkleRoot := "4a5e1e4baab89f3a32518a88c31bc87f618f76673e2cc77ab2127b7afdeda33b";
        timestamp := 1231006505;
        bits := 486604799;
        nonce := 2083236893 |}.
Proof.
  refine (eq_trans
    (proj2 (proj1 (proj2 (parseBlockHeader_on_hex genesisHeader _)) _)) _).
  - vm_compute. reflexivity.
  - vm_compute. lia.
  - vm_compute. reflexivity.
Defined.

(** ** The transaction walk *)

(** The loops never run out of fuel: once [fuel] covers the bytes left,
    the result no longer depends on it. *)
Lemma skipInputs_fuel buffer count : forall fuel fuel' j offset,
  (length buffer - offset <= fuel)%nat -> (length buffer - offset <= fuel')%nat ->
  skipInputs fuel buffer count j offset = skipInputs fuel' buffer count j offset.
Proof.
  induction fuel as [|fuel IH]; intros fuel' j offset H H'.
  - destruct fuel' as [|fuel']; [reflexivity|]. cbn [skipInputs].
    replace (offset <? length buffer)%nat with false by (symmetry; apply Nat.ltb_ge; lia).
    rewrite andb_false_r. reflexivity.
  - destruct fuel' as [|fuel']; cbn [skipInputs].
    + replace (offset <? length buffer)%nat with false by (symmetry; apply Nat.ltb_ge; lia).
      rewrite andb_false_r. reflexivity.
    + destruct ((j <? count) && (offset <? length buffer)%nat); [|reflexivity].
      destruct (past buffer offset 36); [reflexivity|].
      destruct (readVarint buffer (offset + 36)) as [v|e]; [|reflexivity].
      destruct (past buffer _ (vvalue v)); [reflexivity|].
      destruct (past buffer _ 4); [reflexivity|].
      apply IH; lia.
Qed.

Lemma skipOutputs_fuel buffer count : forall fuel fuel' j offset,
  (length buffer - offset <= fuel)%nat -> (length buffer - offset <= fuel')%nat ->
  skipOutputs fuel buffer count j offset = skipOutputs fuel' buffer count j offset.
Proof.
  induction fuel as [|fuel IH]; intros fuel' j offset H H'.
  - destruct fuel' as [|fuel']; [reflexivity|]. cbn [skipOutputs].
    replace (offset <? length buffer)%nat with false by (symmetry; apply Nat.ltb_ge; lia).
    rewrite andb_false_r. reflexivity.
  - destruct fuel' as [|fuel']; cbn [skipOutputs].
    + replace (offset <? length buffer)%nat with false by (symmetry; apply Nat.ltb_ge; lia).
      rewrite andb_false_r. reflexivity.
    + destruct ((j <? count) && (offset <? length buffer)%nat); [|reflexivity].
      destruct (past buffer offset 8); [reflexivity|].
      destruct (readVarint buffer (offset + 8)) as [v|e]; [|reflexivity].
      destruct (past buffer _ (vvalue v)); [reflexivity|].
      apply IH; lia.
Qed.

(** A completed pass over one transaction ends after its start. *)
Lemma walkTransaction_advances blockHex buffer start offset txid :
  walkTransaction blockHex buffer start = Ok (Some (offset, txid)) ->
  (start < offset)%nat.
Proof.
  assert (GI : forall fuel count j o o', skipInputs fuel buffer count j o = Ok o' -> (o <= o')%nat).
  { induction fuel as [|fuel IH]; intros count j o o'; cbn [skipInputs].
    - intros H; injection H as <-; lia.
    - destruct (_ && _); [|intros H; injection H as <-; lia].
      destruct (past buffer o 36); [intros H; injection H as <-; lia|].
      destruct (readVarint buffer (o + 36)) as [v|e]; [|discriminate].
      destruct (past buffer _ (vvalue v)); [intros H; injection H as <-; lia|].
      destruct (past buffer _ 4); [intros H; injection H as <-; lia|].
      intros H. apply IH in H. lia. }
  assert (GO : forall fuel count j o o', skipOutputs fuel buffer count j o = Ok o' -> (o <= o')%nat).
  { induction fuel as [|fuel IH]; intros count j o o'; cbn [skipOutputs].
    - intros H; injection H as <-; lia.
    - destruct (_ && _); [|intros H; injection H as <-; lia].
      destruct (past buffer o 8); [intros H; injection H as <-; lia|].
      destruct (readVarint buffer (o + 8)) as [v|e]; [|discriminate].
      destruct (past buffer _ (vvalue v)); [intros H; injection H as <-; lia|].
      intros H. apply IH in H. lia. }
  unfold walkTransaction.
  destruct (past buffer start 4); [discriminate|].
  destruct (readVarint buffer (start + 4)) as [vi|e]; [|discriminate].
  destruct (skipInputs _ _ _ _ _) as [o1|e] eqn:E1; [|discriminate].
  destruct (length buffer <=? o1)%nat; [discriminate|].
  destruct (readVarint buffer o1) as [vo|e]; [|discriminate].
  destruct (skipOutputs _ _ _ _ _) as [o2|e] eqn:E2; [|discriminate].
  destruct (past buffer o2 4); [discriminate|].
  intros H. injection H as <- _.
  apply GI in E1. apply GO in E2. lia.
Qed.

Lemma walkTransactions_fuel blockHex buffer txCount : forall fuel fuel' i offset txHashes,
  (length buffer - offset <= fuel)%nat -> (length buffer - offset <= fuel')%nat ->
  walkTransactions fuel blockHex buffer txCount i offset txHashes
  = walkTransactions fuel' blockHex buffer txCount i offset txHashes.
Proof.
  induction fuel as [|fuel IH]; intros fuel' i offset txHashes H H'.
  - destruct fuel' as [|fuel']; [reflexivity|]. cbn [walkTransactions].
    replace (offset <? length buffer)%nat with false by (symmetry; apply Nat.ltb_ge; lia).
    rewrite andb_false_r. reflexivity.
  - destruct fuel' as [|fuel']; cbn [walkTransactions].
    + replace (offset <? length buffer)%nat with false by (symmetry; apply Nat.ltb_ge; lia).
      rewrite andb_false_r. reflexivity.
    + destruct ((i <? txCount) && (offset <? length buffer)%nat); [|reflexivity].
      destruct (walkTransaction blockHex buffer offset) as [[[o txid]|]|e] eqn:E;
        [|reflexivity|reflexivity].
      apply walkTransaction_advances in E. apply IH; lia.
Qed.

(** X9. The walk visits at most as many transactions as the buffer has
    bytes: any fuel that covers the buffer gives the result of the fuel the
    function uses. *)
Theorem transaction_walk_fuel_adequate blockHex buffer txCount offset fuel :
  (length buffer <= fuel)%nat ->
  walkTransactions fuel blockHex buffer txCount 0 offset []
  = walkTransactions (length buffer) blockHex buffer txCount 0 offset [].
Proof. intros H. apply walkTransactions_fuel; lia. Qed.

Lemma transaction_walk_fuel_adequate_witness :
  let blockHex := (genesisHeader ++ "02" ++ sampleTx1 ++ sampleTx2)%string in
  walkTransactions 1000 blockHex (Buffer_from_hex blockHex) 2 0 81 []
  = Ok ["12d9670a57d494ef1c68731357868862b4ed5871b71942e5b607d8e62e2412eb";
        "c0170ebbeb451f48be3a8b36faf3557b17da5765112fa8fe7afb5018e8e0a077"]%string.
Proof.
  cbv zeta.
  rewrite (transaction_walk_fuel_adequate
             (genesisHeader ++ "02" ++ sampleTx1 ++ sampleTx2)%string
             (Buffer_from_hex (genesisHeader ++ "02" ++ sampleTx1 ++ sampleTx2)%string)
             2 81 1000) by (vm_compute; lia).
  vm_compute. reflexivity.
Defined.

(** C2 (evaluation). A block of two transactions parses to both hashes.
    Cut right after the version of the second transaction, where the
    input-count varint is due, the walk raises inside [readVarint], the
    [catch] returns the empty list and the hash of the first transaction is
    lost.  Cut inside the previous-output reference of the second
    transaction, the inner [break] leaves the walk misaligned and a hash is
    pushed for bytes that are no transaction. *)
Theorem truncated_block_hashes :
  parseTransactionHashesFromBlock (genesisHeader ++ "02" ++ sampleTx1 ++ sampleTx2)
  = ["12d9670a57d494ef1c68731357868862b4ed5871b71942e5b607d8e62e2412eb";
     "c0170ebbeb451f48be3a8b36faf3557b17da5765112fa8fe7afb5018e8e0a077"]
  /\ parseTransactionHashesFromBlock
       (genesisHeader ++ "02" ++ sampleTx1 ++ substring sampleTx2 0 8) = []
  /\ parseTransactionHashesFromBlock
       (genesisHeader ++ "02" ++ sampleTx1 ++ substring sampleTx2 0 20)
     = ["12d9670a57d494ef1c68731357868862b4ed5871b71942e5b607d8e62e2412eb";
        "8735a166bde2eec2ec32f0caa334019edbb1219329693e04e8c6b962db6719f8"]
  /\ parseTransactionHashesFromBlock
       (genesisHeader ++ "02" ++ sampleTx1 ++ substring sampleTx2 0 100)
     = ["12d9670a57d494ef1c68731357868862b4ed5871b71942e5b607d8e62e2412eb"].
Proof. repeat split; vm_compute; reflexivity. Qed.

(** ** Varint, transaction count and hashed ranges *)

Lemma hexval_range c v : hexval c = Some v -> 0 <= v < 16.
Proof.
  unfold hexval.
  repeat match goal with
         | |- context [if ?b then _ else _] => destruct b eqn:?
         end; intros H; inversion H; subst; lia.
Qed.

Lemma Buffer_from_hex_bytes s : Forall Vault.isByte (Buffer_from_hex s).
Proof.
  assert (G : forall n s, (String.length s < n)%nat -> Forall Vault.isByte (Buffer_from_hex s)).
  { clear s. induction n as [|n IH]; intros s Hn; [lia|].
    destruct s as [|a [|b rest]]; [constructor | constructor |].
    cbn [Buffer_from_hex].
    destruct (hexval a) as [x|] eqn:Ea; [|constructor].
    destruct (hexval b) as [y|] eqn:Eb; [|constructor].
    constructor.
    - apply hexval_range in Ea, Eb. unfold Vault.isByte. lia.
    - apply IH. simpl in Hn. lia. }
  apply (G (S (String.length s))). lia.
Qed.

Lemma nth_byte buffer o : Forall Vault.isByte buffer -> 0 <= nth o buffer 0 < 256.
Proof.
  intros H. destruct (Nat.lt_ge_cases o (length buffer)) as [Hlt|Hge].
  - rewrite List.Forall_forall in H. apply H. apply nth_In. exact Hlt.
  - rewrite nth_overflow by exact Hge. lia.
Qed.

(** What a successful [readVarint] has read. *)
Lemma readVarint_bounds buffer offset v :
  Forall Vault.isByte buffer ->
  readVarint buffer offset = Ok v ->
  (offset + vsize v <= length buffer)%nat
  /\ In (vsize v) [1; 3; 5; 9]%nat
  /\ 0 <= vvalue v < 2 ^ 32
  /\ (vsize v = 1%nat <-> nth offset buffer 0 < 0xfd).
Proof.
  intros HB. unfold readVarint, readUInt16LE, readUInt32LE.
  pose proof (nth_byte buffer offset HB) as B0.
  pose proof (nth_byte buffer (offset + 1) HB) as B1.
  pose proof (nth_byte buffer (offset + 1 + 1) HB) as B2.
  pose proof (nth_byte buffer (offset + 1 + 2) HB) as B3.
  pose proof (nth_byte buffer (offset + 1 + 3) HB) as B4.
  destruct (length buffer <=? offset)%nat eqn:E0; [discriminate|].
  apply Nat.leb_gt in E0.
  destruct (nth offset buffer 0 <? 253) eqn:E1.
  { intros H. injection H as <-. cbn [vsize vvalue]. apply Z.ltb_lt in E1.
    split; [lia|]. split; [simpl; tauto|]. split; [lia|]. tauto. }
  apply Z.ltb_ge in E1.
  destruct (nth offset buffer 0 =? 253).
  { destruct (length buffer <? offset + 3)%nat eqn:E2; [discriminate|].
    apply Nat.ltb_ge in E2. intros H. injection H as <-. cbn [vsize vvalue].
    split; [lia|]. split; [simpl; tauto|]. split; [lia|]. split; [discriminate | lia]. }
  destruct (nth offset buffer 0 =? 254).
  { destruct (length buffer <? offset + 5)%nat eqn:E2; [discriminate|].
    apply Nat.ltb_ge in E2. intros H. injection H as <-. cbn [vsize vvalue].
    split; [lia|]. split; [simpl; tauto|]. split; [lia|]. split; [discriminate | lia]. }
  destruct (length buffer <? offset + 9)%nat eqn:E2; [discriminate|].
  apply Nat.ltb_ge in E2. intros H. injection H as <-. cbn [vsize vvalue].
  split; [lia|]. split; [simpl; tauto|]. split; [lia|]. split; [discriminate | lia].
Qed.

(** The count of [parseTxCountFromBlockHex] is the varint that the hash
    walk reads at byte 80. *)
Lemma parseTxCount_readVarint blockHex :
  parseTxCountFromBlockHex blockHex =
  if (String.length blockHex <=? 160)%nat then 0
  else match readVarint (Buffer_from_hex blockHex) 80 with
       | Ok v => vvalue v
       | Throw _ => 0
       end.
Proof.
  unfold parseTxCountFromBlockHex, readVarint.
  destruct (String.length blockHex <=? 160)%nat; [reflexivity|].
  set (b := Buffer_from_hex blockHex).
  destruct (length b <=? 80)%nat; [reflexivity|].
  destruct (nth 80 b 0 <? 253); [reflexivity|].
  destruct (nth 80 b 0 =? 253).
  { destruct (length b <? 80 + 3)%nat eqn:E.
    - apply Nat.ltb_lt in E. replace (80 + 3 <=? length b)%nat with false
        by (symmetry; apply Nat.leb_gt; lia). reflexivity.
    - apply Nat.ltb_ge in E. replace (80 + 3 <=? length b)%nat with true
        by (symmetry; apply Nat.leb_le; lia). reflexivity. }
  destruct (nth 80 b 0 =? 254).
  { destruct (length b <? 80 + 5)%nat eqn:E.
    - apply Nat.ltb_lt in E. replace (80 + 5 <=? length b)%nat with false
        by (symmetry; apply Nat.leb_gt; lia). reflexivity.
    - apply Nat.ltb_ge in E. replace (80 + 5 <=? length b)%nat with true
        by (symmetry; apply Nat.leb_le; lia). reflexivity. }
  destruct (length b <? 80 + 9)%nat eqn:E.
  - apply Nat.ltb_lt in E. replace (80 + 9 <=? length b)%nat with false
      by (symmetry; apply Nat.leb_gt; lia). reflexivity.
  - apply Nat.ltb_ge in E. replace (80 + 9 <=? length b)%nat with true
      by (symmetry; apply Nat.leb_le; lia). reflexivity.
Qed.


(** ** What the hash walk returns *)

Lemma be_bytes_length n x : length (Sha256.be_bytes n x) = n.
Proof. induction n as [|n IH]; simpl; [reflexivity | rewrite IH; reflexivity]. Qed.

Lemma be_bytes_bytes n x : Forall Vault.isByte (Sha256.be_bytes n x).
Proof.
  induction n as [|n IH]; simpl; constructor; [|exact IH].
  unfold Vault.isByte. apply Z.mod_pos_bound. lia.
Qed.

Lemma digest_length msg : length (Sha256.digest msg) = 32%nat.
Proof.
  unfold Sha256.digest. cbn [flat_map].
  repeat rewrite length_app. repeat rewrite be_bytes_length. reflexivity.
Qed.

Lemma digest_bytes msg : Forall Vault.isByte (Sha256.digest msg).
Proof.
  unfold Sha256.digest. cbn [flat_map].
  repeat (apply Forall_app; split); try apply be_bytes_bytes. constructor.
Qed.

Lemma toString_hex_length buf : String.length (toString_hex buf) = (2 * length buf)%nat.
Proof. induction buf as [|b buf IH]; simpl; [reflexivity | rewrite IH; lia]. Qed.

Lemma hexdigit_isHexDigit n : 0 <= n < 16 -> isHexDigit (hexdigit n) = true.
Proof.
  intros H.
  assert (G : forallb (fun k => isHexDigit (hexdigit (Z.of_nat k))) (seq 0 16) = true)
    by reflexivity.
  rewrite List.forallb_forall in G. rewrite <- (Z2Nat.id n) by lia.
  apply G, in_seq. lia.
Qed.

Lemma toString_hex_digits buf :
  Forall Vault.isByte buf -> forallb isHexDigit (list_ascii_of_string (toString_hex buf)) = true.
Proof.
  induction 1 as [|b buf Hb _ IH]; [reflexivity|].
  cbn [toString_hex list_ascii_of_string forallb]. unfold Vault.isByte in Hb.
  rewrite !hexdigit_isHexDigit, IH; [reflexivity | |].
  - apply Z.mod_pos_bound. lia.
  - split; [apply Z.div_pos; lia | apply Z.div_lt_upper_bound; lia].
Qed.

Lemma doubleHashHex_shape bytes :
  String.length (doubleHashHex bytes) = 64%nat /\ isHex (doubleHashHex bytes) = true.
Proof.
  unfold doubleHashHex. split.
  - rewrite toString_hex_length, length_rev, digest_length. reflexivity.
  - assert (D : forallb isHexDigit
                  (list_ascii_of_string (toString_hex (rev (Sha256.digest (Sha256.digest bytes)))))
                = true).
    { apply toString_hex_digits. apply Forall_rev. apply digest_bytes. }
    unfold isHex.
    destruct (toString_hex _) eqn:E; [|exact D].
    apply (f_equal String.length) in E.
    rewrite toString_hex_length, length_rev, digest_length in E. discriminate.
Qed.

(** Cutting the hex string at even positions inside the decoded part is
    cutting the buffer. *)
Lemma Buffer_from_hex_skipn a : forall s,
  (a <= length (Buffer_from_hex s))%nat ->
  Buffer_from_hex (string_of_list_ascii (skipn (a * 2) (list_ascii_of_string s)))
  = skipn a (Buffer_from_hex s).
Proof.
  induction a as [|a IH]; intros s H.
  - change (0 * 2)%nat with 0%nat. rewrite !skipn_O, string_of_list_ascii_of_string. reflexivity.
  - destruct s as [|c1 [|c2 rest]]; [simpl in H; lia | simpl in H; lia |].
    cbn [Buffer_from_hex] in *.
    destruct (hexval c1); [|simpl in H; lia]. destruct (hexval c2); [|simpl in H; lia].
    cbn [length] in H. change (S a * 2)%nat with (S (S (a * 2))).
    cbn [list_ascii_of_string skipn]. apply IH. lia.
Qed.

Lemma Buffer_from_hex_firstn n : forall s,
  (n <= length (Buffer_from_hex s))%nat ->
  Buffer_from_hex (string_of_list_ascii (firstn (n * 2) (list_ascii_of_string s)))
  = firstn n (Buffer_from_hex s).
Proof.
  induction n as [|n IH]; intros s H; [reflexivity|].
  destruct s as [|c1 [|c2 rest]]; [simpl in H; lia | simpl in H; lia |].
  cbn [Buffer_from_hex] in *.
  destruct (hexval c1) eqn:E1; [|simpl in H; lia].
  destruct (hexval c2) eqn:E2; [|simpl in H; lia].
  cbn [length] in H. change (S n * 2)%nat with (S (S (n * 2))).
  cbn [list_ascii_of_string firstn string_of_list_ascii Buffer_from_hex].
  rewrite E1, E2, IH by lia. reflexivity.
Qed.

Lemma Buffer_from_hex_substring s a b :
  (a <= b)%nat -> (b <= length (Buffer_from_hex s))%nat ->
  Buffer_from_hex (substring s (a * 2) (b * 2)) = slice (Buffer_from_hex s) a b.
Proof.
  intros Hab Hb. unfold substring, slice.
  replace (b * 2 - a * 2)%nat with ((b - a) * 2)%nat by lia.
  rewrite <- (list_ascii_of_string_of_list_ascii (skipn (a * 2) (list_ascii_of_string s))).
  rewrite Buffer_from_hex_firstn; rewrite Buffer_from_hex_skipn by lia.
  - reflexivity.
  - rewrite length_skipn. lia.
Qed.


(** A completed pass ends inside the buffer and hashes the bytes it walked. *)
Lemma walkTransaction_result blockHex start offset txid :
  walkTransaction blockHex (Buffer_from_hex blockHex) start = Ok (Some (offset, txid)) ->
  (start < offset <= length (Buffer_from_hex blockHex))%nat
  /\ txid = doubleHashHex (slice (Buffer_from_hex blockHex) start offset).
Proof.
  intros H. pose proof (walkTransaction_advances _ _ _ _ _ H) as Hadv.
  revert H. unfold walkTransaction.
  set (buffer := Buffer_from_hex blockHex) in *.
  destruct (past buffer start 4); [discriminate|].
  destruct (readVarint buffer (start + 4)) as [vi|e]; [|discriminate].
  destruct (skipInputs _ _ _ _ _) as [o1|e]; [|discriminate].
  destruct (length buffer <=? o1)%nat; [discriminate|].
  destruct (readVarint buffer o1) as [vo|e]; [|discriminate].
  destruct (skipOutputs _ _ _ _ _) as [o2|e]; [|discriminate].
  destruct (past buffer o2 4) eqn:E; [discriminate|].
  intros H. injection H as <- <-.
  unfold past in E. apply Z.ltb_ge in E.
  assert (Hin : (o2 + 4 <= length buffer)%nat) by lia.
  split; [lia|]. unfold buffer.
  rewrite Buffer_from_hex_substring; [reflexivity | lia | exact Hin].
Qed.

Lemma walkTransactions_result blockHex txCount : forall fuel i offset acc hashes,
  walkTransactions fuel blockHex (Buffer_from_hex blockHex) txCount i offset acc = Ok hashes ->
  exists more,
    hashes = acc ++ more
    /\ Z.of_nat (length more) <= Z.max 0 (txCount - i)
    /\ hashedRanges (Buffer_from_hex blockHex) offset more.
Proof.
  induction fuel as [|fuel IH]; intros i offset acc hashes; cbn [walkTransactions].
  - intros H. injection H as <-. exists []. rewrite app_nil_r.
    split; [reflexivity|]. split; [simpl; lia | constructor].
  - destruct ((i <? txCount) && (offset <? length (Buffer_from_hex blockHex))%nat) eqn:C.
    2:{ intros H. injection H as <-. exists []. rewrite app_nil_r.
        split; [reflexivity|]. split; [simpl; lia | constructor]. }
    apply andb_true_iff in C as [Ci _]. apply Z.ltb_lt in Ci.
    destruct (walkTransaction _ _ offset) as [[[o txid]|]|e] eqn:E; [| |discriminate].
    + intros H. apply IH in H as (more & -> & Hn & Hr).
      apply walkTransaction_result in E as [Ho ->].
      exists (doubleHashHex (slice (Buffer_from_hex blockHex) offset o) :: more).
      split; [rewrite <- app_assoc; reflexivity|].
      split; [cbn [length]; lia|].
      constructor; [lia | lia | exact Hr].
    + intros H. injection H as <-. exists []. rewrite app_nil_r.
      split; [reflexivity|]. split; [simpl; lia | constructor].
Qed.

Lemma hashedRanges_shape buffer start hashes :
  hashedRanges buffer start hashes ->
  Forall (fun h => String.length h = 64%nat /\ isHex h = true) hashes.
Proof. induction 1; constructor; [apply doubleHashHex_shape | assumption]. Qed.

(** What [parseTransactionHashesFromBlock] returns, in one statement. *)
Lemma parseTransactionHashes_result blockHex :
  exists start,
    In start [81; 83; 85; 89]%nat
    /\ hashedRanges (Buffer_from_hex blockHex) start (parseTransactionHashesFromBlock blockHex)
    /\ Z.of_nat (length (parseTransactionHashesFromBlock blockHex))
       <= parseTxCountFromBlockHex blockHex.
Proof.
  rewrite parseTxCount_readVarint. unfold parseTransactionHashesFromBlock.
  destruct (String.length blockHex <=? 160)%nat.
  { exists 81%nat. split; [simpl; tauto|]. split; [constructor | simpl; lia]. }
  unfold tryParseTransactionHashes.
  destruct (readVarint (Buffer_from_hex blockHex) 80) as [v|e] eqn:Ev.
  2:{ exists 81%nat. split; [simpl; tauto|]. split; [constructor | simpl; lia]. }
  destruct (readVarint_bounds _ _ _ (Buffer_from_hex_bytes blockHex) Ev)
    as (_ & Hsize & Hval & _).
  exists (80 + vsize v)%nat. split.
  { simpl in Hsize. simpl. destruct Hsize as [<-|[<-|[<-|[<-|[]]]]]; tauto. }
  destruct (walkTransactions _ _ _ _ _ _ _) as [hashes|e] eqn:Ew.
  - apply walkTransactions_result in Ew as (more & -> & Hn & Hr).
    cbn [app]. split; [exact Hr | lia].
  - split; [constructor | simpl; lia].
Qed.

(** X15. [parseTransactionHashesFromBlock] never returns more hashes than
    [parseTxCountFromBlockHex] counts in the same string, and every hash it
    returns is a string of 64 hex digits. *)
Theorem hashes_bounded_by_tx_count blockHex :
  Z.of_nat (length (parseTransactionHashesFromBlock blockHex))
    <= parseTxCountFromBlockHex blockHex
  /\ Forall (fun h => String.length h = 64%nat /\ isHex h = true)
       (parseTransactionHashesFromBlock blockHex).
Proof.
  destruct (parseTransactionHashes_result blockHex) as (start & _ & Hr & Hn).
  split; [exact Hn | exact (hashedRanges_shape _ _ _ Hr)].
Qed.

(** The size of a varint is decided by its first byte. *)
Lemma readVarint_size buffer offset v :
  readVarint buffer offset = Ok v ->
  vsize v = (let firstByte := nth offset buffer 0 in
             if firstByte <? 0xfd then 1%nat
             else if firstByte =? 0xfd then 3%nat
             else if firstByte =? 0xfe then 5%nat else 9%nat).
Proof.
  unfold readVarint. cbv zeta.
  destruct (length buffer <=? offset)%nat; [discriminate|].
  destruct (nth offset buffer 0 <? 253); [intros H; injection H as <-; reflexivity|].
  destruct (nth offset buffer 0 =? 253).
  { destruct (length buffer <? offset + 3)%nat; [discriminate|].
    intros H; injection H as <-; reflexivity. }
  destruct (nth offset buffer 0 =? 254).
  { destruct (length buffer <? offset + 5)%nat; [discriminate|].
    intros H; injection H as <-; reflexivity. }
  destruct (length buffer <? offset + 9)%nat; [discriminate|].
  intros H; injection H as <-; reflexivity.
Qed.

(** X16. Every hash returned is the byte-reversed double SHA-256 of a
    non-empty byte range of the decoded block; the ranges follow one another
    without gap, lie inside the buffer, and the first starts right after the
    transaction count that [readVarint] reads at byte 80: at byte 81, 83, 85
    or 89 according to that varint's first byte.  Where that varint cannot
    be read, nothing is returned. *)
Theorem hashes_cover_consecutive_ranges blockHex :
  let buffer := Buffer_from_hex blockHex in
  match readVarint buffer 80 with
  | Ok txCountResult =>
      vsize txCountResult
      = (let firstByte := nth 80 buffer 0 in
         if firstByte <? 0xfd then 1%nat
         else if firstByte =? 0xfd then 3%nat
         else if firstByte =? 0xfe then 5%nat else 9%nat)
      /\ hashedRanges buffer (80 + vsize txCountResult)
           (parseTransactionHashesFromBlock blockHex)
  | Throw _ => parseTransactionHashesFromBlock blockHex = []
  end.
Proof.
  cbv zeta. unfold parseTransactionHashesFromBlock, tryParseTransactionHashes.
  destruct (readVarint (Buffer_from_hex blockHex) 80) as [v|e] eqn:Ev.
  - split; [exact (readVarint_size _ _ _ Ev)|].
    destruct (String.length blockHex <=? 160)%nat; [constructor|].
    destruct (walkTransactions _ _ _ _ _ _ _) as [hashes|e] eqn:Ew; [|constructor].
    apply walkTransactions_result in Ew as (more & -> & _ & Hr). exact Hr.
  - destruct (String.length blockHex <=? 160)%nat; reflexivity.
Qed.

(** X14. A successful [readVarint] has read 1, 3, 5 or 9 bytes that all lie
    inside the buffer (1 byte exactly when the first byte is below 0xfd),
    and its value is a 32-bit unsigned integer. *)
Theorem readVarint_stays_in_buffer buffer offset v :
  Forall Vault.isByte buffer ->
  readVarint buffer offset = Ok v ->
  (offset + vsize v <= length buffer)%nat
  /\ In (vsize v) [1; 3; 5; 9]%nat
  /\ 0 <= vvalue v < 2 ^ 32
  /\ (vsize v = 1%nat <-> nth offset buffer 0 < 0xfd).
Proof. apply readVarint_bounds. Qed.

Lemma readVarint_stays_in_buffer_witness :
  readVarint [0xfd; 0x34; 0x12; 0x00] 0 = Ok (mkVarint 0x1234 3)
  /\ (0 + vsize (mkVarint 0x1234 3) <= length [0xfd; 0x34; 0x12; 0x00])%nat.
Proof.
  split; [reflexivity|].
  apply (readVarint_stays_in_buffer [0xfd; 0x34; 0x12; 0x00] 0 (mkVarint 0x1234 3)).
  - repeat constructor; unfold Vault.isByte; lia.
  - reflexivity.
Defined.

End CodecFacts.

(* ================================================================== *)
(** * Properties of the unlock lockout                                 *)
(* ================================================================== *)
Module LockoutFacts.
Import Lockout.

Section Unlock.
Variable verifyPassword : string -> bool.

(** X2. A call made while locked out is rejected, and the password is not
    handed to [verifyPassword]: the session, verification log included,
    is unchanged. *)
Lemma locked_out_call_is_rejected e password s :
  lockedOut s (now e) = true ->
  exists minutes, unlockWallet verifyPassword e password s = (s, TooManyAttemptsWait minutes).
Proof. intros H. unfold unlockWallet. rewrite H. eexists. reflexivity. Qed.

(** A failed call (not locked out, wallet data present). *)
Lemma failed_call e password s :
  lockedOut s (now e) = false -> hasWalletData e = true -> hashParses e = true ->
  verifyPassword password = false ->
  unlockWallet verifyPassword e password s =
  if MAX_UNLOCK_ATTEMPTS <=? unlockAttempts s + 1 then
    (mkSession (unlockAttempts s + 1) (Some (nowAtFailure e + LOCKOUT_DURATION)) (isLocked s)
       (Some (unlockAttempts s + 1)) (Some (nowAtFailure e + LOCKOUT_DURATION))
       (verified s ++ [password]), TooManyAttempts)
  else
    (mkSession (unlockAttempts s + 1) (lockoutUntil s) (isLocked s)
       (Some (unlockAttempts s + 1)) (storedLockout s) (verified s ++ [password]),
     InvalidPassword (MAX_UNLOCK_ATTEMPTS - (unlockAttempts s + 1))).
Proof.
  intros HL HD HP HV. unfold unlockWallet. rewrite HL, HD, HP, HV. reflexivity.
Qed.

(** X3. A successful unlock puts the counter back to zero and clears the lockout. *)
Lemma successful_unlock_resets e password s :
  lockedOut s (now e) = false -> hasWalletData e = true -> hashParses e = true ->
  verifyPassword password = true ->
  let s' := fst (unlockWallet verifyPassword e password s) in
  unlockAttempts s' = 0 /\ lockoutUntil s' = None
  /\ storedAttempts s' = None /\ storedLockout s' = None
  /\ (restoreSucceeds e = true ->
      isLocked s' = false /\ snd (unlockWallet verifyPassword e password s) = Unlocked).
Proof.
  intros HL HD HP HV. unfold unlockWallet. rewrite HL, HD, HP, HV. cbn [negb].
  destruct (restoreSucceeds e); cbn; repeat split; discriminate.
Qed.

(** X1. Five failed calls in a row from a session with no failure recorded:
    the first four leave it unlocked-out with 4, 3, 2, 1 attempts remaining,
    the fifth starts a lockout of 15 minutes. *)
Lemma five_failures_start_lockout e1 e2 e3 e4 e5 p1 p2 p3 p4 p5 s :
  unlockAttempts s = 0 -> lockoutUntil s = None ->
  Forall (fun e => hasWalletData e = true /\ hashParses e = true) [e1; e2; e3; e4; e5] ->
  Forall (fun p => verifyPassword p = false) [p1; p2; p3; p4; p5] ->
  let r := unlockAll verifyPassword [(e1, p1); (e2, p2); (e3, p3); (e4, p4); (e5, p5)] s in
  snd r = [InvalidPassword 4; InvalidPassword 3; InvalidPassword 2; InvalidPassword 1;
           TooManyAttempts]
  /\ unlockAttempts (fst r) = 5
  /\ lockoutUntil (fst r) = Some (nowAtFailure e5 + 15 * 60 * 1000)
  /\ forall t, t < nowAtFailure e5 + 15 * 60 * 1000 -> 0 < nowAtFailure e5 ->
       lockedOut (fst r) t = true.
Proof.
  intros HA HU HE HP.
  repeat match goal with H : Forall _ (_ :: _) |- _ => inversion H; subst; clear H end.
  repeat match goal with H : _ /\ _ |- _ => destruct H end.
  destruct s as [a u l sa sl v]. cbn in HA, HU. subst a u.
  cbn [unlockAll].
  repeat (rewrite failed_call by (try assumption; reflexivity);
          cbn [unlockAttempts lockoutUntil isLocked storedAttempts storedLockout verified];
          match goal with
          | |- context [?a <=? ?b] =>
              let r := eval vm_compute in (a <=? b) in change (a <=? b) with r
          end;
          cbv beta iota).
  cbn [fst snd unlockAttempts lockoutUntil].
  split; [reflexivity|]. split; [reflexivity|]. split; [reflexivity|].
  intros t Ht Hpos. unfold lockedOut. cbn [lockoutUntil].
  change LOCKOUT_DURATION with 900000.
  apply andb_true_iff. split.
  - apply negb_true_iff, Z.eqb_neq. lia.
  - apply Z.ltb_lt. lia.
Qed.

(** Once the lockout has expired the counter is still at its maximum, so
    one more failure locks the session out again at once. *)
Lemma failure_after_expiry_locks_again e password s until :
  lockoutUntil s = Some until -> until <= now e -> MAX_UNLOCK_ATTEMPTS <= unlockAttempts s ->
  hasWalletData e = true -> hashParses e = true -> verifyPassword password = false ->
  let r := unlockWallet verifyPassword e password s in
  snd r = TooManyAttempts
  /\ unlockAttempts (fst r) = unlockAttempts s + 1
  /\ lockoutUntil (fst r) = Some (nowAtFailure e + LOCKOUT_DURATION).
Proof.
  intros HU Hexp HA HD HP HV.
  assert (HL : lockedOut s (now e) = false).
  { unfold lockedOut. rewrite HU. apply andb_false_iff. right. apply Z.ltb_ge. exact Hexp. }
  cbv zeta. rewrite failed_call by assumption.
  replace (MAX_UNLOCK_ATTEMPTS <=? unlockAttempts s + 1) with true
    by (symmetry; apply Z.leb_le; lia).
  repeat split.
Qed.

End Unlock.

(** X4. The restore effect: an expired lockout found in sessionStorage is
    cleared and the counter set to zero; a running one is kept. *)
Lemma restore_clears_expired_lockout t attempts until locked :
  until <= t ->
  restoreLockout t attempts (Some until) locked = mkSession 0 None locked None None [].
Proof.
  intros H. unfold restoreLockout. replace (t <? until) with false; [reflexivity|].
  symmetry. apply Z.ltb_ge. exact H.
Qed.

Lemma locked_out_call_is_rejected_witness :
  exists minutes,
    unlockWallet sampleVerify (callAt 6000) "correct horse" lockedSession
    = (lockedSession, TooManyAttemptsWait minutes).
Proof.
  apply (locked_out_call_is_rejected sampleVerify (callAt 6000) "correct horse" lockedSession).
  vm_compute. reflexivity.
Defined.

Lemma successful_unlock_resets_witness :
  let s' := fst (unlockWallet sampleVerify (callAt 905000) "correct horse" lockedSession) in
  unlockAttempts s' = 0 /\ lockoutUntil s' = None
  /\ storedAttempts s' = None /\ storedLockout s' = None
  /\ (restoreSucceeds (callAt 905000) = true ->
      isLocked s' = false
      /\ snd (unlockWallet sampleVerify (callAt 905000) "correct horse" lockedSession) = Unlocked).
Proof.
  apply (successful_unlock_resets sampleVerify (callAt 905000) "correct horse" lockedSession);
    vm_compute; reflexivity.
Defined.

Lemma five_failures_start_lockout_witness :
  unlockAll sampleVerify fiveWrong freshSession
  = (lockedSession,
     [InvalidPassword 4; InvalidPassword 3; InvalidPassword 2; InvalidPassword 1;
      TooManyAttempts])
  /\ lockedOut (fst (unlockAll sampleVerify fiveWrong freshSession)) 904999 = true.
Proof.
  split; [vm_compute; reflexivity|].
  apply (five_failures_start_lockout sampleVerify
           (callAt 1000) (callAt 2000) (callAt 3000) (callAt 4000) (callAt 5000)
           "a" "b" "c" "d" "e" freshSession);
    try reflexivity; try (vm_compute; reflexivity);
    repeat constructor.
Defined.

Lemma failure_after_expiry_locks_again_witness :
  let r := unlockWallet sampleVerify (callAt 905000) "f" lockedSession in
  snd r = TooManyAttempts
  /\ unlockAttempts (fst r) = unlockAttempts lockedSession + 1
  /\ lockoutUntil (fst r) = Some (nowAtFailure (callAt 905000) + LOCKOUT_DURATION).
Proof.
  apply (failure_after_expiry_locks_again sampleVerify (callAt 905000) "f" lockedSession 905000);
    try reflexivity; vm_compute; discriminate.
Defined.

Lemma restore_clears_expired_lockout_witness :
  restoreLockout 905000 (Some 5) (Some 905000) true = mkSession 0 None true None None [].
Proof. apply (restore_clears_expired_lockout 905000 (Some 5) 905000 true). lia. Defined.

(** C5 (evaluation). Five wrong passwords lock the session until
    t = 905000.  A sixth wrong password at t = 905000, when the lockout has
    expired, is verified, finds the counter still at 5, raises it to 6 and
    locks the session for another 15 minutes with the too-many-attempts
    error; the counter is put back to zero only by the restore effect, which
    runs when the provider mounts. *)
Theorem expired_lockout_keeps_counter :
  unlockAll sampleVerify fiveWrong freshSession
  = (lockedSession,
     [InvalidPassword 4; InvalidPassword 3; InvalidPassword 2; InvalidPassword 1;
      TooManyAttempts])
  /\ lockedOut lockedSession 905000 = false
  /\ unlockWallet sampleVerify (callAt 905000) "f" lockedSession
     = (mkSession 6 (Some 1805000) true (Some 6) (Some 1805000)
          ["a"; "b"; "c"; "d"; "e"; "f"]%string, TooManyAttempts)
  /\ unlockAttempts (restoreLockout 905000 (Some 5) (Some 905000) true) = 0.
Proof. repeat split; vm_compute; reflexivity. Qed.

(** ** Reload and guessing *)

(** After every call the two sessionStorage entries mirror the state. *)
Lemma unlockWallet_mirrors verifyPassword e password s :
  let mirrored s :=
    storedLockout s = lockoutUntil s
    /\ (storedAttempts s = Some (unlockAttempts s)
        \/ storedAttempts s = None /\ unlockAttempts s = 0) in
  mirrored s -> mirrored (fst (unlockWallet verifyPassword e password s)).
Proof.
  cbv zeta. intros [HL HA]. unfold unlockWallet.
  destruct (lockedOut s (now e)); [tauto|].
  destruct (negb (hasWalletData e)); [tauto|].
  destruct (negb (hashParses e)); [tauto|].
  cbn [unlockAttempts lockoutUntil isLocked storedAttempts storedLockout verified].
  destruct (negb (verifyPassword password)).
  - destruct (_ <=? _); cbn; auto.
  - destruct (restoreSucceeds e); cbn; auto.
Qed.

Lemma unlockAll_mirrors verifyPassword calls : forall s,
  storedLockout s = lockoutUntil s
  /\ (storedAttempts s = Some (unlockAttempts s)
      \/ storedAttempts s = None /\ unlockAttempts s = 0) ->
  let s' := fst (unlockAll verifyPassword calls s) in
  storedLockout s' = lockoutUntil s'
  /\ (storedAttempts s' = Some (unlockAttempts s')
      \/ storedAttempts s' = None /\ unlockAttempts s' = 0).
Proof.
  induction calls as [|[e password] calls IH]; intros s H; [exact H|].
  cbn [unlockAll].
  pose proof (unlockWallet_mirrors verifyPassword e password s H) as H1.
  destruct (unlockWallet verifyPassword e password s) as [s1 o]. cbn [fst] in H1.
  specialize (IH s1 H1). cbv zeta in IH.
  destruct (unlockAll verifyPassword calls s1) as [s2 os]. exact IH.
Qed.

(** X22. A reload does not reset the lockout: when the provider mounts again
    on the sessionStorage left by any sequence of unlock calls, and the
    stored lockout (if any) has not expired, the restore effect brings back
    the attempt counter and the lockout as they were. *)
Theorem reload_restores_counter_and_lockout verifyPassword calls t locked :
  let s := fst (unlockAll verifyPassword calls freshSession) in
  (forall until, lockoutUntil s = Some until -> t < until) ->
  let r := restoreLockout t (storedAttempts s) (storedLockout s) locked in
  unlockAttempts r = unlockAttempts s /\ lockoutUntil r = lockoutUntil s
  /\ storedAttempts r = storedAttempts s /\ storedLockout r = storedLockout s.
Proof.
  cbv zeta. intros Hrun.
  destruct (unlockAll_mirrors verifyPassword calls freshSession) as [HL HA].
  { split; [reflexivity | right; split; reflexivity]. }
  set (s := fst (unlockAll verifyPassword calls freshSession)) in *.
  unfold restoreLockout. rewrite HL.
  destruct (lockoutUntil s) as [until|] eqn:EU.
  - specialize (Hrun until eq_refl). apply Z.ltb_lt in Hrun. rewrite Hrun.
    cbn. destruct HA as [-> | [-> ->]]; repeat split; congruence.
  - cbn. destruct HA as [-> | [-> ->]]; repeat split; congruence.
Qed.

Lemma reload_restores_counter_and_lockout_witness :
  let s := fst (unlockAll sampleVerify fiveWrong freshSession) in
  let r := restoreLockout 6000 (storedAttempts s) (storedLockout s) true in
  unlockAttempts r = unlockAttempts s /\ lockoutUntil r = lockoutUntil s
  /\ storedAttempts r = storedAttempts s /\ storedLockout r = storedLockout s.
Proof.
  apply (reload_restores_counter_and_lockout sampleVerify fiveWrong 6000 true).
  vm_compute. intros u H. injection H as <-. reflexivity.
Defined.




(** ** Calls that overlap *)

(** A call that no other call overlaps is [unlockWallet]. *)
Lemma unlockWallet_in_two_steps verifyPassword e password s :
  unlockWallet verifyPassword e password s =
  match begin (rendered s) e password s with
  | (s1, inl o) => (s1, o)
  | (s1, inr w) => resume verifyPassword e w s1
  end.
Proof.
  unfold unlockWallet, begin, resume, lockedOut, rendered. cbn [seenLockout seenAttempts].
  destruct (match lockoutUntil s with Some _ => _ | None => _ end); [reflexivity|].
  destruct (negb (hasWalletData e)); [reflexivity|].
  destruct (negb (hashParses e)); [reflexivity|].
  cbn [caller guess seenAttempts unlockAttempts lockoutUntil isLocked storedAttempts
       storedLockout verified].
  reflexivity.
Qed.





End LockoutFacts.

(* ================================================================== *)
(** * Properties of the RPC client                                     *)
(* ================================================================== *)
Module RpcFacts.
Import Rpc.

Lemma settle_other h h' o (ps : gmap nat settlement) :
  h' <> h -> settle h o ps !! h' = ps !! h'.
Proof.
  intros Hne. unfold settle. destruct (ps !! h) as [[]|]; try reflexivity.
  apply lookup_insert_ne. congruence.
Qed.

Lemma settle_pending h o (ps : gmap nat settlement) :
  ps !! h = Some Pending -> settle h o ps !! h = Some o.
Proof. intros H. unfold settle. rewrite H. apply lookup_insert_eq. Qed.

(** A message whose id is in the pending map is a response. *)
Lemma onMessage_response c payload n h :
  payload <> JNull -> field payload "id" = Some (JNum n) -> pending c !! n = Some h ->
  onMessage c (Some payload) =
  mkClient (connected c) (id c) (delete n (pending c)) (subscriptions c)
    (settle h (if truthy (field payload "error")
               then Rejected (errorMessage (field payload "error"))
               else Resolved (field payload "result")) (promises c))
    (nextPromise c) (sent c) (delivered c) (parseErrors c).
Proof.
  intros Hn Hid Hp. unfold onMessage.
  assert (E : pendingFor c payload = Some (n, h)) by (unfold pendingFor; rewrite Hid, Hp; reflexivity).
  rewrite E. destruct payload; try reflexivity. congruence.
Qed.

(** Any other message leaves the pending map and the promises alone and
    reaches at most the one handler registered under its method. *)
Lemma onMessage_notification c payload :
  pendingFor c payload = None ->
  let c' := onMessage c (Some payload) in
  pending c' = pending c /\ promises c' = promises c
  /\ (delivered c' = delivered c
      \/ exists method params handler,
           field payload "method" = Some (JStr method)
           /\ field payload "params" = Some params
           /\ subscriptions c !! method = Some handler
           /\ delivered c' = delivered c ++ [(handler, params)]).
Proof.
  intros E. cbv zeta. unfold onMessage. rewrite E.
  assert (G :
    let c' := if truthy (field payload "method") && truthy (field payload "params") then
            match field payload "method", field payload "params" with
            | Some (JStr method), Some params =>
                match subscriptions c !! method with
                | Some handler =>
                    mkClient (connected c) (id c) (pending c) (subscriptions c)
                      (promises c) (nextPromise c) (sent c)
                      (delivered c ++ [(handler, params)]) (parseErrors c)
                | None => c
                end
            | _, _ => c
            end
          else c in
    pending c' = pending c /\ promises c' = promises c
  /\ (delivered c' = delivered c
      \/ exists method params handler,
           field payload "method" = Some (JStr method)
           /\ field payload "params" = Some params
           /\ subscriptions c !! method = Some handler
           /\ delivered c' = delivered c ++ [(handler, params)])).
  { cbv zeta. destruct (_ && _); [|auto].
    destruct (field payload "method") as [[| | |method| |]|]; auto.
    destruct (field payload "params") as [params|]; auto.
    destruct (subscriptions c !! method) as [handler|] eqn:Es; auto.
    cbn. split; [reflexivity|]. split; [reflexivity|]. right. eauto 10. }
  destruct payload; exact G.
Qed.

(** What a message that is no response does: when its method and params
    are truthy, its method is a string and a handler is registered under
    that string, the handler is called with the params; in every other case
    nothing happens.  Either way the pending map and the promises stay. *)
Lemma onMessage_dispatch c payload :
  pendingFor c payload = None ->
  let c' := onMessage c (Some payload) in
  pending c' = pending c /\ promises c' = promises c
  /\ subscriptions c' = subscriptions c
  /\ (forall method params handler,
        field payload "method" = Some (JStr method) -> method <> ""%string ->
        field payload "params" = Some params -> truthy (Some params) = true ->
        subscriptions c !! method = Some handler ->
        delivered c' = delivered c ++ [(handler, params)])
  /\ (truthy (field payload "method") && truthy (field payload "params") = false
      \/ (forall method, field payload "method" = Some (JStr method) ->
            subscriptions c !! method = None) ->
      delivered c' = delivered c).
Proof.
  intros E. cbv zeta. unfold onMessage. rewrite E.
  set (c' := if truthy (field payload "method") && truthy (field payload "params") then
            match field payload "method", field payload "params" with
            | Some (JStr method), Some params =>
                match subscriptions c !! method with
                | Some handler =>
                    mkClient (connected c) (id c) (pending c) (subscriptions c)
                      (promises c) (nextPromise c) (sent c)
                      (delivered c ++ [(handler, params)]) (parseErrors c)
                | None => c
                end
            | _, _ => c
            end
          else c).
  assert (G :
    pending c' = pending c /\ promises c' = promises c
    /\ subscriptions c' = subscriptions c
    /\ (forall method params handler,
        field payload "method" = Some (JStr method) -> method <> ""%string ->
        field payload "params" = Some params -> truthy (Some params) = true ->
        subscriptions c !! method = Some handler ->
        delivered c' = delivered c ++ [(handler, params)])
    /\ (truthy (field payload "method") && truthy (field payload "params") = false
        \/ (forall method, field payload "method" = Some (JStr method) ->
              subscriptions c !! method = None) ->
        delivered c' = delivered c)).
  { subst c'. split; [|split; [|split; [|split]]].
    - destruct (_ && _); [|reflexivity].
      destruct (field payload "method") as [[| | |method| |]|]; try reflexivity.
      destruct (field payload "params") as [params|]; try reflexivity.
      destruct (subscriptions c !! method); reflexivity.
    - destruct (_ && _); [|reflexivity].
      destruct (field payload "method") as [[| | |method| |]|]; try reflexivity.
      destruct (field payload "params") as [params|]; try reflexivity.
      destruct (subscriptions c !! method); reflexivity.
    - destruct (_ && _); [|reflexivity].
      destruct (field payload "method") as [[| | |method| |]|]; try reflexivity.
      destruct (field payload "params") as [params|]; try reflexivity.
      destruct (subscriptions c !! method); reflexivity.
    - intros method params handler Hm Hne Hp Ht Hs. rewrite Hm, Hp, Ht, Hs.
      cbn [truthy]. destruct (String.eqb_spec method ""); [contradiction|].
      reflexivity.
    - intros [H|H]; [rewrite H; reflexivity|].
      destruct (_ && _); [|reflexivity].
      destruct (field payload "method") as [[| | |method| |]|]; try reflexivity.
      destruct (field payload "params") as [params|]; try reflexivity.
      rewrite (H method eq_refl). reflexivity. }
  destruct payload; exact G.
Qed.

Lemma no_id_not_pending c payload : field payload "id" = None -> pendingFor c payload = None.
Proof. intros H. unfold pendingFor. rewrite H. reflexivity. Qed.

Lemma connect_newClient :
  connect newClient "wss://electrum.example:50004" = Ok connectedClient.
Proof. reflexivity. Qed.

(** Calls 1, 2, 3 answered in the order 3, 2, 1. *)
Lemma out_of_order_responses m1 m2 m3 p1 p2 p3 r1 r2 r3 :
  let '(c1, h1) := send connectedClient m1 p1 in
  let '(c2, h2) := send c1 m2 p2 in
  let '(c3, h3) := send c2 m3 p3 in
  let c4 := onMessage c3 (Some (response 3 r3)) in
  let c5 := onMessage c4 (Some (response 2 r2)) in
  let c6 := onMessage c5 (Some (response 1 r1)) in
  sent c3 = [(1, m1, p1); (2, m2, p2); (3, m3, p3)]
  /\ promises c3 !! h1 = Some Pending /\ promises c3 !! h2 = Some Pending
  /\ promises c3 !! h3 = Some Pending
  /\ promises c4 !! h3 = Some (Resolved (Some r3)) /\ promises c4 !! h2 = Some Pending
  /\ promises c4 !! h1 = Some Pending
  /\ promises c6 !! h1 = Some (Resolved (Some r1))
  /\ promises c6 !! h2 = Some (Resolved (Some r2))
  /\ promises c6 !! h3 = Some (Resolved (Some r3))
  /\ pending c6 = ∅.
Proof. vm_compute. repeat split. Qed.

(** C4, as stated, fails: with call 1 in flight, a message that carries
    id 7 (no call has that id) and names a method with parameters is not
    handled as a response; it is dispatched to the subscription handler. *)
Lemma message_with_unknown_id_is_dispatched :
  field taggedNotification "id" = Some (JNum 7)
  /\ pending oneCallClient !! 7 = None
  /\ delivered (onMessage oneCallClient (Some taggedNotification))
     = [(9%nat, JArr [JStr "5a1f"; JStr "c0de"])]
  /\ pending (onMessage oneCallClient (Some taggedNotification)) = pending oneCallClient
  /\ promises (onMessage oneCallClient (Some taggedNotification)) = promises oneCallClient.
Proof. repeat split; vm_compute; reflexivity. Qed.

(** C4, amended. Inbound routing goes by the pending map.  A message
    whose id is the id of a pending call is a response: that entry is
    removed, that call's promise is rejected when the error field is truthy
    and resolved with the result otherwise, no other promise changes and no
    handler runs.  Every other message (no id, or an id that no pending call
    has) leaves the pending map and all promises untouched; when its method
    and params are truthy and a handler is registered under its method
    name, that handler is called with the params, once, and no other; when
    they are not, or no handler is registered under that name, no handler
    is called.  Calls with ids 1, 2, 3 answered in the order 3, 2, 1 each
    resolve with their own result. *)
Theorem inbound_routing_by_pending_id :
  (forall c payload, payload <> JNull ->
     let c' := onMessage c (Some payload) in
     (forall n h, field payload "id" = Some (JNum n) -> pending c !! n = Some h ->
        pending c' = delete n (pending c)
        /\ (promises c !! h = Some Pending ->
            promises c' !! h =
            Some (if truthy (field payload "error")
                  then Rejected (errorMessage (field payload "error"))
                  else Resolved (field payload "result")))
        /\ (forall h', h' <> h -> promises c' !! h' = promises c !! h')
        /\ delivered c' = delivered c)
     /\ (field payload "id" = None -> pendingFor c payload = None)
     /\ (pendingFor c payload = None ->
         pending c' = pending c /\ promises c' = promises c
         /\ (forall method params handler,
               field payload "method" = Some (JStr method) -> method <> ""%string ->
               field payload "params" = Some params -> truthy (Some params) = true ->
               subscriptions c !! method = Some handler ->
               delivered c' = delivered c ++ [(handler, params)])
         /\ (truthy (field payload "method") && truthy (field payload "params") = false
             \/ (forall method, field payload "method" = Some (JStr method) ->
                   subscriptions c !! method = None) ->
             delivered c' = delivered c)))
  /\ (forall m1 m2 m3 p1 p2 p3 r1 r2 r3,
        let '(c1, h1) := send connectedClient m1 p1 in
        let '(c2, h2) := send c1 m2 p2 in
        let '(c3, h3) := send c2 m3 p3 in
        let c6 := onMessage (onMessage (onMessage c3 (Some (response 3 r3)))
                               (Some (response 2 r2))) (Some (response 1 r1)) in
        sent c3 = [(1, m1, p1); (2, m2, p2); (3, m3, p3)]
        /\ promises c6 !! h1 = Some (Resolved (Some r1))
        /\ promises c6 !! h2 = Some (Resolved (Some r2))
        /\ promises c6 !! h3 = Some (Resolved (Some r3))).
Proof.
  split.
  - intros c payload Hn. cbv zeta. split; [|split].
    + intros n h Hid Hp. rewrite (onMessage_response c payload n h Hn Hid Hp).
      cbn [pending promises delivered].
      split; [reflexivity|]. split; [apply settle_pending|].
      split; [intros h' Hne; apply settle_other; exact Hne | reflexivity].
    + apply no_id_not_pending.
    + intros E. destruct (onMessage_dispatch c payload E) as (P1 & P2 & _ & P3 & P4).
      split; [exact P1|]. split; [exact P2|]. split; [exact P3 | exact P4].
  - intros m1 m2 m3 p1 p2 p3 r1 r2 r3.
    pose proof (out_of_order_responses m1 m2 m3 p1 p2 p3 r1 r2 r3) as H.
    destruct (send connectedClient m1 p1) as [c1 h1].
    destruct (send c1 m2 p2) as [c2 h2].
    destruct (send c2 m3 p3) as [c3 h3].
    cbv zeta in H. cbv zeta. tauto.
Qed.

(** Call 1 is answered; a notification for the subscribed method reaches
    handler 9; the same notification under a method that nobody subscribed
    to reaches no handler. *)
Lemma inbound_routing_by_pending_id_witness :
  promises (onMessage oneCallClient (Some (response 1 (JStr "pong")))) !! 0%nat
  = Some (Resolved (Some (JStr "pong")))
  /\ pending (onMessage oneCallClient (Some (response 1 (JStr "pong")))) = delete 1 (pending oneCallClient)
  /\ pending (onMessage oneCallClient (Some taggedNotification)) = pending oneCallClient
  /\ delivered (onMessage oneCallClient (Some taggedNotification))
     = delivered oneCallClient ++ [(9%nat, JArr [JStr "5a1f"; JStr "c0de"])]
  /\ delivered (onMessage oneCallClient (Some headersNotification)) = delivered oneCallClient.
Proof.
  pose proof (proj1 inbound_routing_by_pending_id oneCallClient (response 1 (JStr "pong"))
                ltac:(discriminate)) as [R _].
  pose proof (proj1 inbound_routing_by_pending_id oneCallClient taggedNotification
                ltac:(discriminate)) as (_ & _ & N).
  pose proof (proj1 inbound_routing_by_pending_id oneCallClient headersNotification
                ltac:(discriminate)) as (_ & _ & M).
  specialize (R 1 0%nat eq_refl eq_refl) as (R1 & R2 & _).
  specialize (R2 eq_refl).
  specialize (N eq_refl) as (N1 & _ & N3 & _).
  specialize (M eq_refl) as (_ & _ & _ & M4).
  split; [exact R2|]. split; [exact R1|]. split; [exact N1|]. split.
  - apply (N3 "blockchain.scripthash.subscribe"%string (JArr [JStr "5a1f"; JStr "c0de"]) 9%nat);
      [reflexivity | discriminate | reflexivity | reflexivity | reflexivity].
  - apply M4. right. intros method H. injection H as <-. reflexivity.
Defined.

(** What the fold of [reset] does to the promises: a promise that was
    pending and is stored in the map is rejected, every other promise is
    left as it was. *)
Lemma reject_all_spec (o : settlement) (ps : gmap nat settlement) (m : gmap Z nat) :
  let ps' := map_fold (fun _ h acc => settle h o acc) ps m in
  (forall h, ps !! h <> Some Pending -> ps' !! h = ps !! h)
  /\ (forall h, ps !! h = Some Pending -> (exists n, m !! n = Some h) -> ps' !! h = Some o)
  /\ (forall h, ps !! h = Some Pending -> ~ (exists n, m !! n = Some h) ->
      ps' !! h = Some Pending).
Proof.
  cbv zeta.
  enough (G : 
    (forall h, ps !! h <> Some Pending -> map_fold (fun _ h acc => settle h o acc) ps m !! h = ps !! h)
  /\ (forall h, ps !! h = Some Pending -> (exists n, m !! n = Some h) -> map_fold (fun _ h acc => settle h o acc) ps m !! h = Some o)
  /\ (forall h, ps !! h = Some Pending -> ~ (exists n, m !! n = Some h) ->
      map_fold (fun _ h acc => settle h o acc) ps m !! h = Some Pending)
  /\ (forall h, ps !! h = Some Pending ->
      map_fold (fun _ h acc => settle h o acc) ps m !! h = Some o
      \/ map_fold (fun _ h acc => settle h o acc) ps m !! h = Some Pending)) by tauto.
  apply (map_fold_weak_ind (fun (r : gmap nat settlement) (m : gmap Z nat) =>
    (forall h, ps !! h <> Some Pending -> r !! h = ps !! h)
    /\ (forall h, ps !! h = Some Pending -> (exists n, m !! n = Some h) -> r !! h = Some o)
    /\ (forall h, ps !! h = Some Pending -> ~ (exists n, m !! n = Some h) ->
        r !! h = Some Pending)
    /\ (forall h, ps !! h = Some Pending -> r !! h = Some o \/ r !! h = Some Pending))).
  - split; [reflexivity|]. split.
    + intros h _ [n Hn]. rewrite lookup_empty in Hn. discriminate.
    + split; [intros h Hp _; exact Hp | intros h Hp; right; exact Hp].
  - intros n h m' r Hfresh (IA & IB & IC & ID).
    assert (Hset : forall h', ps !! h' = Some Pending -> h' = h -> settle h o r !! h' = Some o).
    { intros h' Hp ->. unfold settle. destruct (ID h Hp) as [E|E]; rewrite E.
      - destruct o; first [apply lookup_insert_eq | exact E]. 
      - apply lookup_insert_eq. }
    split; [|split; [|split]].
    + intros h' Hp. destruct (decide (h' = h)) as [->|Hne].
      * pose proof (IA h Hp) as Eh. unfold settle.
        destruct (r !! h) as [[]|] eqn:E; try (rewrite E; exact Eh). congruence.
      * rewrite settle_other by exact Hne. apply IA, Hp.
    + intros h' Hp [n1 H1]. destruct (decide (h' = h)) as [->|Hne]; [apply Hset; trivial|].
      rewrite settle_other by exact Hne. apply IB; [exact Hp|]. exists n1.
      destruct (decide (n = n1)) as [->|Hn]; [rewrite lookup_insert_eq in H1; congruence|].
      rewrite lookup_insert_ne in H1 by exact Hn. exact H1.
    + intros h' Hp Hno. destruct (decide (h' = h)) as [->|Hne].
      * exfalso. apply Hno. exists n. apply lookup_insert_eq.
      * rewrite settle_other by exact Hne. apply IC; [exact Hp|].
        intros [n0 H0]. apply Hno. exists n0. rewrite lookup_insert_ne; [exact H0|].
        intros ->. congruence.
    + intros h' Hp. destruct (decide (h' = h)) as [->|Hne]; [left; apply Hset; trivial|].
      rewrite settle_other by exact Hne. apply ID, Hp.
Qed.

(** X12. [reset] rejects every pending call and empties both maps. *)
Theorem reset_rejects_all_pending c :
  pending (reset c) = ∅ /\ subscriptions (reset c) = ∅
  /\ (forall n h, pending c !! n = Some h -> promises c !! h = Some Pending ->
      promises (reset c) !! h = Some (Rejected (JStr "Disconnected")))
  /\ (forall h, ~ (exists n, pending c !! n = Some h) ->
      promises (reset c) !! h = promises c !! h).
Proof.
  unfold reset. cbn [pending subscriptions promises].
  destruct (reject_all_spec (Rejected (JStr "Disconnected")) (promises c) (pending c))
    as (A & B & C).
  split; [reflexivity|]. split; [reflexivity|]. split.
  - intros n h Hn Hp. apply B; [exact Hp | exists n; exact Hn].
  - intros h Hno. destruct (promises c !! h) as [[]|] eqn:E.
    + apply C; assumption.
    + rewrite A; congruence.
    + rewrite A; congruence.
    + rewrite A; congruence.
Qed.

(** X13. The timer of one call rejects that call only. *)
Theorem timeout_rejects_only_its_call c n h :
  pending c !! n = Some h ->
  let c' := onTimeout c n h in
  pending c' = delete n (pending c)
  /\ (promises c !! h = Some Pending ->
      promises c' !! h = Some (Rejected (JStr "Electrum request timed out")))
  /\ (forall h', h' <> h -> promises c' !! h' = promises c !! h')
  /\ (forall n', n' <> n -> pending c' !! n' = pending c !! n').
Proof.
  intros Hn. cbv zeta. unfold onTimeout. rewrite Hn. cbn [pending promises].
  split; [reflexivity|]. split.
  - intros Hp. unfold settle. rewrite Hp. apply lookup_insert_eq.
  - split; [intros h' Hne; apply settle_other, Hne|].
    intros n' Hne. apply lookup_delete_ne. congruence.
Qed.

Lemma reset_rejects_all_pending_witness :
  promises (reset oneCallClient) !! 0%nat = Some (Rejected (JStr "Disconnected")).
Proof.
  apply (proj1 (proj2 (proj2 (reset_rejects_all_pending oneCallClient))) 1 0%nat);
    reflexivity.
Defined.

Lemma timeout_rejects_only_its_call_witness :
  promises (onTimeout oneCallClient 1 0) !! 0%nat
  = Some (Rejected (JStr "Electrum request timed out")).
Proof.
  apply (proj1 (proj2 (timeout_rejects_only_its_call oneCallClient 1 0%nat eq_refl)));
    reflexivity.
Defined.

(** ** Invariants of a connected client *)

Lemma consistent_injective w n n' h :
  consistent w -> pending (cl w) !! n = Some h -> pending (cl w) !! n' = Some h -> n = n'.
Proof.
  intros (_ & I1 & _ & _ & I4) H H'.
  apply I1 in H as [_ H]. apply I1 in H' as [_ H'].
  revert I4 H H'. generalize (timers w). intros l. induction l as [|[m g] l IH]; [contradiction|].
  cbn [map fst snd]. intros ND [E|H] [E'|H'].
  - congruence.
  - injection E as -> ->. apply List.NoDup_cons_iff in ND as [ND _].
    exfalso. apply ND. change h with (snd (n', h)). apply in_map. exact H'.
  - injection E' as -> ->. apply List.NoDup_cons_iff in ND as [ND _].
    exfalso. apply ND. change h with (snd (n, h)). apply in_map. exact H.
  - apply List.NoDup_cons_iff in ND as [_ ND]. exact (IH ND H H').
Qed.

Lemma consistent_timer w n h h' :
  consistent w -> In (n, h) (timers w) -> pending (cl w) !! n = Some h' -> h' = h.
Proof.
  intros (_ & I1 & _ & I3 & _) H H'. apply I1 in H' as [_ H'].
  revert I3 H H'. generalize (timers w). intros l. induction l as [|[m g] l IH]; [contradiction|].
  cbn [map fst snd]. intros ND [E|H] [E'|H'].
  - congruence.
  - injection E as -> ->. apply List.NoDup_cons_iff in ND as [ND _].
    exfalso. apply ND. change n with (fst (n, h')). apply in_map. exact H'.
  - injection E' as -> ->. apply List.NoDup_cons_iff in ND as [ND _].
    exfalso. apply ND. change n with (fst (n, h)). apply in_map. exact H.
  - apply List.NoDup_cons_iff in ND as [_ ND]. exact (IH ND H H').
Qed.

Lemma onMessage_frame c data :
  id (onMessage c data) = id c /\ nextPromise (onMessage c data) = nextPromise c
  /\ connected (onMessage c data) = connected c.
Proof.
  unfold onMessage, logParseError.
  assert (G : forall payload,
    let c' := match pendingFor c payload with
      | Some (n, h) =>
          mkClient (connected c) (id c) (delete n (pending c)) (subscriptions c)
            (settle h (if truthy (field payload "error")
                       then Rejected (errorMessage (field payload "error"))
                       else Resolved (field payload "result")) (promises c))
            (nextPromise c) (sent c) (delivered c) (parseErrors c)
      | None =>
          if truthy (field payload "method") && truthy (field payload "params") then
            match field payload "method", field payload "params" with
            | Some (JStr method), Some params =>
                match subscriptions c !! method with
                | Some handler =>
                    mkClient (connected c) (id c) (pending c) (subscriptions c)
                      (promises c) (nextPromise c) (sent c)
                      (delivered c ++ [(handler, params)]) (parseErrors c)
                | None => c
                end
            | _, _ => c
            end
          else c
      end in
    id c' = id c /\ nextPromise c' = nextPromise c /\ connected c' = connected c).
  { intros payload. cbv zeta. destruct (pendingFor c payload) as [[n h]|]; [cbn; tauto|].
    destruct (_ && _); [|tauto].
    destruct (field payload "method") as [[| | |method| |]|]; try tauto.
    destruct (field payload "params") as [params|]; try tauto.
    destruct (subscriptions c !! method); cbn; tauto. }
  destruct data as [payload|]; [|cbn; tauto].
  specialize (G payload). cbv zeta in G.
  destruct payload; first [exact G | cbn; tauto].
Qed.

Lemma pendingFor_Some c payload n h :
  pendingFor c payload = Some (n, h) ->
  payload <> JNull /\ field payload "id" = Some (JNum n) /\ pending c !! n = Some h.
Proof.
  unfold pendingFor. destruct (field payload "id") as [[| |m| | |]|] eqn:E; try discriminate.
  destruct (pending c !! m) as [g|] eqn:P; [|discriminate].
  intros H. injection H as <- <-. split; [|tauto].
  intros ->. discriminate.
Qed.

Lemma In_without {A} (x : A) l k y :
  nth_error l k = Some y -> In x l -> x <> y -> In x (firstn k l ++ skipn (S k) l).
Proof.
  intros Hk Hin Hne. apply nth_error_split in Hk as (l1 & l2 & -> & <-).
  rewrite firstn_app, Nat.sub_diag, firstn_all, firstn_O, app_nil_r.
  replace (S (length l1)) with (length l1 + 1)%nat by lia.
  rewrite skipn_app, skipn_all2 by lia.
  replace (length l1 + 1 - length l1)%nat with 1%nat by lia. cbn [skipn app].
  apply in_app_iff in Hin as [H|[H|H]]; apply in_app_iff; [left; exact H | congruence | right; exact H].
Qed.

Lemma without_incl {A} (l : list A) k y :
  nth_error l k = Some y ->
  exists l1 l2, l = l1 ++ y :: l2 /\ firstn k l ++ skipn (S k) l = l1 ++ l2.
Proof.
  intros Hk. apply nth_error_split in Hk as (l1 & l2 & -> & <-).
  exists l1, l2. split; [reflexivity|].
  rewrite firstn_app, Nat.sub_diag, firstn_all, firstn_O, app_nil_r.
  replace (S (length l1)) with (length l1 + 1)%nat by lia.
  rewrite skipn_app, skipn_all2 by lia.
  replace (length l1 + 1 - length l1)%nat with 1%nat by lia. reflexivity.
Qed.

Lemma afterSend_consistent w method params subs :
  consistent w ->
  consistent (afterSend w
    (send (mkClient (connected (cl w)) (id (cl w)) (pending (cl w)) subs (promises (cl w))
             (nextPromise (cl w)) (sent (cl w)) (delivered (cl w)) (parseErrors (cl w)))
       method params)).
Proof.
  intros (I0 & I1 & I2 & I3 & I4). unfold afterSend, send. cbn [connected id pending promises nextPromise].
  destruct (connected (cl w)) eqn:C; cbn [negb fst snd]; unfold consistent; cbn [cl timers id pending promises nextPromise].
  - split; [lia|]. split; [|split; [|split]].
    + intros n h Hn. destruct (decide (n = id (cl w) + 1)) as [->|Hne].
      * rewrite lookup_insert_eq in Hn. injection Hn as <-.
        split; [apply lookup_insert_eq | apply in_app_iff; right; left; reflexivity].
      * rewrite lookup_insert_ne in Hn by congruence.
        destruct (I1 n h Hn) as [Hp Hin]. destruct (I2 n h Hin) as [_ Hlt].
        split; [|apply in_app_iff; left; exact Hin].
        rewrite lookup_insert_ne by lia. exact Hp.
    + intros n h Hin. apply in_app_iff in Hin as [Hin|[E|[]]].
      * destruct (I2 n h Hin). lia.
      * injection E as <- <-. lia.
    + rewrite map_app. cbn [map fst]. apply List.NoDup_app; [exact I3 | |].
      * constructor; [intros [] | constructor].
      * intros x Hx [E|[]]. apply in_map_iff in Hx as ([n h] & <- & Hin).
        destruct (I2 n h Hin). cbn [fst] in *. lia.
    + rewrite map_app. cbn [map snd]. apply List.NoDup_app; [exact I4 | |].
      * constructor; [intros [] | constructor].
      * intros x Hx [E|[]]. apply in_map_iff in Hx as ([n h] & <- & Hin).
        destruct (I2 n h Hin). cbn [snd] in *. lia.
  - split; [exact I0|]. split; [|split; [|split]]; try assumption.
    + intros n h Hn. destruct (I1 n h Hn) as [Hp Hin]. destruct (I2 n h Hin) as [_ Hlt].
      split; [|exact Hin]. rewrite lookup_insert_ne by lia. exact Hp.
    + intros n h Hin. destruct (I2 n h Hin). lia.
Qed.

Lemma step_consistent w e : consistent w -> consistent (step w e).
Proof.
  intros I. destruct e as [method params|scripthash handler|data|k|]; cbn [step].
  - pose proof (afterSend_consistent w method params (subscriptions (cl w)) I) as H.
    destruct (cl w) eqn:E. cbn in H. cbn. rewrite <- E in *. exact H.
  - unfold subscribeScripthash.
    pose proof (afterSend_consistent w "blockchain.scripthash.subscribe"
                  (JArr [JStr scripthash])
                  (<["blockchain.scripthash.subscribe"%string := handler]> (subscriptions (cl w))) I)
      as H.
    unfold afterSend in *. cbn [connected] in H. exact H.
  - destruct (onMessage_frame (cl w) data) as (Fid & Fnext & _).
    pose proof I as (I0 & I1 & I2 & I3 & I4).
    unfold consistent. cbn [cl timers]. rewrite Fid, Fnext.
    split; [exact I0|]. split; [|tauto].
    destruct data as [payload|]; [|exact I1].
    destruct (pendingFor (cl w) payload) as [[n h]|] eqn:P.
    + apply pendingFor_Some in P as (Hn & Hid & Hp).
      rewrite (onMessage_response _ _ _ _ Hn Hid Hp). cbn [pending promises].
      intros n' h' H'. destruct (decide (n' = n)) as [->|Hne].
      * rewrite lookup_delete_eq in H'. discriminate.
      * rewrite lookup_delete_ne in H' by congruence.
        destruct (I1 n' h' H') as [Hq Hin]. split; [|exact Hin].
        rewrite settle_other; [exact Hq|].
        intros ->. apply Hne. exact (consistent_injective w n' n h I H' Hp).
    + destruct (onMessage_notification (cl w) payload P) as (-> & -> & _). exact I1.
  - destruct (nth_error (timers w) k) as [[n h]|] eqn:K; [|exact I].
    pose proof I as (I0 & I1 & I2 & I3 & I4).
    assert (Hin : In (n, h) (timers w)) by (eapply nth_error_In; exact K).
    destruct (without_incl _ _ _ K) as (l1 & l2 & El & Ew).
    unfold consistent. cbn [cl timers]. rewrite Ew.
    assert (Hsub : forall x, In x (l1 ++ l2) -> In x (timers w)).
    { intros x Hx. rewrite El. apply in_app_iff in Hx as [Hx|Hx]; apply in_app_iff;
        [left | right; right]; exact Hx. }
    assert (ND3 : List.NoDup (map fst (l1 ++ l2))).
    { rewrite El, map_app in I3. cbn [map] in I3. apply List.NoDup_remove_1 in I3.
      rewrite map_app. exact I3. }
    assert (ND4 : List.NoDup (map snd (l1 ++ l2))).
    { rewrite El, map_app in I4. cbn [map] in I4. apply List.NoDup_remove_1 in I4.
      rewrite map_app. exact I4. }
    unfold onTimeout. destruct (pending (cl w) !! n) as [h0|] eqn:P.
    + assert (h0 = h) as -> by (eapply consistent_timer; eassumption).
      cbn [id pending promises nextPromise].
      split; [exact I0|]. split; [|split; [|split]]; try assumption.
      * intros n' h' H'. destruct (decide (n' = n)) as [->|Hne].
        { rewrite lookup_delete_eq in H'. discriminate. }
        rewrite lookup_delete_ne in H' by congruence.
        destruct (I1 n' h' H') as [Hq Hin']. split.
        { rewrite settle_other; [exact Hq|].
          intros ->. apply Hne. exact (consistent_injective w n' n h I H' P). }
        rewrite <- Ew. eapply In_without; [exact K | exact Hin' | congruence].
      * intros n' h' H'. apply I2, Hsub, H'.
    + split; [exact I0|]. split; [|split; [|split]]; try assumption.
      * intros n' h' H'. destruct (I1 n' h' H') as [Hq Hin']. split; [exact Hq|].
        rewrite <- Ew. eapply In_without; [exact K | exact Hin' | congruence].
      * intros n' h' H'. apply I2, Hsub, H'.
  - pose proof I as (I0 & I1 & I2 & I3 & I4).
    unfold consistent, onClose, reset. cbn [cl timers id pending promises nextPromise].
    split; [exact I0|]. split; [|tauto].
    intros n h H. rewrite lookup_empty in H. discriminate.
Qed.

Lemma run_consistent events : forall w, consistent w -> consistent (run events w).
Proof.
  induction events as [|e events IH]; intros w I; [exact I|].
  apply IH, step_consistent, I.
Qed.

Lemma connect_consistent url c : connect newClient url = Ok c -> consistent (mkWorld c []).
Proof.
  unfold connect. destruct (negb _); [discriminate|]. intros H. injection H as <-.
  unfold consistent. cbn. split; [lia|]. split; [|split; [|split]].
  - intros n h H. rewrite lookup_empty in H. discriminate.
  - intros n h [].
  - constructor.
  - constructor.
Qed.

(** X20. Whatever happens to a client after its [connect] (calls,
    subscriptions, messages, timers firing in any order, the socket
    closing), every call still in the pending map has an unsettled promise
    and its own timer still armed, no two pending calls share a promise, and
    the id the next [send] will take is not in use. *)
Theorem pending_calls_stay_settleable url c events :
  connect newClient url = Ok c ->
  let w := run events (mkWorld c []) in
  pending (cl w) !! (id (cl w) + 1) = None
  /\ (forall n h, pending (cl w) !! n = Some h ->
        promises (cl w) !! h = Some Pending /\ In (n, h) (timers w))
  /\ (forall n n' h, pending (cl w) !! n = Some h -> pending (cl w) !! n' = Some h -> n = n').
Proof.
  intros H. cbv zeta.
  pose proof (run_consistent events _ (connect_consistent url c H)) as I.
  split; [|split].
  - destruct (pending _ !! _) as [h|] eqn:E; [|reflexivity].
    destruct I as (_ & I1 & I2 & _). apply I1 in E as [_ E]. apply I2 in E. lia.
  - apply I.
  - intros n n' h. apply consistent_injective, I.
Qed.

Lemma pending_calls_stay_settleable_witness :
  pending (cl (run sampleEvents (mkWorld connectedClient []))) !! 4 = None.
Proof.
  apply (proj1 (pending_calls_stay_settleable "wss://electrum.example:50004" connectedClient
                  sampleEvents eq_refl)).
Defined.

Lemma subscribeScripthash_frame c scripthash handler :
  delivered (fst (subscribeScripthash c scripthash handler)) = delivered c
  /\ subscriptions (fst (subscribeScripthash c scripthash handler))
       !! "blockchain.scripthash.subscribe"%string = Some handler.
Proof.
  unfold subscribeScripthash, send. cbn [connected nextPromise id pending subscriptions].
  destruct (negb (connected c)); cbn [fst subscriptions delivered];
    (split; [reflexivity | apply lookup_insert_eq]).
Qed.

(** X21. Subscriptions are kept by method name, not by script hash: after two
    calls of [subscribeScripthash], a notification for either script hash
    runs the handler given last, and only that one. *)
Theorem last_subscription_handler_wins c scripthash1 handler1 scripthash2 handler2 payload params :
  field payload "id" = None ->
  field payload "method" = Some (JStr "blockchain.scripthash.subscribe") ->
  field payload "params" = Some params -> truthy (Some params) = true ->
  let c1 := fst (subscribeScripthash c scripthash1 handler1) in
  let c2 := fst (subscribeScripthash c1 scripthash2 handler2) in
  delivered (onMessage c2 (Some payload)) = delivered c ++ [(handler2, params)].
Proof.
  intros Hid Hm Hp Ht. cbv zeta.
  destruct (subscribeScripthash_frame c scripthash1 handler1) as [D1 _].
  destruct (subscribeScripthash_frame (fst (subscribeScripthash c scripthash1 handler1))
              scripthash2 handler2) as [D2 S2].
  set (c2 := fst (subscribeScripthash _ scripthash2 handler2)) in *.
  unfold onMessage. unfold pendingFor. rewrite Hid, Hm, Hp, Ht, S2.
  destruct payload; try discriminate.
  cbn. rewrite D2, D1. reflexivity.
Qed.

Lemma last_subscription_handler_wins_witness :
  delivered (onMessage (fst (subscribeScripthash (fst (subscribeScripthash connectedClient "5a1f" 1))
                               "c0de" 2))
               (Some (statusNotification "5a1f" "77aa")))
  = [(2%nat, JArr [JStr "5a1f"; JStr "77aa"])].
Proof.
  apply (last_subscription_handler_wins connectedClient "5a1f" 1 "c0de" 2
           (statusNotification "5a1f" "77aa") (JArr [JStr "5a1f"; JStr "77aa"]));
    reflexivity.
Defined.

End RpcFacts.

(* ================================================================== *)
(** * Properties of the crypto vault                                   *)
(* ================================================================== *)
Module VaultFacts.
Import Vault.

(** Induction on a list three elements at a time. *)
Lemma list_ind3 {A} (P : list A -> Prop) :
  P [] -> (forall a, P [a]) -> (forall a b, P [a; b]) ->
  (forall a b c l, P l -> P (a :: b :: c :: l)) ->
  forall l, P l.
Proof.
  intros H0 H1 H2 H3.
  refine (fix IH l := match l with
                      | [] => H0
                      | [a] => H1 a
                      | [a; b] => H2 a b
                      | a :: b :: c :: l' => H3 a b c l' (IH l')
                      end).
Qed.

(** ** Base64 *)

Lemma sextet_cases n : 0 <= n < 64 -> In (Z.to_nat n) (seq 0 64) /\ Z.of_nat (Z.to_nat n) = n.
Proof. intros H. split; [apply in_seq; lia | lia]. Qed.

Lemma b64val_b64char n : 0 <= n < 64 -> b64val (b64char n) = Some n.
Proof.
  intros H. destruct (sextet_cases n H) as [Hin Hn].
  assert (G : forallb (fun k => match b64val (b64char (Z.of_nat k)) with
                                | Some m => m =? Z.of_nat k
                                | None => false
                                end) (seq 0 64) = true) by (vm_compute; reflexivity).
  rewrite forallb_forall in G. specialize (G _ Hin). rewrite Hn in G.
  destruct (b64val (b64char n)); [|discriminate].
  apply Z.eqb_eq in G. congruence.
Qed.

Lemma b64char_plain n :
  0 <= n < 64 -> isSpace (b64char n) = false /\ Ascii.eqb (b64char n) pad64 = false.
Proof.
  intros H. destruct (sextet_cases n H) as [Hin Hn].
  assert (G : forallb (fun k => negb (isSpace (b64char (Z.of_nat k)))
                                && negb (Ascii.eqb (b64char (Z.of_nat k)) pad64))
                      (seq 0 64) = true) by (vm_compute; reflexivity).
  rewrite forallb_forall in G. specialize (G _ Hin). rewrite Hn in G.
  apply andb_true_iff in G as [G1 G2].
  split; apply negb_true_iff; assumption.
Qed.

Lemma sextets_b64char vs : Forall isSextet vs -> sextets (map b64char vs) = Some vs.
Proof.
  induction 1 as [|v vs Hv _ IH]; [reflexivity|].
  cbn [map sextets]. rewrite (b64val_b64char v Hv), IH. reflexivity.
Qed.

Lemma filter_b64char vs :
  Forall isSextet vs ->
  List.filter (fun c => negb (isSpace c)) (map b64char vs) = map b64char vs.
Proof.
  induction 1 as [|v vs Hv _ IH]; [reflexivity|].
  cbn [map List.filter]. rewrite (proj1 (b64char_plain v Hv)). cbn [negb]. rewrite IH. reflexivity.
Qed.

Ltac div_lia := Z.div_mod_to_equations; lia.

(** The text [btoa] produces: the characters of some sextets, then
    padding; the sextets decode back to the bytes. *)
Lemma btoa_shape bytes :
  Forall isByte bytes ->
  exists vs k,
    btoa bytes = map b64char vs ++ repeat pad64 k
    /\ Forall isSextet vs
    /\ octets vs = bytes
    /\ ((k = 0 /\ length vs mod 4 = 0) \/ (k = 1 /\ length vs mod 4 = 3)
        \/ (k = 2 /\ length vs mod 4 = 2))%nat.
Proof.
  induction bytes as [|a|a b|a b c rest IH] using list_ind3; intros HB.
  - exists [], 0%nat. repeat split; [constructor | left; split; reflexivity].
  - inversion HB as [|? ? Ha _]; subst. unfold isByte in Ha.
    exists [a / 4; a mod 4 * 16], 2%nat.
    split; [reflexivity|]. split.
    + repeat constructor; unfold isSextet; div_lia.
    + split; [cbn [octets]; f_equal; div_lia | right; right; split; reflexivity].
  - inversion HB as [|? ? Ha HB']; subst. inversion HB' as [|? ? Hb _]; subst.
    unfold isByte in Ha, Hb.
    exists [a / 4; a mod 4 * 16 + b / 16; b mod 16 * 4], 1%nat.
    split; [reflexivity|]. split.
    + repeat constructor; unfold isSextet; div_lia.
    + split; [cbn [octets]; repeat f_equal; div_lia | right; left; split; reflexivity].
  - inversion HB as [|? ? Ha HB1]; subst. inversion HB1 as [|? ? Hb HB2]; subst.
    inversion HB2 as [|? ? Hc HB3]; subst. unfold isByte in Ha, Hb, Hc.
    destruct (IH HB3) as (vs & k & E & Hvs & Hoct & Hk).
    exists (a / 4 :: a mod 4 * 16 + b / 16 :: b mod 16 * 4 + c / 64 :: c mod 64 :: vs), k.
    split; [cbn [btoa map app]; rewrite E; reflexivity|]. split.
    + repeat (constructor; [unfold isSextet; div_lia|]). exact Hvs.
    + split.
      * cbn [octets]. rewrite Hoct. repeat f_equal; div_lia.
      * cbn [length].
        replace (S (S (S (S (length vs))))) with (length vs + 1 * 4)%nat by lia.
        rewrite Nat.Div0.mod_add. exact Hk.
Qed.
Lemma rev_head_plain vs c r :
  Forall isSextet vs -> rev (map b64char vs) = c :: r -> Ascii.eqb c pad64 = false.
Proof.
  intros Hvs E.
  assert (Hin : In c (map b64char vs)).
  { apply in_rev. rewrite E. left. reflexivity. }
  apply in_map_iff in Hin as (v & <- & Hv).
  rewrite List.Forall_forall in Hvs. apply b64char_plain, Hvs, Hv.
Qed.

Lemma stripPadding_shape vs k :
  Forall isSextet vs ->
  ((k = 0 /\ length vs mod 4 = 0) \/ (k = 1 /\ length vs mod 4 = 3)
   \/ (k = 2 /\ length vs mod 4 = 2))%nat ->
  stripPadding (map b64char vs ++ repeat pad64 k) = map b64char vs.
Proof.
  intros Hvs Hk. unfold stripPadding.
  assert (HL : (length (map b64char vs ++ repeat pad64 k) mod 4 =? 0)%nat = true).
  { rewrite length_app, length_map, repeat_length. apply Nat.eqb_eq.
    pose proof (Nat.div_mod_eq (length vs) 4) as D.
    destruct Hk as [[-> Hm] | [[-> Hm] | [-> Hm]]].
    - rewrite Nat.add_0_r. exact Hm.
    - replace (length vs + 1)%nat with (0 + (length vs / 4 + 1) * 4)%nat by lia.
      apply Nat.Div0.mod_add.
    - replace (length vs + 2)%nat with (0 + (length vs / 4 + 1) * 4)%nat by lia.
      apply Nat.Div0.mod_add. }
  rewrite HL, rev_app_distr, rev_repeat.
  destruct Hk as [[-> Hm] | [[-> Hm] | [-> Hm]]]; cbn [repeat app].
  - rewrite app_nil_r.
    destruct (rev (map b64char vs)) as [|c1 [|c2 r]] eqn:E; [reflexivity| |];
      rewrite (rev_head_plain vs _ _ Hvs E); reflexivity.
  - destruct (rev (map b64char vs)) as [|c2 r] eqn:E.
    + apply (f_equal (@length ascii)) in E. rewrite length_rev, length_map in E.
      rewrite E in Hm. discriminate.
    + change (Ascii.eqb pad64 pad64) with true. cbv iota.
      rewrite (rev_head_plain vs _ _ Hvs E). rewrite <- E. apply rev_involutive.
  - change (Ascii.eqb pad64 pad64) with true. cbv iota. apply rev_involutive.
Qed.

(** [atob] undoes [btoa] on every byte array. *)
Lemma atob_btoa bytes : Forall isByte bytes -> atob (btoa bytes) = Some bytes.
Proof.
  intros HB. destruct (btoa_shape bytes HB) as (vs & k & E & Hvs & Hoct & Hk).
  unfold atob. rewrite E, List.filter_app, (filter_b64char vs Hvs).
  assert (HP : List.filter (fun c => negb (isSpace c)) (repeat pad64 k) = repeat pad64 k).
  { clear. induction k as [|k IH]; [reflexivity|]. cbn [repeat List.filter].
    change (negb (isSpace pad64)) with true. cbv iota. rewrite IH. reflexivity. }
  rewrite HP, (stripPadding_shape vs k Hvs Hk), length_map.
  assert (H1 : (length vs mod 4 =? 1)%nat = false).
  { apply Nat.eqb_neq. destruct Hk as [[_ Hm] | [[_ Hm] | [_ Hm]]]; rewrite Hm; discriminate. }
  rewrite H1, (sextets_b64char vs Hvs), Hoct. reflexivity.
Qed.

(** ** UTF-8 *)

(** Replaces the term [t] by the variable [x] everywhere. *)
Ltac abstract_term t x := set (x := t) in *; clearbody x.

(** The digits of a code point in base 64, for two, three and four bytes. *)
Lemma digits2 cp : cp = cp / 64 * 64 + cp mod 64 /\ 0 <= cp mod 64 < 64.
Proof. div_lia. Qed.

Lemma digits3 cp :
  cp = cp / 4096 * 4096 + (cp / 64) mod 64 * 64 + cp mod 64
  /\ 0 <= cp mod 64 < 64 /\ 0 <= (cp / 64) mod 64 < 64.
Proof. div_lia. Qed.

Lemma digits4 cp :
  cp = cp / 262144 * 262144 + (cp / 4096) mod 64 * 4096 + (cp / 64) mod 64 * 64 + cp mod 64
  /\ 0 <= cp mod 64 < 64 /\ 0 <= (cp / 64) mod 64 < 64 /\ 0 <= (cp / 4096) mod 64 < 64.
Proof. div_lia. Qed.

Ltac base64_digits cp :=
  let top := fresh "top" in let up := fresh "up" in
  let mid := fresh "mid" in let lo := fresh "lo" in
  first
    [ match goal with |- context [cp / 262144] => idtac end;
      destruct (digits4 cp) as (? & ? & ? & ?);
      abstract_term (cp / 262144) top; abstract_term ((cp / 4096) mod 64) up;
      abstract_term ((cp / 64) mod 64) mid; abstract_term (cp mod 64) lo
    | match goal with |- context [cp / 4096] => idtac end;
      destruct (digits3 cp) as (? & ? & ?);
      abstract_term (cp / 4096) top; abstract_term ((cp / 64) mod 64) mid;
      abstract_term (cp mod 64) lo
    | match goal with |- context [cp / 64] => idtac end;
      destruct (digits2 cp) as (? & ?);
      abstract_term (cp / 64) top; abstract_term (cp mod 64) lo
    | idtac ].

Lemma utf8_encode_bytes cp : isScalar cp -> Forall isByte (utf8_encode cp).
Proof.
  intros H. unfold isScalar in H. unfold utf8_encode.
  destruct (Z.ltb_spec cp 0x80); [|destruct (Z.ltb_spec cp 0x800); [|destruct (Z.ltb_spec cp 0x10000)]];
    base64_digits cp; repeat constructor; unfold isByte; lia.
Qed.

Local Abbreviation start bytes := (utf8_decode bytes 0 0 0 0x80 0xBF) (only parsing).

(** Steps of the decoder. *)
Lemma lead1 b rest : 0 <= b <= 0x7F -> start (b :: rest) = b :: start rest.
Proof.
  intros H. cbn [utf8_decode]. unfold lead.
  destruct (Z.leb_spec b 0x7F); [reflexivity | lia].
Qed.

Lemma lead2 b rest :
  0xC2 <= b <= 0xDF -> start (b :: rest) = utf8_decode rest (b - 0xC0) 1 0 0x80 0xBF.
Proof.
  intros H. cbn [utf8_decode]. unfold lead.
  destruct (Z.leb_spec b 0x7F); [lia|].
  destruct (Z.leb_spec 0xC2 b); [|lia]. destruct (Z.leb_spec b 0xDF); [|lia].
  reflexivity.
Qed.

Lemma lead3 b rest :
  0xE0 <= b <= 0xEF ->
  start (b :: rest) =
  utf8_decode rest (b - 0xE0) 2 0 (if b =? 0xE0 then 0xA0 else 0x80)
    (if b =? 0xED then 0x9F else 0xBF).
Proof.
  intros H. cbn [utf8_decode]. unfold lead.
  destruct (Z.leb_spec b 0x7F); [lia|].
  destruct (Z.leb_spec 0xC2 b); [|lia]. destruct (Z.leb_spec b 0xDF); [lia|].
  destruct (Z.leb_spec 0xE0 b); [|lia]. destruct (Z.leb_spec b 0xEF); [|lia].
  reflexivity.
Qed.

Lemma lead4 b rest :
  0xF0 <= b <= 0xF4 ->
  start (b :: rest) =
  utf8_decode rest (b - 0xF0) 3 0 (if b =? 0xF0 then 0x90 else 0x80)
    (if b =? 0xF4 then 0x8F else 0xBF).
Proof.
  intros H. cbn [utf8_decode]. unfold lead.
  destruct (Z.leb_spec b 0x7F); [lia|].
  destruct (Z.leb_spec 0xC2 b); [|lia]. destruct (Z.leb_spec b 0xDF); [lia|].
  destruct (Z.leb_spec 0xE0 b); [|lia]. destruct (Z.leb_spec b 0xEF); [lia|].
  destruct (Z.leb_spec 0xF0 b); [|lia]. destruct (Z.leb_spec b 0xF4); [|lia].
  reflexivity.
Qed.

Lemma continuation b rest cp needed seen lower upper :
  needed <> 0 -> lower <= b <= upper ->
  utf8_decode (b :: rest) cp needed seen lower upper =
  if seen + 1 =? needed then (cp * 64 + (b - 0x80)) :: start rest
  else utf8_decode rest (cp * 64 + (b - 0x80)) needed (seen + 1) 0x80 0xBF.
Proof.
  intros Hn Hb. cbn [utf8_decode].
  destruct (Z.eqb_spec needed 0); [contradiction|].
  destruct (Z.ltb_spec b lower); [lia|]. destruct (Z.ltb_spec upper b); [lia|].
  reflexivity.
Qed.

(** The decoder reads back the encoding of a scalar value and then is
    in its initial state again. *)
Lemma utf8_decode_encode cp rest :
  isScalar cp -> start (utf8_encode cp ++ rest) = cp :: start rest.
Proof.
  intros H. unfold isScalar in H. unfold utf8_encode.
  destruct (Z.ltb_spec cp 0x80); [|destruct (Z.ltb_spec cp 0x800); [|destruct (Z.ltb_spec cp 0x10000)]];
    cbn [app]; base64_digits cp.
  - apply lead1. lia.
  - rewrite lead2 by lia. rewrite continuation by lia.
    change (0 + 1 =? 1) with true. cbv iota. f_equal. lia.
  - rewrite lead3 by lia.
    rewrite continuation
      by (try discriminate;
          destruct (Z.eqb_spec (224 + top) 224); destruct (Z.eqb_spec (224 + top) 237); lia).
    change (0 + 1 =? 2) with false. cbv iota.
    rewrite continuation by lia.
    change (0 + 1 + 1 =? 2) with true. cbv iota. f_equal. lia.
  - rewrite lead4 by lia.
    rewrite continuation
      by (try discriminate;
          destruct (Z.eqb_spec (240 + top) 240); destruct (Z.eqb_spec (240 + top) 244); lia).
    change (0 + 1 =? 3) with false. cbv iota.
    rewrite continuation by lia.
    change (0 + 1 + 1 =? 3) with false. cbv iota.
    rewrite continuation by lia.
    change (0 + 1 + 1 + 1 =? 3) with true. cbv iota. f_equal. lia.
Qed.

Lemma utf8_decode_flat cps :
  Forall isScalar cps -> start (flat_map utf8_encode cps) = cps.
Proof.
  induction 1 as [|cp cps Hcp _ IH]; [reflexivity|].
  cbn [flat_map]. rewrite (utf8_decode_encode cp _ Hcp), IH. reflexivity.
Qed.

(** ** UTF-16 *)

(** Induction on a list where the step may look one or two elements back. *)
Lemma list_ind_pairs {A} (P : list A -> Prop) :
  P [] ->
  (forall a l, P l -> (forall b l', l = b :: l' -> P l') -> P (a :: l)) ->
  forall l, P l.
Proof.
  intros H0 HS l.
  assert (G : P l /\ forall b l', l = b :: l' -> P l').
  { induction l as [|a l [IH1 IH2]].
    - split; [exact H0 | discriminate].
    - split; [apply HS; assumption|]. intros b l' E. injection E as _ <-. exact IH1. }
  exact (proj1 G).
Qed.

Lemma surrogate_tests u :
  (isHigh u = true <-> 0xD800 <= u <= 0xDBFF) /\ (isLow u = true <-> 0xDC00 <= u <= 0xDFFF).
Proof. unfold isHigh, isLow. rewrite !andb_true_iff, !Z.leb_le. tauto. Qed.

(** On a well-formed string [TextEncoder] sees scalar values only, and
    splitting them back into code units gives the string. *)
Lemma scalars_wellFormed s :
  wellFormed s = true ->
  Forall isScalar (scalars s) /\ flat_map code_units (scalars s) = s.
Proof.
  induction s as [|u rest IH1 IH2] using list_ind_pairs; intros W.
  - split; [constructor | reflexivity].
  - cbn [wellFormed scalars] in *.
    destruct (isHigh u) eqn:EH.
    + destruct rest as [|l rest']; [discriminate|].
      apply andb_true_iff in W as [EL W]. rewrite EL.
      destruct (IH2 l rest' eq_refl W) as [F E].
      apply surrogate_tests in EH. apply surrogate_tests in EL.
      split.
      * constructor; [right; lia | exact F].
      * cbn [flat_map]. rewrite E. unfold code_units.
        destruct (Z.ltb_spec (65536 + (u - 55296) * 1024 + (l - 56320)) 65536); [lia|].
        cbn [app]. f_equal; [div_lia | f_equal; div_lia].
    + apply andb_true_iff in W as [W W4]. apply andb_true_iff in W as [W W3].
      apply andb_true_iff in W as [W1 W2].
      apply negb_true_iff in W1. rewrite W1.
      apply Z.leb_le in W2. apply Z.ltb_lt in W3.
      destruct (IH1 W4) as [F E].
      assert (NH : ~ (0xD800 <= u <= 0xDBFF)).
      { intros C. apply surrogate_tests in C. congruence. }
      assert (NL : ~ (0xDC00 <= u <= 0xDFFF)).
      { intros C. apply surrogate_tests in C. congruence. }
      split.
      * constructor; [unfold isScalar; lia | exact F].
      * cbn [flat_map]. rewrite E. unfold code_units.
        destruct (Z.ltb_spec u 65536); [reflexivity | lia].
Qed.

Lemma encode_bytes s : wellFormed s = true -> Forall isByte (TextEncoder_encode s).
Proof.
  intros W. destruct (scalars_wellFormed s W) as [F _]. unfold TextEncoder_encode.
  induction F as [|cp cps Hcp _ IH]; [constructor|].
  cbn [flat_map]. apply Forall_app. split; [apply utf8_encode_bytes, Hcp | exact IH].
Qed.

(** ** Byte order mark *)

Lemma stripBOM_utf8_encode cp tail :
  isScalar cp -> cp <> 0xFEFF -> stripBOM (utf8_encode cp ++ tail) = utf8_encode cp ++ tail.
Proof.
  intros H N. unfold isScalar in H. unfold utf8_encode, stripBOM.
  destruct (Z.ltb_spec cp 0x80); [|destruct (Z.ltb_spec cp 0x800); [|destruct (Z.ltb_spec cp 0x10000)]];
    cbn [app]; base64_digits cp.
  - destruct tail as [|b2 [|b3 r]]; try reflexivity.
    destruct (Z.eqb_spec cp 0xEF); [lia | reflexivity].
  - destruct tail as [|b3 r]; try reflexivity.
    destruct (Z.eqb_spec (192 + top) 0xEF); [lia | reflexivity].
  - destruct (Z.eqb_spec (224 + top) 0xEF); [|reflexivity].
    destruct (Z.eqb_spec (128 + mid) 0xBB); [|reflexivity].
    destruct (Z.eqb_spec (128 + lo) 0xBF); [lia | reflexivity].
  - destruct (Z.eqb_spec (240 + top) 0xEF); [lia | reflexivity].
Qed.

Lemma stripBOM_encode s :
  wellFormed s = true -> startsWithBOM s = false ->
  stripBOM (TextEncoder_encode s) = TextEncoder_encode s.
Proof.
  intros W B. destruct (scalars_wellFormed s W) as [F _].
  unfold TextEncoder_encode.
  destruct s as [|u rest]; [reflexivity|].
  cbn [startsWithBOM] in B. apply Z.eqb_neq in B.
  cbn [wellFormed] in W. cbn [scalars] in *.
  destruct (isHigh u) eqn:EH.
  - destruct rest as [|l rest']; [discriminate|].
    apply andb_true_iff in W as [EL W]. rewrite EL in *.
    apply surrogate_tests in EH. apply surrogate_tests in EL.
    inversion F as [|? ? Hcp _]; subst.
    cbn [flat_map]. apply stripBOM_utf8_encode; [exact Hcp | lia].
  - apply andb_true_iff in W as [W _]. apply andb_true_iff in W as [W _].
    apply andb_true_iff in W as [W1 _]. apply negb_true_iff in W1. rewrite W1 in *.
    inversion F as [|? ? Hcp _]; subst.
    cbn [flat_map]. apply stripBOM_utf8_encode; [exact Hcp | exact B].
Qed.

(** [TextDecoder] reads back what [TextEncoder] wrote. *)
Lemma decode_encode s :
  wellFormed s = true -> startsWithBOM s = false ->
  TextDecoder_decode (TextEncoder_encode s) = s.
Proof.
  intros W B. unfold TextDecoder_decode. rewrite (stripBOM_encode s W B).
  destruct (scalars_wellFormed s W) as [F E].
  unfold TextEncoder_encode. rewrite (utf8_decode_flat _ F). exact E.
Qed.

(** ** The vault *)

Lemma Forall_firstn_skipn {A} (P : A -> Prop) n (l : list A) :
  Forall P l -> Forall P (firstn n l) /\ Forall P (skipn n l).
Proof. intros H. rewrite <- (firstn_skipn n l) in H. apply Forall_app in H. exact H. Qed.

Lemma xorAll_zero a : forall b result,
  length a = length b ->
  (xorAll a b result = 0 <-> result = 0 /\ a = b).
Proof.
  induction a as [|x a IH]; intros [|y b] result Hlen; try discriminate; cbn [xorAll].
  - tauto.
  - injection Hlen as Hlen. rewrite (IH b _ Hlen), Z.lor_eq_0_iff, Z.lxor_eq_0_iff.
    split.
    + intros [[Hr ->] ->]. tauto.
    + intros [Hr E]. injection E as -> ->. tauto.
Qed.

Lemma constantTimeEquals_spec (a b : jsstring) : constantTimeEquals a b = true <-> a = b.
Proof.
  unfold constantTimeEquals.
  destruct (Nat.eqb_spec (length a) (length b)) as [Hlen|Hlen]; cbn [negb].
  - rewrite Z.eqb_eq, (xorAll_zero a b 0 Hlen). tauto.
  - split; [discriminate|]. intros ->. contradiction.
Qed.

(** X10. [constantTimeEquals] answers whether the two strings are equal. *)
Theorem constantTimeEquals_iff_equal (a b : jsstring) :
  constantTimeEquals a b = true <-> a = b.
Proof. exact (constantTimeEquals_spec a b). Qed.

Section Roundtrip.
Context {W : WebCrypto} {L : AeadLaws W}.

(** What [decryptWithPassword] returns on the output of
    [encryptWithPassword], for any plaintext that is well formed. *)
Lemma decrypt_encrypt_decodes data password salt iv :
  wellFormed data = true ->
  length iv = IV_LENGTH -> Forall isByte iv -> Forall isByte salt ->
  decryptWithPassword (encryptWithPassword data password salt iv) password
  = Ok (TextDecoder_decode (TextEncoder_encode data)).
Proof.
  intros HW Hlen Hiv Hsalt.
  unfold decryptWithPassword, encryptWithPassword.
  cbn [Vault.salt Vault.iv Vault.encrypted Vault.tag].
  set (key := deriveKey password salt).
  set (enc := aesGcmEncrypt key iv (TextEncoder_encode data)).
  assert (Henc : Forall isByte enc) by (apply encrypt_bytes; [exact Hiv | apply encode_bytes, HW]).
  destruct (Forall_firstn_skipn isByte (length enc - 16) enc Henc) as [Hc Ht].
  rewrite (atob_btoa salt Hsalt), (atob_btoa iv Hiv), (atob_btoa _ Hc), (atob_btoa _ Ht).
  rewrite firstn_skipn. fold key. unfold enc.
  rewrite decrypt_encrypt; [reflexivity | exact Hlen | exact Hiv | apply encode_bytes, HW].
Qed.

(** X7. A leading U+FEFF does not come back. *)
Lemma leading_bom_is_dropped data password salt iv :
  wellFormed data = true ->
  length iv = IV_LENGTH -> Forall isByte iv -> Forall isByte salt ->
  decryptWithPassword (encryptWithPassword (0xFEFF :: data) password salt iv) password
  = Ok data.
Proof.
  intros HW Hlen Hiv Hsalt.
  rewrite decrypt_encrypt_decodes by assumption.
  f_equal. unfold TextDecoder_decode.
  change (TextEncoder_encode (0xFEFF :: data))
    with (0xEF :: 0xBB :: 0xBF :: TextEncoder_encode data).
  change (stripBOM (0xEF :: 0xBB :: 0xBF :: TextEncoder_encode data))
    with (TextEncoder_encode data).
  destruct (scalars_wellFormed data HW) as [F E].
  unfold TextEncoder_encode. rewrite (utf8_decode_flat _ F). exact E.
Qed.

(** C9, amended. For every plaintext string in which every surrogate is
    paired and which does not begin with U+FEFF (every ASCII mnemonic, WIF
    key and hex key is such a string), and every password,
    [decryptWithPassword] with the same password returns exactly the
    plaintext from what [encryptWithPassword] produced, whatever 16-byte
    salt and 12-byte IV were drawn. *)
Theorem decrypt_encrypt_roundtrip data password salt iv :
  wellFormed data = true -> startsWithBOM data = false ->
  length iv = IV_LENGTH -> Forall isByte iv -> Forall isByte salt ->
  decryptWithPassword (encryptWithPassword data password salt iv) password = Ok data.
Proof.
  intros HW HB Hlen Hiv Hsalt.
  rewrite decrypt_encrypt_decodes by assumption.
  rewrite (decode_encode data HW HB). reflexivity.
Qed.

(** X11. [verifyPassword] accepts a password against the hash and salt that
    [hashPassword] produced for it. *)
Theorem verifyPassword_accepts_own_hash password salt :
  Forall isByte salt ->
  verifyPassword password (fst (hashPassword password salt)) (snd (hashPassword password salt))
  = true.
Proof.
  intros Hs. unfold verifyPassword. cbn [hashPassword fst snd].
  rewrite (atob_btoa salt Hs). apply constantTimeEquals_spec. reflexivity.
Qed.

End Roundtrip.

Lemma split_at_length {A} (l1 l2 : list A) n :
  n = length l1 -> firstn n (l1 ++ l2) = l1 /\ skipn n (l1 ++ l2) = l2.
Proof.
  intros ->. induction l1 as [|a l1 [IH1 IH2]]; [split; reflexivity|].
  cbn [length app firstn skipn]. rewrite IH1, IH2. split; reflexivity.
Qed.

(** The stand-in cipher meets the laws. *)
Lemma standIn_laws : AeadLaws standIn.
Proof.
  split.
  - intros key iv data _ _ Hd.
    cbn [aesGcmDecrypt aesGcmEncrypt standIn].
    rewrite length_app, length_map, repeat_length.
    replace (length data + 16 - 16)%nat with (length data) by lia.
    replace (16 <=? length data + 16)%nat with true by (symmetry; apply Nat.leb_le; lia).
    destruct (split_at_length (map (Z.sub 255) data)
                (repeat (Z.of_nat (length data) mod 256) 16) (length data)) as [E1 E2];
      [symmetry; apply length_map|].
    rewrite E1, E2.
    assert (HT : forallb (Z.eqb (Z.of_nat (length data) mod 256))
                   (repeat (Z.of_nat (length data) mod 256) 16) = true).
    { apply forallb_forall. intros x Hx. apply repeat_spec in Hx. subst x. apply Z.eqb_refl. }
    rewrite HT. cbn [andb]. f_equal. rewrite map_map.
    rewrite <- (map_id data) at 2. apply map_ext. intros b. lia.
  - intros key iv data _ Hd. cbn [aesGcmEncrypt standIn].
    apply Forall_app. split.
    + induction Hd as [|b l Hb _ IH]; [constructor|].
      cbn [map]. constructor; [unfold isByte in *; lia | exact IH].
    + apply List.Forall_forall. intros x Hx. apply repeat_spec in Hx. subst x.
      unfold isByte. apply Z.mod_pos_bound. lia.
Qed.

(** X5. [atob] undoes [btoa] on every byte array, as used for the four
    fields of the encrypted record. *)
Theorem base64_roundtrip bytes : Forall isByte bytes -> atob (btoa bytes) = Some bytes.
Proof. exact (atob_btoa bytes). Qed.

Lemma base64_roundtrip_witness : atob (btoa sampleSalt) = Some sampleSalt.
Proof.
  apply (base64_roundtrip sampleSalt).
  unfold sampleSalt; repeat (constructor; [unfold isByte; lia|]); constructor.
Defined.

(** X6. [TextDecoder.decode] undoes [TextEncoder.encode] on every well-formed
    string that does not begin with U+FEFF. *)
Theorem text_roundtrip s :
  wellFormed s = true -> startsWithBOM s = false ->
  TextDecoder_decode (TextEncoder_encode s) = s.
Proof. exact (decode_encode s). Qed.

Lemma text_roundtrip_witness :
  TextDecoder_decode (TextEncoder_encode [0x20AC; 0xD83D; 0xDE00; 0x7A; 0xFEFF])
  = [0x20AC; 0xD83D; 0xDE00; 0x7A; 0xFEFF].
Proof.
  apply (text_roundtrip [0x20AC; 0xD83D; 0xDE00; 0x7A; 0xFEFF]); vm_compute; reflexivity.
Defined.

Lemma verifyPassword_accepts_own_hash_witness :
  @verifyPassword standIn samplePassword
    (fst (@hashPassword standIn samplePassword sampleSalt))
    (snd (@hashPassword standIn samplePassword sampleSalt)) = true.
Proof.
  apply (@verifyPassword_accepts_own_hash standIn samplePassword sampleSalt).
  unfold sampleSalt; repeat (constructor; [unfold isByte; lia|]); constructor.
Defined.

Lemma leading_bom_is_dropped_witness :
  @decryptWithPassword standIn
    (@encryptWithPassword standIn (0xFEFF :: sampleMnemonic) samplePassword sampleSalt sampleIV)
    samplePassword
  = Ok sampleMnemonic.
Proof.
  apply (@leading_bom_is_dropped standIn standIn_laws
           sampleMnemonic samplePassword sampleSalt sampleIV);
    try (vm_compute; reflexivity);
    unfold sampleIV, sampleSalt; repeat (constructor; [unfold isByte; lia|]); constructor.
Defined.

Lemma decrypt_encrypt_roundtrip_witness :
  @decryptWithPassword standIn
    (@encryptWithPassword standIn sampleMnemonic samplePassword sampleSalt sampleIV)
    samplePassword
  = Ok sampleMnemonic.
Proof.
  apply (@decrypt_encrypt_roundtrip standIn standIn_laws
           sampleMnemonic samplePassword sampleSalt sampleIV);
    try (vm_compute; reflexivity);
    unfold sampleIV, sampleSalt; repeat (constructor; [unfold isByte; lia|]); constructor.
Defined.

(** C9, as stated, fails: a plaintext that begins with U+FEFF comes back
    without it, and an unpaired surrogate comes back as U+FFFD. *)
Lemma roundtrip_alters_bom_and_lone_surrogate :
  @decryptWithPassword standIn
    (@encryptWithPassword standIn (0xFEFF :: ofString "abandon") samplePassword
       sampleSalt sampleIV) samplePassword
  = Ok (ofString "abandon")
  /\ @decryptWithPassword standIn
       (@encryptWithPassword standIn (0xD83D :: ofString "abandon") samplePassword
          sampleSalt sampleIV) samplePassword
     = Ok (0xFFFD :: ofString "abandon")
  /\ ofString "abandon" <> 0xFEFF :: ofString "abandon".
Proof.
  split; [vm_compute; reflexivity|]. split; [vm_compute; reflexivity|].
  vm_compute. discriminate.
Qed.

End VaultFacts.

(* ================================================================== *)
(** * Properties of the block parser                                   *)
(* ================================================================== *)
Module BlockParserFacts.
Import Rpc BlockParser.

(** Number of positions found in a batch when the block has [n] transactions. *)
Lemma count_below (f : Z -> bool) n startPos : forall m,
  (forall pos, 0 <= pos -> f pos = (pos <? n)) -> 0 <= startPos ->
  Z.of_nat (length (List.filter (fun b : bool => b)
                      (map (fun i => f (startPos + Z.of_nat i)) (seq 0 m))))
  = Z.max 0 (Z.min (Z.of_nat m) (n - startPos)).
Proof.
  intros m Hf Hs. induction m as [|m IH]; [simpl; lia|].
  rewrite seq_S, map_app, List.filter_app, length_app, Nat2Z.inj_add, IH.
  cbn [Nat.add map List.filter]. rewrite Hf by lia.
  destruct (startPos + Z.of_nat m <? n) eqn:E; cbn [length].
  - apply Z.ltb_lt in E. lia.
  - apply Z.ltb_ge in E. lia.
Qed.

Lemma countLoop_contiguous idFromPos n : forall fuel startPos,
  (forall pos, 0 <= pos -> found idFromPos pos = (pos <? n)) ->
  0 <= startPos -> startPos + batchSize * Z.of_nat fuel = maxAttempts -> startPos <= n ->
  countLoop fuel idFromPos startPos startPos = Z.min n maxAttempts.
Proof.
  unfold maxAttempts, batchSize.
  induction fuel as [|fuel IH]; intros startPos Hf Hs Hfuel Hn; cbn [countLoop].
  - lia.
  - replace (startPos <? maxAttempts) with true by (symmetry; apply Z.ltb_lt; unfold maxAttempts; lia).
    unfold foundCount. rewrite (count_below (found idFromPos) n startPos _ Hf Hs).
    change (Z.of_nat (Z.to_nat batchSize)) with 50. unfold batchSize.
    destruct (Z.max 0 (Z.min 50 (n - startPos)) =? 0) eqn:E0.
    + apply Z.eqb_eq in E0. lia.
    + apply Z.eqb_neq in E0.
      destruct (Z.max 0 (Z.min 50 (n - startPos)) <? 50) eqn:E1.
      * apply Z.ltb_lt in E1. lia.
      * apply Z.ltb_ge in E1.
        replace (Z.max 0 (Z.min 50 (n - startPos))) with 50 by lia.
        apply IH; try assumption; lia.
Qed.

(** X24. When the server knows a transaction at exactly the positions below
    [n], [countTransactionsInBlock] returns [n], up to its limit of 10000. *)
Theorem countTransactionsInBlock_counts idFromPos n :
  0 <= n -> (forall txPos, 0 <= txPos -> found idFromPos txPos = (txPos <? n)) ->
  countTransactionsInBlock idFromPos = Z.min n 10000.
Proof.
  intros Hn Hf. unfold countTransactionsInBlock.
  apply (countLoop_contiguous idFromPos n); [exact Hf | lia | reflexivity | exact Hn].
Qed.

Lemma blockOf_found n txPos : 0 <= txPos -> found (blockOf n) txPos = (txPos <? n).
Proof.
  intros H. unfold found, blockOf.
  replace (0 <=? txPos) with true by (symmetry; apply Z.leb_le; exact H).
  cbn [andb]. destruct (txPos <? n); reflexivity.
Qed.

Lemma countTransactionsInBlock_counts_witness :
  countTransactionsInBlock (blockOf 137) = 137 /\ countTransactionsInBlock (blockOf 20000) = 10000.
Proof.
  split.
  - apply (countTransactionsInBlock_counts (blockOf 137) 137); [lia | apply blockOf_found].
  - apply (countTransactionsInBlock_counts (blockOf 20000) 20000); [lia | apply blockOf_found].
Defined.

End BlockParserFacts.

(* ================================================================== *)
(** * Properties of the rate limiter                                   *)
(* ================================================================== *)
Module RateLimitFacts.
Import RateLimit.

(** [maxRequests] is an integer from 1 to 1000, unless [parseInt] finds no
    integer in RATE_LIMIT_REQUESTS: then it is [NaN]. *)
Lemma maxRequests_range env :
  match maxRequests env with
  | Num m => 1 <= m <= 1000
  | NaN => parseInt (orElse (RATE_LIMIT_REQUESTS env) "60") = NaN
  end.
Proof.
  unfold maxRequests. destruct (parseInt _) as [|z]; [reflexivity|].
  cbn [Math_min Math_max]. lia.
Qed.

(** Inside the window of the record of [ip], its requests pass until the
    count reaches the maximum, and all of them pass when the maximum is
    [NaN]; requests of other addresses change nothing for [ip]. *)
Lemma serve_window env ip until : forall requests requestCounts c,
  development env = false ->
  requestCounts !! ip = Some (mkRecord c until) ->
  Forall (fun r => clientIp (fst r) = ip -> gt (Num (snd r)) until = false) requests ->
  passed ip requests (snd (serve env requests requestCounts))
  = match maxRequests env with
    | Num m => Z.min (sentBy ip requests) (Z.max 0 (m - c))
    | NaN => sentBy ip requests
    end.
Proof.
  induction requests as [|[req now] requests IH]; intros m c Hdev Hm Hall.
  - cbn [serve snd passed]. unfold sentBy. cbn [List.filter length].
    destruct (maxRequests env); lia.
  - inversion Hall as [|? ? Hhead Htail]; subst. cbn [fst snd] in Hhead.
    cbn [serve]. unfold rateLimit. rewrite Hdev. cbv zeta.
    unfold sentBy. cbn [List.filter fst].
    destruct (String.eqb (clientIp req) ip) eqn:Eip.
    + apply String.eqb_eq in Eip. specialize (Hhead Eip). rewrite Eip.
      rewrite Hm. cbn [resetTime count]. rewrite Hhead.
      destruct (ge (Num c) (maxRequests env)) eqn:Emax.
      * specialize (IH m c Hdev Hm Htail).
        destruct (serve env requests m) as [m' vs]. cbn [snd success passed] in *.
        rewrite Eip, String.eqb_refl. cbn [andb length]. fold (sentBy ip requests).
        rewrite IH. unfold sentBy.
        destruct (maxRequests env) as [|mx]; [discriminate|].
        cbn [ge] in Emax. apply Z.leb_le in Emax. lia.
      * specialize (IH (<[ip := mkRecord (c + 1) until]> m) (c + 1) Hdev
                      (lookup_insert_eq m ip _) Htail).
        destruct (serve env requests _) as [m' vs]. cbn [snd success passed] in *.
        rewrite Eip, String.eqb_refl. cbn [andb length]. fold (sentBy ip requests).
        rewrite IH. unfold sentBy.
        destruct (maxRequests env) as [|mx]; [lia|].
        cbn [ge] in Emax. apply Z.leb_gt in Emax. lia.
    + assert (Hne : clientIp req <> ip)
        by (intros E; rewrite E, String.eqb_refl in Eip; discriminate).
      fold (sentBy ip requests).
      assert (G : forall m1 v, m1 !! ip = Some (mkRecord c until) ->
                passed ip ((req, now) :: requests)
                  (snd (let '(m2, vs) := serve env requests m1 in (m2, success v :: vs)))
                = match maxRequests env with
                  | Num mx => Z.min (sentBy ip requests) (Z.max 0 (mx - c))
                  | NaN => sentBy ip requests
                  end).
      { intros m1 v H1. specialize (IH m1 c Hdev H1 Htail).
        destruct (serve env requests m1) as [m2 vs]. cbn [snd passed] in *.
        rewrite Eip. cbn [andb]. rewrite IH. lia. }
      destruct (m !! clientIp req) as [r|] eqn:Er.
      * destruct (gt (Num now) (resetTime r)).
        { apply G. rewrite lookup_insert_ne by exact Hne. exact Hm. }
        destruct (ge (Num (count r)) (maxRequests env)).
        { apply G. exact Hm. }
        apply G. rewrite lookup_insert_ne by exact Hne. exact Hm.
      * apply G. rewrite lookup_insert_ne by exact Hne. exact Hm.
Qed.

(** With a maximum that is [NaN] the limiter refuses nothing. *)
Lemma serve_unlimited env : forall requests requestCounts,
  maxRequests env = NaN ->
  Forall (fun v => v = true) (snd (serve env requests requestCounts)).
Proof.
  induction requests as [|[req now] requests IH]; intros m Hmax; [constructor|].
  cbn [serve]. unfold rateLimit. rewrite Hmax.
  assert (G : forall m1 v, success v = true ->
            Forall (fun v => v = true)
              (snd (let '(m2, vs) := serve env requests m1 in (m2, success v :: vs)))).
  { intros m1 v Hv. specialize (IH m1 Hmax). destruct (serve env requests m1) as [m2 vs].
    cbn [snd] in *. constructor; assumption. }
  destruct (development env); [apply G; reflexivity|]. cbv zeta.
  destruct (m !! clientIp req) as [r|]; [|apply G; reflexivity].
  destruct (gt (Num now) (resetTime r)); [apply G; reflexivity|].
  cbn [ge]. replace (ge (Num (count r)) NaN) with false by reflexivity.
  apply G. reflexivity.
Qed.

(** X25. Outside development mode, a request that finds no record for its
    address, or an expired one, passes and opens a window that ends at
    [now + windowMs] (which is [NaN], so that the window never ends, when
    [parseInt] finds no integer in RATE_LIMIT_WINDOW).  When it finds one in
    RATE_LIMIT_REQUESTS (or in its default), [maxRequests] lies between 1
    and 1000, and of the requests that the same address makes up to the
    end of that window, mixed in any way with requests of other addresses,
    exactly the first [maxRequests - 1] pass.  When it finds none,
    [maxRequests] is [NaN] and the limiter refuses no request at all. *)
Theorem at_most_maxRequests_per_window env req now requestCounts requests :
  development env = false ->
  (forall record, requestCounts !! clientIp req = Some record ->
     gt (Num now) (resetTime record) = true) ->
  Forall (fun r => clientIp (fst r) = clientIp req ->
                   gt (Num (snd r)) (plus (Num now) (windowMs env)) = false) requests ->
  let '(opened, first) := rateLimit env req now requestCounts in
  success first = true
  /\ opened !! clientIp req = Some (mkRecord 1 (plus (Num now) (windowMs env)))
  /\ match maxRequests env with
     | Num m =>
         1 <= m <= 1000
         /\ passed (clientIp req) requests (snd (serve env requests opened))
            = Z.min (sentBy (clientIp req) requests) (m - 1)
     | NaN =>
         parseInt (orElse (RATE_LIMIT_REQUESTS env) "60") = NaN
         /\ forall traffic counts, Forall (fun v => v = true) (snd (serve env traffic counts))
     end.
Proof.
  intros Hdev Hexp Hall.
  pose proof (maxRequests_range env) as Hr.
  assert (E : rateLimit env req now requestCounts
              = (<[clientIp req := mkRecord 1 (plus (Num now) (windowMs env))]> requestCounts,
                 mkVerdict true (minus (maxRequests env) (Num 1)))).
  { unfold rateLimit. rewrite Hdev. cbv zeta.
    destruct (requestCounts !! clientIp req) as [r|] eqn:Er; [|reflexivity].
    rewrite (Hexp r eq_refl). reflexivity. }
  rewrite E. split; [reflexivity|]. split; [apply lookup_insert_eq|].
  pose proof (serve_window env (clientIp req) (plus (Num now) (windowMs env)) requests
                (<[clientIp req := mkRecord 1 (plus (Num now) (windowMs env))]> requestCounts)
                1 Hdev (lookup_insert_eq _ _ _) Hall) as HW.
  destruct (maxRequests env) as [|m] eqn:Emax.
  - split; [exact Hr|]. intros traffic counts. apply serve_unlimited. exact Emax.
  - split; [exact Hr|]. rewrite HW. lia.
Qed.

Lemma at_most_maxRequests_per_window_witness :
  snd (serve production ((viaProxy, 1000) :: sampleTraffic ++ [(viaProxy, 61001)]) ∅)
  = [true; true; true; true; false; false; true]
  /\ passed "10.0.0.7" sampleTraffic
       (snd (serve production sampleTraffic (<["10.0.0.7"%string := mkRecord 1 (Num 61000)]> ∅)))
     = 2
  /\ maxRequests misconfigured = NaN
  /\ Forall (fun v => v = true)
       (snd (serve misconfigured ((viaProxy, 1000) :: sampleTraffic ++ [(viaProxy, 61001)]) ∅)).
Proof.
  split; [vm_compute; reflexivity|].
  pose proof (at_most_maxRequests_per_window production viaProxy 1000 ∅ sampleTraffic eq_refl) as H.
  pose proof (at_most_maxRequests_per_window misconfigured viaProxy 1000 ∅ [] eq_refl) as N.
  split.
  - destruct H as (_ & _ & _ & H).
    + intros r Hr. rewrite lookup_empty in Hr. discriminate.
    + repeat constructor; cbn [fst snd]; intros _; vm_compute; reflexivity.
    + exact H.
  - destruct N as (_ & _ & _ & N).
    + intros r Hr. rewrite lookup_empty in Hr. discriminate.
    + constructor.
    + split; [reflexivity | apply N].
Defined.

(** A record that is expired at [t] is expired from then on. *)
Lemma gt_later t now x : t <= now -> gt (Num t) x = true -> gt (Num now) x = true.
Proof.
  intros Ht. destruct x as [|z]; cbn [gt]; [discriminate|].
  intros H. apply Z.ltb_lt in H. apply Z.ltb_lt. lia.
Qed.

(** Two maps that agree on the records still alive at [t]. *)
Lemma rateLimit_alive env req now t m1 m2 :
  let alive (m : gmap string record) ip :=
    match m !! ip with
    | Some r => if gt (Num t) (resetTime r) then None else Some r
    | None => None
    end in
  t <= now -> (forall ip, alive m1 ip = alive m2 ip) ->
  snd (rateLimit env req now m1) = snd (rateLimit env req now m2)
  /\ forall ip, alive (fst (rateLimit env req now m1)) ip
                = alive (fst (rateLimit env req now m2)) ip.
Proof.
  cbv zeta beta. intros Ht H. unfold rateLimit.
  destruct (development env); [split; [reflexivity | exact H]|]. cbv zeta.
  assert (Hins : forall r ip,
    match <[clientIp req := r]> m1 !! ip with
    | Some r => if gt (Num t) (resetTime r) then None else Some r | None => None end
    = match <[clientIp req := r]> m2 !! ip with
      | Some r => if gt (Num t) (resetTime r) then None else Some r | None => None end).
  { intros r ip. destruct (decide (ip = clientIp req)) as [->|Hne].
    - rewrite !lookup_insert_eq. reflexivity.
    - rewrite !lookup_insert_ne by congruence. apply H. }
  pose proof (H (clientIp req)) as Hip.
  destruct (m1 !! clientIp req) as [r1|] eqn:E1, (m2 !! clientIp req) as [r2|] eqn:E2.
  - destruct (gt (Num t) (resetTime r1)) eqn:D1, (gt (Num t) (resetTime r2)) eqn:D2;
      try discriminate.
    + rewrite (gt_later t now _ Ht D1), (gt_later t now _ Ht D2).
      split; [reflexivity | apply Hins].
    + injection Hip as <-.
      destruct (gt (Num now) (resetTime r1)); [split; [reflexivity | apply Hins]|].
      destruct (ge (Num (count r1)) (maxRequests env));
        split; try reflexivity; [exact H | apply Hins].
  - destruct (gt (Num t) (resetTime r1)) eqn:D1; [|discriminate].
    rewrite (gt_later t now _ Ht D1). split; [reflexivity | apply Hins].
  - destruct (gt (Num t) (resetTime r2)) eqn:D2; [|discriminate].
    rewrite (gt_later t now _ Ht D2). split; [reflexivity | apply Hins].
  - split; [reflexivity | apply Hins].
Qed.

Lemma serve_alive env t : forall requests m1 m2,
  Forall (fun r => t <= snd r) requests ->
  (forall ip,
     match m1 !! ip with
     | Some r => if gt (Num t) (resetTime r) then None else Some r | None => None end
     = match m2 !! ip with
       | Some r => if gt (Num t) (resetTime r) then None else Some r | None => None end) ->
  snd (serve env requests m1) = snd (serve env requests m2).
Proof.
  induction requests as [|[req now] requests IH]; intros m1 m2 Hall H; [reflexivity|].
  inversion Hall as [|? ? Hhead Htail]; subst. cbn [snd] in Hhead.
  cbn [serve].
  destruct (rateLimit_alive env req now t m1 m2 Hhead H) as [Hv Hm].
  destruct (rateLimit env req now m1) as [m1' v1], (rateLimit env req now m2) as [m2' v2].
  cbn [fst snd] in Hv, Hm. subst v2.
  specialize (IH m1' m2' Htail Hm).
  destruct (serve env requests m1') as [m1'' vs1], (serve env requests m2') as [m2'' vs2].
  cbn [snd] in *. congruence.
Qed.

(** X26. The periodic cleanup cannot be observed: removing the expired
    records at time [now] changes the answer to no request made from then
    on. *)
Theorem cleanup_changes_no_answer env now requestCounts requests :
  Forall (fun r => now <= snd r) requests ->
  snd (serve env requests (cleanup now requestCounts))
  = snd (serve env requests requestCounts).
Proof.
  intros Hall. apply (serve_alive env now requests _ _ Hall).
  intros ip. unfold cleanup.
  destruct (requestCounts !! ip) as [r|] eqn:E.
  - destruct (gt (Num now) (resetTime r)) eqn:D.
    + assert (N : filter (fun entry : string * record =>
                            negb (gt (Num now) (resetTime (snd entry))))
                    requestCounts !! ip = None).
      { apply map_lookup_filter_None. right. intros r' Hr'. rewrite E in Hr'.
        injection Hr' as <-. cbn [snd]. rewrite D. cbn. tauto. }
      rewrite N. reflexivity.
    + assert (S : filter (fun entry : string * record =>
                            negb (gt (Num now) (resetTime (snd entry))))
                    requestCounts !! ip = Some r).
      { apply map_lookup_filter_Some. split; [exact E|]. cbn [snd]. rewrite D. cbn. tauto. }
      rewrite S, D. reflexivity.
  - assert (N : filter (fun entry : string * record =>
                          negb (gt (Num now) (resetTime (snd entry))))
                  requestCounts !! ip = None).
    { apply map_lookup_filter_None. left. exact E. }
    rewrite N. reflexivity.
Qed.

Lemma cleanup_changes_no_answer_witness :
  snd (serve production sampleTraffic
         (cleanup 1500 {["10.0.0.7"%string := mkRecord 3 (Num 1400);
                         "10.0.0.9"%string := mkRecord 3 (Num 9000)]}))
  = snd (serve production sampleTraffic
           {["10.0.0.7"%string := mkRecord 3 (Num 1400);
             "10.0.0.9"%string := mkRecord 3 (Num 9000)]}).
Proof.
  apply (cleanup_changes_no_answer production 1500
           {["10.0.0.7"%string := mkRecord 3 (Num 1400);
             "10.0.0.9"%string := mkRecord 3 (Num 9000)]}
           sampleTraffic).
  repeat constructor; cbn [snd]; lia.
Defined.

End RateLimitFacts.

(* ================================================================== *)
(** * Properties of the wizard                                         *)
(* ================================================================== *)
Module WizardFacts.
Import Wizard.

(** X27. The wizard can always be left: from each of its five stages three
    calls of [goBack] reach 'idle'; in every other stage [goBack] does
    nothing.  The password typed in the wizard is dropped on the way out of
    the creation path, but it stays in [pendingPassword] when the way out
    goes through 'import-method', that is whenever an import type is set. *)
Theorem goBack_leaves_wizard w :
  (inWizard (stage w) = false -> goBack w = w)
  /\ (inWizard (stage w) = true ->
      let w' := goBack (goBack (goBack w)) in
      stage w' = Idle
      /\ pendingPassword w' =
         match stage w, importType w with
         | ImportMethod, _ | _, Some _ => pendingPassword w
         | _, None => None
         end).
Proof.
  destruct w as [s t m p e]. split.
  - destruct s; cbn; try discriminate; reflexivity.
  - destruct s; cbn [inWizard stage]; try discriminate; intros _;
      destruct t as [[]|]; cbn; try (split; reflexivity);
      destruct (given m); cbn; split; reflexivity.
Qed.

Lemma goBack_leaves_wizard_witness :
  let imported := confirmPassword "" "hunter2" (importFromMnemonic (importWallet initial)) in
  let created := confirmPassword "legal winner" "hunter2" (createNewWallet initial) in
  stage imported = MnemonicInput
  /\ stage (goBack (goBack (goBack imported))) = Idle
  /\ pendingPassword (goBack (goBack (goBack imported))) = Some "hunter2"%string
  /\ stage created = MnemonicDisplay
  /\ pendingPassword (goBack (goBack (goBack created))) = None.
Proof.
  cbv zeta.
  destruct (goBack_leaves_wizard
              (confirmPassword "" "hunter2" (importFromMnemonic (importWallet initial))))
    as [_ I].
  destruct (goBack_leaves_wizard
              (confirmPassword "legal winner" "hunter2" (createNewWallet initial)))
    as [_ C].
  specialize (I eq_refl) as [I1 I2]. specialize (C eq_refl) as [C1 C2].
  split; [reflexivity|]. split; [exact I1|]. split; [exact I2|].
  split; [reflexivity | exact C2].
Defined.

End WizardFacts.

(* ================================================================== *)
(** * Properties of the unit conversions                              *)
(* ================================================================== *)
Module UnitsFacts.
Import Units.

(** X28. [cybToSats] does not undo [satsToCyb]: on every whole number of
    satoshis below 2000 the round trip gives that number or one less, and
    it does give one less, for instance 2 for 3 satoshis.  An amount typed
    as 0.57 is converted to 56999999 satoshis. *)
Theorem cybToSats_can_lose_a_satoshi :
  forallb (fun k => oneOf (cybToSats (satsToCyb (ofZ (Z.of_nat k))))
                      (Z.of_nat k) (Z.of_nat k - 1)) (seq 0 2000) = true
  /\ cybToSats (satsToCyb (ofZ 3)) = Some 2
  /\ cybToSats (satsToCyb (ofZ 4)) = Some 4
  /\ cybToSats (decimal 57 100) = Some 56999999.
Proof.
  split; [vm_compute; reflexivity|]. split; [vm_compute; reflexivity|].
  split; vm_compute; reflexivity.
Qed.

(** X29. [btcPerKbToSatsPerVbyte] is at least 1 and may exceed the exact
    rate by one: on every rate of k/100000 per kB, k from 1 to 1000, it
    returns k or k + 1 satoshis per vbyte; the rate 0.00001, which is
    1 satoshi per byte, becomes 2.  The answer -1 of a server that has no
    estimate, and a zero rate, become 1. *)
Theorem fee_rate_conversion_can_add_one :
  forallb (fun k => oneOf (btcPerKbToSatsPerVbyte (decimal (Z.of_nat k) 100000))
                      (Z.of_nat k) (Z.of_nat k + 1)) (seq 1 1000) = true
  /\ btcPerKbToSatsPerVbyte (decimal 1 100000) = Some 2
  /\ btcPerKbToSatsPerVbyte (decimal 3 100000) = Some 3
  /\ btcPerKbToSatsPerVbyte (PrimFloat.opp (ofZ 1)) = Some 1
  /\ btcPerKbToSatsPerVbyte (ofZ 0) = Some 1.
Proof.
  split; [vm_compute; reflexivity|]. split; [vm_compute; reflexivity|].
  split; [vm_compute; reflexivity|]. split; vm_compute; reflexivity.
Qed.

End UnitsFacts.
